(** * Core API: the WebSocket notification fan-out and the services behind it

    A shallow embedding of the two [WebSocketManager] implementations of the
    repository (the one built on the [ws] library, and the one written for
    Bun's native sockets), of the routing methods they share, of the grant,
    rank, player and punishment services that notify through them, of the
    row converters and of the API key middleware, with the properties of the
    connection registry, the router, the inbound dispatcher, the keepalive
    timer and the services. *)

From stdpp Require Import base option list gmap strings pretty sorting.

Local Open Scope string_scope.
Local Open Scope list_scope.
Set Warnings "-register-all,-clear-no-such-hyp".

(** ** Values that travel over the sockets *)

(** The result of [JSON.parse]: the messages the server builds, and whatever a
    peer sends.  Numbers are kept as integers; no frame built by the server
    holds one. *)
Inductive json :=
| JNull
| JBool (b : bool)
| JNumber (n : Z)
| JString (s : string)
| JArray (items : list json)
| JObject (fields : list (string * json)).

(** [string | null] fields of a message. *)
Definition nullable (o : option string) : json :=
  match o with
  | Some s => JString s
  | None => JNull
  end.

(** What JavaScript raises in the code modelled here. *)
Inductive exn :=
| SyntaxError                       (* JSON.parse on malformed text *)
| TypeError                         (* a property read on null *)
| NotOpenError                      (* ws: send or ping while CONNECTING *)
| ApiError (status : Z) (message : string).

(** The platform the managers run on: the JSON codec and the process
    environment.  [JSON_parse] answers [None] where JavaScript's raises
    a [SyntaxError]. *)
Class Platform := {
  JSON_parse : string → option json;
  JSON_stringify : json → string;
  process_env_API_KEY : option string;
}.

(** ** Connections *)

(** A socket object, by identity: two references are [===] exactly when they
    are the same number. *)
Definition conn := nat.

(** [WebSocket.readyState]. *)
Inductive ready_state := CONNECTING | OPEN | CLOSING | CLOSED.

(** ['proxy' | 'server']: proxy is the BungeeCord gateway, server a Paper
    game server. *)
Inductive server_type := proxy | server.

Global Instance ready_state_eq_dec : EqDecision ready_state.
Proof. solve_decision. Defined.
Global Instance server_type_eq_dec : EqDecision server_type.
Proof. solve_decision. Defined.

(** [interface AuthenticatedWebSocket]: the fields the managers add to a
    socket, the socket's own [readyState], and whether the manager has
    registered its pong, message, close and error listeners on it. *)
Record AuthenticatedWebSocket := mkSocket {
  isAlive : bool;
  serverType : option server_type;
  serverName : option string;
  authenticated : bool;
  readyState : ready_state;
  listening : bool;
}.

(** A socket the manager has not touched: what a lookup of an unknown
    reference answers. *)
Definition no_socket : AuthenticatedWebSocket :=
  mkSocket false None None false CLOSED false.

(** A socket as the server hands it to the connection handler: the opening
    handshake is over, nothing else is set. *)
Definition accepted_socket : AuthenticatedWebSocket :=
  mkSocket false None None false OPEN false.

Global Instance socket_inhabited : Inhabited AuthenticatedWebSocket :=
  populate no_socket.

Definition set_isAlive (b : bool) (s : AuthenticatedWebSocket) :=
  mkSocket b (serverType s) (serverName s) (authenticated s) (readyState s) (listening s).
Definition set_serverType (t : server_type) (s : AuthenticatedWebSocket) :=
  mkSocket (isAlive s) (Some t) (serverName s) (authenticated s) (readyState s) (listening s).
Definition set_serverName (n : string) (s : AuthenticatedWebSocket) :=
  mkSocket (isAlive s) (serverType s) (Some n) (authenticated s) (readyState s) (listening s).
Definition set_authenticated (b : bool) (s : AuthenticatedWebSocket) :=
  mkSocket (isAlive s) (serverType s) (serverName s) b (readyState s) (listening s).
Definition set_readyState (r : ready_state) (s : AuthenticatedWebSocket) :=
  mkSocket (isAlive s) (serverType s) (serverName s) (authenticated s) r (listening s).
Definition set_listening (b : bool) (s : AuthenticatedWebSocket) :=
  mkSocket (isAlive s) (serverType s) (serverName s) (authenticated s) (readyState s) b.

(** ** What the managers do to the outside *)

Inductive log_level := Info | Warn | Error.

(** The console lines, by what they report. *)
Inductive log_line :=
| RejectedInvalidKey
| RejectedMissingType
| RejectedInvalidType
| Connected (c : conn)
| Disconnected (c : conn)
| SocketError (c : conn)
| TerminatingInactive (c : conn)
| Received (type : option json) (c : conn)
| ParseFailed (e : exn).

Inductive effect :=
| Sent (c : conn) (data : string)               (* a frame written to an open socket *)
| Pinged (c : conn)                             (* a ping frame *)
| CloseFrame (c : conn) (code : Z) (reason : string)
| Terminated (c : conn)                         (* the socket destroyed *)
| Logged (level : log_level) (line : log_line).

(** ** The state of a manager *)

(** [clients] is the [Set] in insertion order, [heap] the socket objects,
    [next] the reference the next accepted socket gets, [closing] the sockets
    destroyed by [terminate] whose close event is still to be emitted, [trace]
    everything done to the outside so far. *)
Record world := mkWorld {
  clients : list conn;
  heap : gmap conn AuthenticatedWebSocket;
  next : conn;
  closing : list conn;
  trace : list effect;
}.

Definition init : world := mkWorld [] ∅ 0 [] [].

Definition set_clients (l : list conn) (w : world) :=
  mkWorld l (heap w) (next w) (closing w) (trace w).
Definition set_heap (h : gmap conn AuthenticatedWebSocket) (w : world) :=
  mkWorld (clients w) h (next w) (closing w) (trace w).
Definition set_next (n : conn) (w : world) :=
  mkWorld (clients w) (heap w) n (closing w) (trace w).
Definition set_closing (l : list conn) (w : world) :=
  mkWorld (clients w) (heap w) (next w) l (trace w).
Definition add_trace (es : list effect) (w : world) :=
  mkWorld (clients w) (heap w) (next w) (closing w) (trace w ++ es).

(** The socket object behind a reference. *)
Definition socket (w : world) (c : conn) : AuthenticatedWebSocket := heap w !!! c.

(** ** Statements that may throw *)

Inductive completion (A : Type) :=
| Normal (a : A)
| Throw (e : exn).
Global Arguments Normal {A} a.
Global Arguments Throw {A} e.

Definition M (A : Type) : Type := world → completion A * world.

Global Instance M_ret : MRet M := λ A a w, (Normal a, w).
Global Instance M_bind : MBind M := λ A B k m w,
  match m w with
  | (Normal a, w') => k a w'
  | (Throw e, w') => (Throw e, w')
  end.

Definition throw {A} (e : exn) : M A := λ w, (Throw e, w).

(** [try { m } catch (error) { h error }] *)
Definition try_catch {A} (m : M A) (h : exn → M A) : M A := λ w,
  match m w with
  | (Normal a, w') => (Normal a, w')
  | (Throw e, w') => h e w'
  end.

Definition get (c : conn) : M AuthenticatedWebSocket := λ w, (Normal (socket w c), w).
Definition update (c : conn) (f : AuthenticatedWebSocket → AuthenticatedWebSocket) : M unit :=
  λ w, (Normal tt, set_heap (<[c := f (socket w c)]> (heap w)) w).
Definition emit (e : effect) : M unit := λ w, (Normal tt, add_trace [e] w).
Definition console (level : log_level) (line : log_line) : M unit := emit (Logged level line).

(** The state a statement leaves, and how it completes. *)
Definition exec {A} (m : M A) (w : world) : world := snd (m w).
Definition outcome {A} (m : M A) (w : world) : completion A := fst (m w).

(** ** The [Set] of clients *)

Definition Set_add (c : conn) (l : list conn) : list conn :=
  if decide (c ∈ l) then l else l ++ [c].

Fixpoint Set_delete (c : conn) (l : list conn) : list conn :=
  match l with
  | [] => []
  | x :: l' => if decide (x = c) then Set_delete c l' else x :: Set_delete c l'
  end.

Definition clients_add (c : conn) : M unit := λ w, (Normal tt, set_clients (Set_add c (clients w)) w).
Definition clients_delete (c : conn) : M unit := λ w, (Normal tt, set_clients (Set_delete c (clients w)) w).

Fixpoint forEach (f : conn → M unit) (l : list conn) : M unit :=
  match l with
  | [] => mret tt
  | c :: l' => f c ;; forEach f l'
  end.

(** [this.clients.forEach(f)].  None of the callbacks below adds to or deletes
    from the set while it is walked, so the walk is over the members at the
    time of the call. *)
Definition clients_forEach (f : conn → M unit) : M unit := λ w, forEach f (clients w) w.

(** [for (const x of l) f(x)]; the callback is told how many came before. *)
Fixpoint for_of {A} (f : nat → A → M unit) (i : nat) (l : list A) : M unit :=
  match l with
  | [] => mret tt
  | x :: l' => f i x ;; for_of f (S i) l'
  end.

(** ** The socket's methods, as the [ws] library and the WebSocket standard
    define them *)

(** [send]: throws while the socket is still connecting, writes the frame when
    it is open, and does nothing once it is closing or closed.  A write the
    transport cannot carry out is not an exception of [send]: the socket
    reports it afterwards, with its error or its close event. *)
Definition ws_send (c : conn) (data : string) : M unit :=
  s ← get c;
  match readyState s with
  | CONNECTING => throw NotOpenError
  | OPEN => emit (Sent c data)
  | CLOSING | CLOSED => mret tt
  end.

Definition ws_ping (c : conn) : M unit :=
  s ← get c;
  match readyState s with
  | CONNECTING => throw NotOpenError
  | OPEN => emit (Pinged c)
  | CLOSING | CLOSED => mret tt
  end.

(** [close(code, reason)]: starts the closing handshake. *)
Definition ws_close (c : conn) (code : Z) (reason : string) : M unit :=
  s ← get c;
  match readyState s with
  | CLOSED | CLOSING => mret tt
  | _ => update c (set_readyState CLOSING) ;; emit (CloseFrame c code reason)
  end.

Definition closing_add (c : conn) : M unit :=
  λ w, (Normal tt, set_closing (Set_add c (closing w)) w).

(** [terminate()]: destroys the socket; its close event follows, once the
    callback that called [terminate] has returned. *)
Definition ws_terminate (c : conn) : M unit :=
  s ← get c;
  match readyState s with
  | CLOSED => mret tt
  | _ =>
    update c (set_readyState CLOSING) ;;
    emit (Terminated c) ;;
    closing_add c
  end.

(** ** The methods both managers share *)

(** [message.type]: reading a property of null throws; an object answers its
    field (the last one of that name, as [JSON.parse] keeps it); every other
    value answers undefined. *)
Definition prop_type (message : json) : M (option json) :=
  match message with
  | JNull => throw TypeError
  | JObject fields => mret (snd <$> last (filter (λ kv, kv.1 = "type") fields))
  | _ => mret None
  end.

Definition is_open (s : AuthenticatedWebSocket) : bool :=
  bool_decide (readyState s = OPEN).

(** The messages the notify methods build; [now] is
    [new Date().toISOString()] at the call. *)
Definition GRANT_CHANGE (playerUuid now : string) : json :=
  JObject [("type", JString "GRANT_CHANGE");
           ("playerUuid", JString playerUuid);
           ("timestamp", JString now)].

Definition RANK_CHANGE (rankId now : string) : json :=
  JObject [("type", JString "RANK_CHANGE");
           ("rankId", JString rankId);
           ("timestamp", JString now)].

Definition PLAYER_UPDATE (playerUuid now : string) : json :=
  JObject [("type", JString "PLAYER_UPDATE");
           ("playerUuid", JString playerUuid);
           ("timestamp", JString now)].

Definition PUNISH_EXECUTE (playerUuid punishmentType : string) (reason : option string)
    (now : string) : json :=
  JObject [("type", JString "PUNISH_EXECUTE");
           ("playerUuid", JString playerUuid);
           ("punishmentType", JString punishmentType);
           ("reason", nullable reason);
           ("timestamp", JString now)].

Definition PRIVATE_MESSAGE (targetPlayer senderName message now : string) : json :=
  JObject [("type", JString "PRIVATE_MESSAGE");
           ("targetPlayer", JString targetPlayer);
           ("senderName", JString senderName);
           ("message", JString message);
           ("timestamp", JString now)].

Section Router.
Context `{!Platform}.

(** [broadcast(message, excludeClient?)] *)
Definition broadcast (message : json) (excludeClient : option conn) : M unit :=
  let data := JSON_stringify message in
  clients_forEach (λ client,
    s ← get client;
    if bool_decide (Some client ≠ excludeClient) && is_open s
    then ws_send client data
    else mret tt).

(** [sendToServers(message)] *)
Definition sendToServers (message : json) : M unit :=
  let data := JSON_stringify message in
  clients_forEach (λ client,
    s ← get client;
    if bool_decide (serverType s = Some server) && is_open s
    then ws_send client data
    else mret tt).

(** [sendToProxy(message)] *)
Definition sendToProxy (message : json) : M unit :=
  let data := JSON_stringify message in
  clients_forEach (λ client,
    s ← get client;
    if bool_decide (serverType s = Some proxy) && is_open s
    then ws_send client data
    else mret tt).

(** [sendToType(type, message)] *)
Definition sendToType (type : server_type) (message : json) : M unit :=
  let data := JSON_stringify message in
  clients_forEach (λ client,
    s ← get client;
    if bool_decide (serverType s = Some type) && is_open s
    then ws_send client data
    else mret tt).

Definition notifyGrantChange (playerUuid now : string) : M unit :=
  sendToServers (GRANT_CHANGE playerUuid now).

Definition notifyRankChange (rankId now : string) : M unit :=
  broadcast (RANK_CHANGE rankId now) None.

Definition notifyPlayerUpdate (playerUuid now : string) : M unit :=
  sendToServers (PLAYER_UPDATE playerUuid now).

Definition notifyPunishmentExecute (playerUuid punishmentType : string)
    (reason : option string) (now : string) : M unit :=
  sendToProxy (PUNISH_EXECUTE playerUuid punishmentType reason now).

Definition sendPrivateMessage (targetPlayer senderName message now : string) : M unit :=
  sendToServers (PRIVATE_MESSAGE targetPlayer senderName message now).

(** [handleMessage(client, data)]; [data] is the frame's text,
    [data.toString()]. *)
Definition handleMessage (client : conn) (data : string) : M unit :=
  try_catch
    (message ← from_option mret (throw SyntaxError) (JSON_parse data);
     type ← prop_type message;
     console Info (Received type client) ;;
     broadcast message (Some client))
    (λ error, console Error (ParseFailed error)).

(** The events the CRUD layer hands to the manager, one per notify method. *)
Inductive DomainEvent :=
| GrantChanged (playerUuid : string)
| RankChanged (rankId : string)
| PlayerUpdated (playerUuid : string)
| PunishmentExecute (playerUuid punishmentType : string) (reason : option string)
| PrivateMessage (targetPlayer senderName message : string).

Definition encode (e : DomainEvent) (now : string) : json :=
  match e with
  | GrantChanged u => GRANT_CHANGE u now
  | RankChanged r => RANK_CHANGE r now
  | PlayerUpdated u => PLAYER_UPDATE u now
  | PunishmentExecute u t r => PUNISH_EXECUTE u t r now
  | PrivateMessage t s m => PRIVATE_MESSAGE t s m now
  end.

(** The call a service makes for each event. *)
Definition Dispatch (e : DomainEvent) (now : string) : M unit :=
  match e with
  | GrantChanged u => notifyGrantChange u now
  | RankChanged r => notifyRankChange r now
  | PlayerUpdated u => notifyPlayerUpdate u now
  | PunishmentExecute u t r => notifyPunishmentExecute u t r now
  | PrivateMessage t s m => sendPrivateMessage t s m now
  end.
End Router.

(** ** Connection requests and the frames of the handshake *)

(** [url.searchParams.get] of the three parameters of the upgrade request;
    [None] is JavaScript's null, a parameter that is not there. *)
Record request := mkRequest {
  q_api_key : option string;
  q_type : option string;
  q_name : option string;
}.

(** JavaScript's truthiness of a [string | null]. *)
Definition truthy (o : option string) : bool :=
  match o with
  | Some s => negb (bool_decide (s = EmptyString))
  | None => false
  end.

(** [o || d] *)
Definition or_else (o : option string) (d : string) : string :=
  if truthy o then default d o else d.

Definition server_type_string (t : server_type) : string :=
  match t with
  | proxy => "proxy"
  | server => "server"
  end.

Definition ERROR (message : string) : json :=
  JObject [("type", JString "ERROR"); ("message", JString message)].

Definition CONNECTED (t : server_type) (name : string) : json :=
  JObject [("type", JString "CONNECTED");
           ("message", JString "Connected to Core API WebSocket");
           ("serverType", JString (server_type_string t));
           ("serverName", JString name)].

(** [const API_KEY = process.env.API_KEY || ''] *)
Definition API_KEY `{!Platform} : string := or_else process_env_API_KEY EmptyString.

(** What happens around a manager: the server accepts a socket, a socket
    emits pong, message, close or error, the peer starts closing, the
    keepalive timer fires, a service notifies. *)
Inductive event :=
| EvConnection (req : request)
| EvPong (c : conn)
| EvMessage (c : conn) (data : string)
| EvClose (c : conn)
| EvError (c : conn)
| EvPeerClosing (c : conn)
| EvInterval
| EvNotify (e : DomainEvent) (now : string).

(** The server accepts a socket: a new object, open. *)
Definition accept : M conn := λ w,
  let c := next w in
  (Normal c, set_next (S c) (set_heap (<[c := accepted_socket]> (heap w)) w)).

(** The peer's close frame arrives: an open socket turns closing. *)
Definition peer_closing (c : conn) : M unit :=
  s ← get c;
  if is_open s then update c (set_readyState CLOSING) else mret tt.

(** ** The manager built on the ws library *)

Module WsServer.
Section WsServer.
Context `{!Platform}.

(** The listeners the handler registers on an admitted socket. *)
Definition on_pong (client : conn) : M unit :=
  update client (set_isAlive true).

Definition on_message (client : conn) (data : string) : M unit :=
  handleMessage client data.

Definition on_close (client : conn) : M unit :=
  console Info (Disconnected client) ;;
  clients_delete client.

Definition on_error (client : conn) : M unit :=
  console Error (SocketError client) ;;
  clients_delete client.

(** [if (typeParam === 'bungee') ... else if (typeParam === 'paper') ... else
    reject]: the role a type parameter stands for. *)
Definition resolve_type (typeParam : option string) : option server_type :=
  if bool_decide (typeParam = Some "bungee") then Some proxy
  else if bool_decide (typeParam = Some "paper") then Some server
  else None.

(** [this.wss.on('connection', (ws, req) => ...)] in [attach] *)
Definition connection (client : conn) (req : request) : M unit :=
  update client (set_isAlive true) ;;
  update client (set_authenticated false) ;;
  let apiKey := q_api_key req in
  if bool_decide (apiKey ≠ Some API_KEY) then
    console Warn RejectedInvalidKey ;;
    ws_send client (JSON_stringify (ERROR "Authentication failed")) ;;
    ws_close client 1008 "Authentication failed"
  else
    let typeParam := q_type req in
    if negb (truthy typeParam) then
      console Warn RejectedMissingType ;;
      ws_send client (JSON_stringify (ERROR "Missing type parameter")) ;;
      ws_close client 1008 "Missing type parameter"
    else
      match resolve_type typeParam with
      | None =>
        console Warn RejectedInvalidType ;;
        ws_send client
          (JSON_stringify (ERROR "Invalid type parameter. Use: bungee or paper")) ;;
        ws_close client 1008 "Invalid type parameter"
      | Some t =>
        update client (set_serverType t) ;;
        update client (set_authenticated true) ;;
        let name := or_else (q_name req) "unknown" in
        update client (set_serverName name) ;;
        console Info (Connected client) ;;
        clients_add client ;;
        ws_send client (JSON_stringify (CONNECTED t name)) ;;
        update client (set_listening true)
      end.

(** The callback of the 30 second keepalive timer. *)
Definition keepalive : M unit :=
  clients_forEach (λ client,
    s ← get client;
    if bool_decide (isAlive s = false) then
      console Info (TerminatingInactive client) ;;
      ws_terminate client
    else
      update client (set_isAlive false) ;;
      ws_ping client).

(** A socket emits close: it is closed from then on, and its listener, if
    the manager registered one, runs. *)
Definition emit_close (c : conn) : M unit :=
  update c (set_readyState CLOSED) ;;
  s ← get c;
  if listening s then on_close c else mret tt.

(** The close events of the sockets [terminate] destroyed. *)
Definition drain : M unit := λ w,
  forEach emit_close (closing w) (set_closing [] w).

Definition handle (ev : event) : M unit :=
  match ev with
  | EvConnection req => client ← accept; connection client req
  | EvPong c => s ← get c; if listening s then on_pong c else mret tt
  | EvMessage c data => s ← get c; if listening s then on_message c data else mret tt
  | EvClose c => emit_close c
  | EvError c => s ← get c; if listening s then on_error c else mret tt
  | EvPeerClosing c => peer_closing c
  | EvInterval => keepalive
  | EvNotify e now => Dispatch e now
  end.

(** One turn of the event loop: the callback, then the close events it
    caused. *)
Definition step (ev : event) : M unit := handle ev ;; drain.

(** A run of the process; an exception no callback catches ends it. *)
Fixpoint run (evs : list event) : M unit :=
  match evs with
  | [] => mret tt
  | ev :: evs' => step ev ;; run evs'
  end.
End WsServer.
End WsServer.

(** ** The manager written for Bun's sockets *)

Module BunServer.
Section BunServer.
Context `{!Platform}.

Definition on_close (client : conn) : M unit :=
  console Info (Disconnected client) ;;
  clients_delete client.

Definition on_error (client : conn) : M unit :=
  console Error (SocketError client) ;;
  clients_delete client.

(** [handleConnection(ws, req)]; the request's api_key is not read. *)
Definition handleConnection (client : conn) (req : request) : M unit :=
  let typeParam := q_type req in
  let nameParam := q_name req in
  let type := if bool_decide (typeParam = Some "bungee") then proxy else server in
  let name := or_else nameParam "unknown" in
  update client (λ s, mkSocket true (Some type) (Some name) true (readyState s) (listening s)) ;;
  console Info (Connected client) ;;
  clients_add client ;;
  ws_send client (JSON_stringify (CONNECTED type name)) ;;
  update client (set_listening true).

(** The callback of the client's own 30 second timer; on a socket that is
    not open it clears the timer. *)
Definition pingInterval (client : conn) : M unit :=
  s ← get client;
  if is_open s then ws_ping client else mret tt.

Fixpoint intervals (n : nat) (client : conn) : M unit :=
  match n with
  | 0 => mret tt
  | S n' => pingInterval client ;; intervals n' client
  end.
End BunServer.
End BunServer.

(** ** What the ws manager reports about its connections *)

(** An entry of [getConnectedServers()]. *)
Record ServerInfo := mkInfo {
  info_type : option server_type;
  info_name : option string;
  info_alive : bool;
}.

(** [getConnectedServers()] of the ws manager: one entry per client, in the
    order of the set; [alive] is the keepalive flag. *)
Definition getConnectedServers (w : world) : list ServerInfo :=
  (λ client, let s := socket w client in
             mkInfo (serverType s) (serverName s) (isAlive s)) <$> clients w.

(** [getConnectionCount()], [getServerCount()] and [getProxyCount()] *)
Definition getConnectionCount (w : world) : nat := length (clients w).

Definition getServerCount (w : world) : nat :=
  length (filter (λ c, serverType (socket w c) = Some server) (clients w)).

Definition getProxyCount (w : world) : nat :=
  length (filter (λ c, serverType (socket w c) = Some proxy) (clients w)).

(** ** The punishment service *)

Definition notFound {A} (message : string) : M A := throw (ApiError 404 message).

Module PunishmentService.

(** A row of the punishments table. *)
Record PunishmentRow := mkRow {
  row_id : Z;
  player_uuid : string;
  punished_by_uuid : option string;
  punished_by_name : option string;
  row_type : string;
  row_reason : option string;
  duration_seconds : option Z;
  created_at : option string;
  expires_at : option string;
  is_active : bool;
  row_executed : bool;
}.

Record Punishment := mkPunishment {
  id : Z;
  playerUuid : string;
  punishedByUuid : option string;
  punishedByName : option string;
  type : string;
  reason : option string;
  durationSeconds : option Z;
  createdAt : option string;
  expiresAt : option string;
  isActive : bool;
  executed : bool;
}.

Definition punishmentRowToApi (row : PunishmentRow) : Punishment :=
  mkPunishment (row_id row) (player_uuid row) (punished_by_uuid row)
    (punished_by_name row) (row_type row) (row_reason row) (duration_seconds row)
    (created_at row) (expires_at row) (is_active row) (row_executed row).

(** The table, in row order. *)
Definition table := list PunishmentRow.

(** [SELECT * FROM punishments WHERE id = ?] *)
Definition select_by_id (punishmentId : Z) (db : table) : list PunishmentRow :=
  filter (λ r, row_id r = punishmentId) db.

Definition set_executed (r : PunishmentRow) : PunishmentRow :=
  mkRow (row_id r) (player_uuid r) (punished_by_uuid r) (punished_by_name r)
    (row_type r) (row_reason r) (duration_seconds r) (created_at r) (expires_at r)
    (is_active r) true.

(** [UPDATE punishments SET executed = 1 WHERE id = ?] *)
Definition update_executed (punishmentId : Z) (db : table) : table :=
  (λ r, if decide (row_id r = punishmentId) then set_executed r else r) <$> db.

Record ExecuteResponse := mkResponse {
  success : bool;
  message : string;
  kicked : bool;
}.

(** [is_active = 1 AND expires_at IS NOT NULL AND expires_at <=
    datetime('now')]; [now] is the text of [datetime('now')], texts compare
    byte by byte. *)
Definition expired (now : string) (r : PunishmentRow) : Prop :=
  is_active r = true
  ∧ match expires_at r with
    | None => False
    | Some e => String.le e now
    end.

Global Instance expired_dec now r : Decision (expired now r).
Proof. unfold expired. destruct (expires_at r); apply _. Defined.

(** [SELECT DISTINCT player_uuid FROM punishments WHERE ...expired...]: each
    player once, in an order SQLite leaves open. *)
Definition select_expired_players (now : string) (db : table) : list string :=
  remove_dups (player_uuid <$> filter (expired now) db).

Definition set_is_active (active : bool) (r : PunishmentRow) : PunishmentRow :=
  mkRow (row_id r) (player_uuid r) (punished_by_uuid r) (punished_by_name r)
    (row_type r) (row_reason r) (duration_seconds r) (created_at r) (expires_at r)
    active (row_executed r).

(** [UPDATE punishments SET is_active = 0 WHERE ...expired...]: the number of
    rows it changed and the table. *)
Definition update_expired (now : string) (db : table) : nat * table :=
  (length (filter (expired now) db),
   (λ r, if decide (expired now r) then set_is_active false r else r) <$> db).

Section PunishmentService.
Context `{!Platform}.

(** [findById(id)] *)
Definition findById (punishmentId : Z) (db : table) : option Punishment :=
  match select_by_id punishmentId db with
  | [] => None
  | row :: _ => Some (punishmentRowToApi row)
  end.

(** [execute(punishmentId)]: the response and the table it leaves; [wsManager]
    is the manager in the state, [now] the clock when it notifies. *)
Definition execute (punishmentId : Z) (now : string) (db : table)
    : M (ExecuteResponse * table) :=
  match findById punishmentId db with
  | None => notFound ("Punishment with ID " +:+ pretty punishmentId +:+ " not found")
  | Some punishment =>
    let shouldKick :=
      bool_decide (type punishment = "BAN")
      || bool_decide (type punishment = "TEMPBAN")
      || bool_decide (type punishment = "KICK") in
    kicked ← (if shouldKick then
                notifyPunishmentExecute (playerUuid punishment) (type punishment)
                  (reason punishment) now ;;
                mret true
              else mret false);
    let db' := update_executed punishmentId db in
    mret (mkResponse true "Punishment executed successfully" kicked, db')
  end.

(** [cleanupExpiredPunishments()]: [selected] and [updated] are the texts of
    [datetime('now')] when the two statements run, [clock i] the clock when
    the notification after [i] others is built. *)
Definition cleanupExpiredPunishments (selected updated : string) (clock : nat → string)
    (db : table) : M (nat * table) :=
  let expiredPunishments := select_expired_players selected db in
  let '(affectedRows, db') := update_expired updated db in
  for_of (λ i player_uuid, notifyPlayerUpdate player_uuid (clock i)) 0 expiredPunishments ;;
  mret (affectedRows, db').
End PunishmentService.
End PunishmentService.

(** ** JavaScript values and objects *)

(** The values the rows and the parameters of the statements hold.  Texts
    are kept as their UTF-8 bytes. *)
Inductive value :=
| VUndefined
| VNull
| VBool (b : bool)
| VNumber (n : Z)
| VString (s : string).

(** A [string | null]. *)
Definition of_nullable (o : option string) : value :=
  match o with
  | Some s => VString s
  | None => VNull
  end.

(** An object, by the names of its properties. *)
Definition object := gmap string value.

(** [o.key]: a property that is not there reads undefined. *)
Definition prop (o : object) (key : string) : value := default VUndefined (o !! key).

(** [v ?? d] *)
Definition nullish (v d : value) : value :=
  match v with
  | VUndefined | VNull => d
  | _ => v
  end.

(** Truthiness of a value. *)
Definition to_boolean (v : value) : bool :=
  match v with
  | VUndefined | VNull => false
  | VBool b => b
  | VNumber n => negb (n =? 0)%Z
  | VString s => negb (bool_decide (s = EmptyString))
  end.

(** The text behind a value whose type is [string]. *)
Definition text_of (v : value) : string :=
  match v with
  | VString s => s
  | _ => EmptyString
  end.

(** ** Permission lists in a column *)

(** The comma, as a byte. *)
Definition comma : Ascii.ascii := Ascii.ascii_of_nat 44.

(** [s.split(',')] *)
Fixpoint split_commas (s : string) : list string :=
  match s with
  | EmptyString => [EmptyString]
  | String a s' =>
    if Ascii.eqb a comma then EmptyString :: split_commas s'
    else match split_commas s' with
         | p :: ps => String a p :: ps
         | [] => [String a EmptyString]
         end
  end.

(** Whether [p.trim()] is the empty text: [p] holds nothing but white space
    and line terminators.  Those are the tab, line feed, vertical tab, form
    feed, carriage return and space, U+00A0, U+1680, U+2000 to U+200A,
    U+2028, U+2029, U+202F, U+205F, U+3000 and U+FEFF, here in UTF-8. *)
Fixpoint blank (p : string) : bool :=
  match p with
  | EmptyString => true
  | String a p1 =>
    let x := Ascii.N_of_ascii a in
    if ((9 <=? x) && (x <=? 13) || (x =? 32))%N then blank p1
    else
      match p1 with
      | String b p2 =>
        let y := Ascii.N_of_ascii b in
        if ((x =? 194) && (y =? 160))%N then blank p2
        else
          match p2 with
          | String c p3 =>
            let z := Ascii.N_of_ascii c in
            if ((x =? 225) && (y =? 154) && (z =? 128)
                || (x =? 226) && (y =? 128)
                   && ((128 <=? z) && (z <=? 138) || (z =? 168) || (z =? 169) || (z =? 175))
                || (x =? 226) && (y =? 129) && (z =? 159)
                || (x =? 227) && (y =? 128) && (z =? 128)
                || (x =? 239) && (y =? 187) && (z =? 191))%N
            then blank p3
            else false
          | EmptyString => false
          end
      | EmptyString => false
      end
  end.

(** [column ? column.split(',').filter(p => p.trim()) : null], what
    [playerRowToApi] and [rankRowToApi] make of the permissions column. *)
Definition permissions_of_column (column : option string) : option (list string) :=
  match column with
  | Some s =>
    if truthy (Some s) then Some (filter (λ p, blank p = false) (split_commas s))
    else None
  | None => None
  end.

(** [permissions?.join(',') || null], what [playerApiToRow] and
    [rankApiToRow] make of the permissions. *)
Definition column_of_permissions (permissions : option (list string)) : option string :=
  match permissions with
  | Some l =>
    let joined := String.concat "," l in
    if truthy (Some joined) then Some joined else None
  | None => None
  end.

(** ** The grant service *)

Module GrantService.

(** A row of the grants table. *)
Record GrantRow := mkRow {
  row_id : Z;
  player_uuid : string;
  rank_id : string;
  granter_uuid : string;
  granter_name : string;
  granted_at : string;
  expires_at : option string;
  row_reason : option string;
  is_active : bool;
}.

Record Grant := mkGrant {
  id : Z;
  playerUuid : string;
  rankId : string;
  granterUuid : string;
  granterName : string;
  grantedAt : string;
  expiresAt : option string;
  reason : option string;
  isActive : bool;
}.

(** [Omit<Grant, 'id'>], what [save] is given. *)
Record CreateGrantDto := mkDto {
  dto_playerUuid : string;
  dto_rankId : string;
  dto_granterUuid : string;
  dto_granterName : string;
  dto_grantedAt : string;
  dto_expiresAt : option string;
  dto_reason : option string;
  dto_isActive : bool;
}.

Definition grantRowToApi (row : GrantRow) : Grant :=
  mkGrant (row_id row) (player_uuid row) (rank_id row) (granter_uuid row)
    (granter_name row) (granted_at row) (expires_at row) (row_reason row) (is_active row).

(** The table: its rows in rowid order, and the largest rowid it has ever
    held, which [AUTOINCREMENT] keeps in [sqlite_sequence]. *)
Record table := mkTable {
  rows : list GrantRow;
  sequence : Z;
}.

(** [SELECT * FROM grants WHERE id = ?] *)
Definition select_by_id (grantId : Z) (db : table) : list GrantRow :=
  filter (λ r, row_id r = grantId) (rows db).

(** [ORDER BY granted_at DESC]: the later text first; rows of the same text
    come in an order SQLite leaves open. *)
Definition granted_at_desc (r1 r2 : GrantRow) : Prop :=
  String.le (granted_at r2) (granted_at r1).

Global Instance granted_at_desc_dec : RelDecision granted_at_desc.
Proof. intros r1 r2. unfold granted_at_desc. apply _. Defined.

(** [SELECT * FROM grants WHERE player_uuid = ? ORDER BY granted_at DESC] *)
Definition select_by_player (playerUuid : string) (db : table) : list GrantRow :=
  merge_sort granted_at_desc (filter (λ r, player_uuid r = playerUuid) (rows db)).

(** [is_active = 1 AND (expires_at IS NULL OR expires_at > datetime('now'))];
    [now] is the text of [datetime('now')], texts compare byte by byte. *)
Definition current (now : string) (r : GrantRow) : Prop :=
  is_active r = true
  ∧ match expires_at r with
    | None => True
    | Some e => ¬ String.le e now
    end.

Global Instance current_dec now r : Decision (current now r).
Proof. unfold current. destruct (expires_at r); apply _. Defined.

Definition select_active_by_player (playerUuid now : string) (db : table) : list GrantRow :=
  merge_sort granted_at_desc
    (filter (λ r, player_uuid r = playerUuid ∧ current now r) (rows db)).

(** [SELECT * FROM grants WHERE player_uuid = ? AND is_active = 1 ORDER BY
    granted_at DESC] *)
Definition select_active_by_player_including_expired (playerUuid : string) (db : table)
    : list GrantRow :=
  merge_sort granted_at_desc
    (filter (λ r, player_uuid r = playerUuid ∧ is_active r = true) (rows db)).

Definition max_rowid (l : list GrantRow) : Z := foldr Z.max 0%Z (row_id <$> l).

(** The rowid [AUTOINCREMENT] gives the next row: one more than the largest
    the table has ever held. *)
Definition next_rowid (db : table) : Z :=
  (Z.max (sequence db) (max_rowid (rows db)) + 1)%Z.

(** [INSERT INTO grants (player_uuid, ..., is_active) VALUES (?, ..., ?)]:
    the new rowid and the table. *)
Definition insert (grant : CreateGrantDto) (db : table) : Z * table :=
  let rowid := next_rowid db in
  (rowid,
   mkTable (rows db ++ [mkRow rowid (dto_playerUuid grant) (dto_rankId grant)
                          (dto_granterUuid grant) (dto_granterName grant)
                          (dto_grantedAt grant) (dto_expiresAt grant) (dto_reason grant)
                          (dto_isActive grant)])
     rowid).

Definition set_is_active (active : bool) (r : GrantRow) : GrantRow :=
  mkRow (row_id r) (player_uuid r) (rank_id r) (granter_uuid r) (granter_name r)
    (granted_at r) (expires_at r) (row_reason r) active.

(** [UPDATE grants SET is_active = ? WHERE id = ?]: the number of rows it
    changed and the table. *)
Definition update_is_active (active : bool) (grantId : Z) (db : table) : nat * table :=
  (length (select_by_id grantId db),
   mkTable ((λ r, if decide (row_id r = grantId) then set_is_active active r else r)
              <$> rows db)
     (sequence db)).

(** [DELETE FROM grants WHERE id = ?] *)
Definition delete_by_id (grantId : Z) (db : table) : nat * table :=
  (length (select_by_id grantId db),
   mkTable (filter (λ r, row_id r ≠ grantId) (rows db)) (sequence db)).

(** [DELETE FROM grants WHERE player_uuid = ?] *)
Definition delete_by_player (playerUuid : string) (db : table) : nat * table :=
  (length (filter (λ r, player_uuid r = playerUuid) (rows db)),
   mkTable (filter (λ r, player_uuid r ≠ playerUuid) (rows db)) (sequence db)).

(** [is_active = 1 AND expires_at IS NOT NULL AND expires_at <=
    datetime('now')] *)
Definition expired (now : string) (r : GrantRow) : Prop :=
  is_active r = true
  ∧ match expires_at r with
    | None => False
    | Some e => String.le e now
    end.

Global Instance expired_dec now r : Decision (expired now r).
Proof. unfold expired. destruct (expires_at r); apply _. Defined.

(** [SELECT DISTINCT player_uuid FROM grants WHERE ...expired...]: each
    player once, in an order SQLite leaves open. *)
Definition select_expired_players (now : string) (db : table) : list string :=
  remove_dups (player_uuid <$> filter (expired now) (rows db)).

(** [UPDATE grants SET is_active = 0 WHERE ...expired...] *)
Definition update_expired (now : string) (db : table) : nat * table :=
  (length (filter (expired now) (rows db)),
   mkTable ((λ r, if decide (expired now r) then set_is_active false r else r) <$> rows db)
     (sequence db)).

Section GrantService.
Context `{!Platform}.

(** [findById(id)] *)
Definition findById (grantId : Z) (db : table) : option Grant :=
  match select_by_id grantId db with
  | [] => None
  | row :: _ => Some (grantRowToApi row)
  end.

(** [findByPlayer(playerUuid)] *)
Definition findByPlayer (playerUuid : string) (db : table) : list Grant :=
  grantRowToApi <$> select_by_player playerUuid db.

(** [findActiveByPlayer(playerUuid)] *)
Definition findActiveByPlayer (playerUuid now : string) (db : table) : list Grant :=
  grantRowToApi <$> select_active_by_player playerUuid now db.

(** [findActiveByPlayerIncludingExpired(playerUuid)] *)
Definition findActiveByPlayerIncludingExpired (playerUuid : string) (db : table)
    : list Grant :=
  grantRowToApi <$> select_active_by_player_including_expired playerUuid db.

(** [save(grant)]: the id of the new row and the table it leaves. *)
Definition save (grant : CreateGrantDto) (now : string) (db : table) : M (Z * table) :=
  let '(insertId, db') := insert grant db in
  notifyGrantChange (dto_playerUuid grant) now ;;
  mret (insertId, db').

Definition not_found_message (grantId : Z) : string :=
  "Grant with ID " +:+ pretty grantId +:+ " not found".

(** [updateActiveStatus(grantId, active)] *)
Definition updateActiveStatus (grantId : Z) (active : bool) (now : string) (db : table)
    : M (unit * table) :=
  match findById grantId db with
  | None => notFound (not_found_message grantId)
  | Some grant =>
    let '(affectedRows, db') := update_is_active active grantId db in
    if bool_decide (affectedRows = 0%nat) then notFound (not_found_message grantId)
    else
      notifyGrantChange (playerUuid grant) now ;;
      mret (tt, db')
  end.

(** [deleteById(grantId)] *)
Definition deleteById (grantId : Z) (now : string) (db : table) : M (unit * table) :=
  match findById grantId db with
  | None => notFound (not_found_message grantId)
  | Some grant =>
    let '(affectedRows, db') := delete_by_id grantId db in
    if bool_decide (affectedRows = 0%nat) then notFound (not_found_message grantId)
    else
      notifyGrantChange (playerUuid grant) now ;;
      mret (tt, db')
  end.

(** [deleteByPlayer(playerUuid)] *)
Definition deleteByPlayer (playerUuid : string) (now : string) (db : table)
    : M (unit * table) :=
  let '(_, db') := delete_by_player playerUuid db in
  notifyGrantChange playerUuid now ;;
  mret (tt, db').

(** [cleanupExpiredGrants()]: [selected] and [updated] are the texts of
    [datetime('now')] when the two statements run, [clock i] the clock when
    the notification after [i] others is built. *)
Definition cleanupExpiredGrants (selected updated : string) (clock : nat → string)
    (db : table) : M (nat * table) :=
  let expiredGrants := select_expired_players selected db in
  let '(affectedRows, db') := update_expired updated db in
  for_of (λ i player_uuid, notifyGrantChange player_uuid (clock i)) 0 expiredGrants ;;
  mret (affectedRows, db').

End GrantService.
End GrantService.

(** ** The rank service *)

Module RankService.

(** A row of the ranks table. *)
Record RankRow := mkRow {
  row_id : string;
  row_name : string;
  display_name : option string;
  row_prefix : option string;
  row_suffix : option string;
  row_priority : Z;
  is_default : bool;
  row_permissions : option string;
}.

Record Rank := mkRank {
  id : string;
  name : string;
  displayName : option string;
  prefix : option string;
  suffix : option string;
  priority : Z;
  isDefault : bool;
  permissions : option (list string);
}.

Definition rankRowToApi (row : RankRow) : Rank :=
  mkRank (row_id row) (row_name row) (display_name row) (row_prefix row) (row_suffix row)
    (row_priority row) (is_default row) (permissions_of_column (row_permissions row)).

(** [rankApiToRow(rank)]: the object it builds, with the names of the
    columns. *)
Definition rankApiToRow (rank : Rank) : object :=
  list_to_map
    [("id", VString (id rank));
     ("name", VString (name rank));
     ("display_name", of_nullable (displayName rank));
     ("prefix", of_nullable (prefix rank));
     ("suffix", of_nullable (suffix rank));
     ("priority", VNumber (priority rank));
     ("is_default", VBool (isDefault rank));
     ("permissions", of_nullable (column_of_permissions (permissions rank)))].

(** The table, in row order. *)
Definition table := list RankRow.

(** [SELECT * FROM ranks WHERE id = ?] *)
Definition select_by_id (rankId : string) (db : table) : list RankRow :=
  filter (λ r, row_id r = rankId) db.

(** [DELETE FROM ranks WHERE id = ?]: the number of rows deleted and the
    table. *)
Definition delete_by_id (rankId : string) (db : table) : nat * table :=
  (length (select_by_id rankId db), filter (λ r, row_id r ≠ rankId) db).

(** The parameters [save] binds to its statement, in the order of the
    columns id, name, display_name, prefix, suffix, priority, is_default and
    permissions. *)
Definition save_parameters (row : object) : list value :=
  [prop row "id";
   prop row "name";
   prop row "displayName";
   prop row "prefix";
   prop row "suffix";
   nullish (prop row "priority") (VNumber 0);
   if to_boolean (prop row "isDefault") then VNumber 1 else VNumber 0;
   prop row "permissions"].

Section RankService.
Context `{!Platform}.

(** What the driver makes of the statement of [save] with the parameters it
    is given: the table it leaves, or the error it throws. *)
Variable execute_save : list value → table → completion table.

(** [findById(id)] *)
Definition findById (rankId : string) (db : table) : option Rank :=
  match select_by_id rankId db with
  | [] => None
  | row :: _ => Some (rankRowToApi row)
  end.

(** [save(dto)] *)
Definition save (dto : Rank) (now : string) (db : table) : M (unit * table) :=
  let row := rankApiToRow dto in
  match execute_save (save_parameters row) db with
  | Throw e => throw e
  | Normal db' =>
    notifyRankChange (text_of (prop row "id")) now ;;
    mret (tt, db')
  end.

(** [deleteById(id)] *)
Definition deleteById (rankId : string) (now : string) (db : table) : M (unit * table) :=
  let '(affectedRows, db') := delete_by_id rankId db in
  if bool_decide (affectedRows = 0%nat) then notFound ("Rank not found: " +:+ rankId)
  else
    notifyRankChange rankId now ;;
    mret (tt, db').

End RankService.
End RankService.

(** ** The player service *)

Module PlayerService.

(** A row of the players table. *)
Record PlayerRow := mkRow {
  row_uuid : string;
  row_username : string;
  playtime_ticks : Z;
  first_login : option string;
  last_login : option string;
  is_online : bool;
  additional_permissions : option string;
}.

Record Player := mkPlayer {
  uuid : string;
  username : string;
  playtimeTicks : Z;
  firstLogin : option string;
  lastLogin : option string;
  isOnline : bool;
  additionalPermissions : option (list string);
}.

Definition playerRowToApi (row : PlayerRow) : Player :=
  mkPlayer (row_uuid row) (row_username row) (playtime_ticks row) (first_login row)
    (last_login row) (is_online row) (permissions_of_column (additional_permissions row)).

(** [playerApiToRow(player)]: the object it builds, with the names of the
    columns. *)
Definition playerApiToRow (player : Player) : object :=
  list_to_map
    [("uuid", VString (uuid player));
     ("username", VString (username player));
     ("playtime_ticks", VNumber (playtimeTicks player));
     ("first_login", of_nullable (firstLogin player));
     ("last_login", of_nullable (lastLogin player));
     ("is_online", VBool (isOnline player));
     ("additional_permissions",
      of_nullable (column_of_permissions (additionalPermissions player)))].

(** The table, in row order. *)
Definition table := list PlayerRow.

(** [SELECT * FROM players WHERE uuid = ?] *)
Definition select_by_uuid (playerUuid : string) (db : table) : list PlayerRow :=
  filter (λ r, row_uuid r = playerUuid) db.

(** [SELECT * FROM players WHERE is_online = 1] *)
Definition select_online (db : table) : list PlayerRow :=
  filter (λ r, is_online r = true) db.

(** [ORDER BY playtime_ticks DESC]: the longer playtime first; rows of the
    same playtime come in an order SQLite leaves open. *)
Definition playtime_desc (r1 r2 : PlayerRow) : Prop :=
  (playtime_ticks r2 ≤ playtime_ticks r1)%Z.

Global Instance playtime_desc_dec : RelDecision playtime_desc.
Proof. intros r1 r2. unfold playtime_desc. apply _. Defined.


Definition set_is_online (online : bool) (r : PlayerRow) : PlayerRow :=
  mkRow (row_uuid r) (row_username r) (playtime_ticks r) (first_login r) (last_login r)
    online (additional_permissions r).

(** [UPDATE players SET is_online = ? WHERE uuid = ?]: the number of rows it
    changed and the table. *)
Definition update_is_online (online : bool) (playerUuid : string) (db : table)
    : nat * table :=
  (length (select_by_uuid playerUuid db),
   (λ r, if decide (row_uuid r = playerUuid) then set_is_online online r else r) <$> db).

(** The parameters [save] binds to its statement, in the order of the
    columns uuid, username, playtime_ticks, first_login, last_login, is_online
    and additional_permissions. *)
Definition save_parameters (row : object) : list value :=
  [prop row "uuid";
   prop row "username";
   nullish (prop row "playtime_ticks") (VNumber 0);
   prop row "firstLogin";
   prop row "lastLogin";
   nullish (prop row "isOnline") (VNumber 0);
   prop row "additionalPermissions"].

Section PlayerService.
Context `{!Platform}.

(** What the driver makes of the statement of [save] with the parameters it
    is given: the table it leaves, or the error it throws. *)
Variable execute_save : list value → table → completion table.

(** [findByUuid(uuid)] *)
Definition findByUuid (playerUuid : string) (db : table) : option Player :=
  match select_by_uuid playerUuid db with
  | [] => None
  | row :: _ => Some (playerRowToApi row)
  end.

(** [findOnlinePlayers()] *)
Definition findOnlinePlayers (db : table) : list Player :=
  playerRowToApi <$> select_online db.


(** [save(dto)] *)
Definition save (dto : Player) (now : string) (db : table) : M (unit * table) :=
  let row := playerApiToRow dto in
  match execute_save (save_parameters row) db with
  | Throw e => throw e
  | Normal db' =>
    notifyPlayerUpdate (text_of (prop row "uuid")) now ;;
    mret (tt, db')
  end.

(** [updateOnlineStatus(uuid, isOnline)] *)
Definition updateOnlineStatus (playerUuid : string) (online : bool) (now : string)
    (db : table) : M (unit * table) :=
  let '(affectedRows, db') := update_is_online online playerUuid db in
  if bool_decide (affectedRows = 0%nat) then notFound ("Player not found: " +:+ playerUuid)
  else
    notifyPlayerUpdate playerUuid now ;;
    mret (tt, db').

End PlayerService.
End PlayerService.

(** ** The HTTP middleware *)

Inductive http_answer :=
| Next                                  (* the request goes on to its route *)
| Unauthorized (error : string).        (* 401 *)

(** [authMiddleware]: [header] is the request's X-API-Key. *)
Definition authMiddleware `{!Platform} (header : option string) : http_answer :=
  let apiKey := header in
  if negb (truthy (Some API_KEY)) then Next
  else if negb (truthy apiKey) then Unauthorized "Unauthorized: Missing API key"
  else if bool_decide (apiKey ≠ Some API_KEY) then Unauthorized "Unauthorized: Invalid API key"
  else Next.

(** ** A platform to run the examples on *)

Definition quote : string := String (Ascii.ascii_of_nat 34) EmptyString.

Definition join_with (sep : string) (parts : list string) : string :=
  match parts with
  | [] => EmptyString
  | p :: ps => foldl (λ acc q, acc +:+ sep +:+ q) p ps
  end.

(** Prints a value the way [JSON.stringify] does when no string in it needs
    an escape. *)
Fixpoint print_json (j : json) : string :=
  match j with
  | JNull => "null"
  | JBool true => "true"
  | JBool false => "false"
  | JNumber n => pretty n
  | JString s => quote +:+ s +:+ quote
  | JArray items => "[" +:+ join_with "," (map print_json items) +:+ "]"
  | JObject fields =>
    "{" +:+ join_with ","
              (map (λ kv, quote +:+ fst kv +:+ quote +:+ ":" +:+ print_json (snd kv)) fields)
        +:+ "}"
  end.

(** Reads the few texts the examples send, as [JSON.parse] reads them; every
    other text the examples use is malformed. *)
Definition read_json (data : string) : option json :=
  if bool_decide (data = "null") then Some JNull
  else if bool_decide (data = "true") then Some (JBool true)
  else if bool_decide (data = "false") then Some (JBool false)
  else if bool_decide (data = "{}") then Some (JObject [])
  else if bool_decide (data = "[]") then Some (JArray [])
  else None.

(** The example platform, with and without an API key in the environment. *)
Definition example_platform (key : option string) : Platform :=
  {| JSON_parse := read_json; JSON_stringify := print_json; process_env_API_KEY := key |}.

(** * Properties *)

(** ** Traces and the set *)

Lemma add_trace_nil w : add_trace [] w = w.
Proof. destruct w; unfold add_trace; simpl. by rewrite app_nil_r. Qed.

Lemma add_trace_app es1 es2 w :
  add_trace es2 (add_trace es1 w) = add_trace (es1 ++ es2) w.
Proof. unfold add_trace; simpl. by rewrite app_assoc. Qed.

(** The frames a run of effects wrote to one socket, in order. *)
Definition frames_to (c : conn) (es : list effect) : list string :=
  omap (λ e, match e with
             | Sent c' data => if decide (c' = c) then Some data else None
             | _ => None
             end) es.

Lemma frames_to_sent_notin c data (l : list conn) :
  c ∉ l → frames_to c ((λ c', Sent c' data) <$> l) = [].
Proof.
  induction l as [|x l IH]; intros Hc; [done|].
  apply not_elem_of_cons in Hc as [Hne Hc].
  unfold frames_to in *. simpl. rewrite decide_False by done. by apply IH.
Qed.

Lemma frames_to_sent_in c data (l : list conn) :
  NoDup l → c ∈ l → frames_to c ((λ c', Sent c' data) <$> l) = [data].
Proof.
  induction 1 as [|x l Hx Hl IH]; intros Hc; [by apply elem_of_nil in Hc|].
  unfold frames_to in *. simpl. destruct (decide (x = c)) as [->|Hne].
  - f_equal. by apply (frames_to_sent_notin c data l).
  - apply elem_of_cons in Hc as [?|Hc]; [congruence|]. by apply IH.
Qed.

Lemma Set_delete_notin c (l : list conn) : c ∉ Set_delete c l.
Proof.
  induction l as [|x l IH]; simpl; [apply not_elem_of_nil|].
  case_decide; [done|]. apply not_elem_of_cons. split; [congruence|done].
Qed.

Lemma Set_delete_other c x (l : list conn) :
  x ≠ c → x ∈ Set_delete c l ↔ x ∈ l.
Proof.
  intros Hne. induction l as [|y l IH]; simpl; [done|].
  case_decide; subst; rewrite ?elem_of_cons, IH; naive_solver.
Qed.

Lemma Set_delete_absent c (l : list conn) : c ∉ l → Set_delete c l = l.
Proof.
  induction l as [|x l IH]; simpl; [done|]. intros Hc.
  apply not_elem_of_cons in Hc as [Hne Hc]. rewrite decide_False by done.
  by rewrite IH.
Qed.

Lemma Set_delete_subset c x (l : list conn) : x ∈ Set_delete c l → x ∈ l.
Proof.
  destruct (decide (x = c)) as [->|Hne].
  - intros H. by apply Set_delete_notin in H.
  - by rewrite Set_delete_other.
Qed.

Lemma Set_delete_NoDup c (l : list conn) : NoDup l → NoDup (Set_delete c l).
Proof.
  induction 1 as [|x l Hx Hl IH]; simpl; [constructor|].
  case_decide; [done|]. constructor; [|done].
  intros H'. by apply Set_delete_subset in H'.
Qed.

Lemma Set_add_elem c x (l : list conn) : x ∈ Set_add c l ↔ x = c ∨ x ∈ l.
Proof.
  unfold Set_add. case_decide.
  - naive_solver.
  - rewrite elem_of_app, list_elem_of_singleton. naive_solver.
Qed.

Lemma Set_add_NoDup c (l : list conn) : NoDup l → NoDup (Set_add c l).
Proof.
  intros Hl. unfold Set_add. case_decide; [done|].
  apply NoDup_app. split_and!; [done| |apply NoDup_singleton].
  intros x Hx Hx'. apply list_elem_of_singleton in Hx'. by subst.
Qed.

(** ** The send loops *)

(** The callback of the four loops: write [data] to the client when it is
    selected and open. *)
Definition send_if (sel : conn → AuthenticatedWebSocket → bool) (data : string)
    (client : conn) : M unit :=
  s ← get client;
  if sel client s && is_open s then ws_send client data else mret tt.

Definition chosen (sel : conn → AuthenticatedWebSocket → bool) (w : world) (c : conn) : Prop :=
  sel c (socket w c) && is_open (socket w c).

(** Runs the straight-line part of a statement. *)
Ltac run_m :=
  repeat (progress (unfold mbind, M_bind, mret, M_ret, get, emit, console, throw,
                    update, clients_add, clients_delete; simpl)).

Lemma send_if_run sel data c w :
  send_if sel data c w =
  (Normal tt, if sel c (socket w c) && is_open (socket w c)
              then add_trace [Sent c data] w else w).
Proof.
  unfold send_if. run_m.
  destruct (sel c (socket w c) && is_open (socket w c)) eqn:Hsel; [|done].
  apply andb_true_iff in Hsel as [_ Ho]. apply bool_decide_eq_true in Ho.
  unfold ws_send. run_m. by rewrite Ho.
Qed.

Lemma forEach_send_if sel data l w :
  forEach (send_if sel data) l w =
  (Normal tt, add_trace ((λ c, Sent c data) <$> filter (chosen sel w) l) w).
Proof.
  revert w. induction l as [|c l IH]; intros w.
  - simpl. run_m. by rewrite add_trace_nil.
  - simpl. unfold mbind, M_bind. rewrite send_if_run.
    destruct (sel c (socket w c) && is_open (socket w c)) eqn:Hsel.
    + rewrite IH, add_trace_app.
      rewrite filter_cons_True by (unfold chosen; rewrite Hsel; done).
      done.
    + rewrite IH.
      rewrite filter_cons_False by (unfold chosen; rewrite Hsel; simpl; tauto).
      done.
Qed.

Lemma send_loop_frames sel data w c :
  NoDup (clients w) →
  let es := (λ c', Sent c' data) <$> filter (chosen sel w) (clients w) in
  (c ∈ clients w ∧ chosen sel w c → frames_to c es = [data]) ∧
  (¬ (c ∈ clients w ∧ chosen sel w c) → frames_to c es = []).
Proof.
  intros Hnd es. split.
  - intros [Hc Hsel]. apply frames_to_sent_in.
    + by apply NoDup_filter.
    + by apply list_elem_of_filter.
  - intros Hno. apply frames_to_sent_notin.
    rewrite list_elem_of_filter. tauto.
Qed.

Lemma chosen_spec sel w c :
  chosen sel w c ↔ sel c (socket w c) = true ∧ readyState (socket w c) = OPEN.
Proof.
  unfold chosen, is_open. rewrite andb_True, Is_true_true, bool_decide_spec. done.
Qed.

Section RouterProperties.
Context `{!Platform}.

Lemma broadcast_run message excludeClient w :
  broadcast message excludeClient w =
  (Normal tt,
   add_trace ((λ c, Sent c (JSON_stringify message))
                <$> filter (chosen (λ c _, bool_decide (Some c ≠ excludeClient)) w)
                      (clients w)) w).
Proof.
  exact (forEach_send_if (λ c _, bool_decide (Some c ≠ excludeClient)) _ (clients w) w).
Qed.

Lemma sendToType_run type message w :
  sendToType type message w =
  (Normal tt,
   add_trace ((λ c, Sent c (JSON_stringify message))
                <$> filter (chosen (λ _ s, bool_decide (serverType s = Some type)) w)
                      (clients w)) w).
Proof.
  exact (forEach_send_if (λ _ s, bool_decide (serverType s = Some type)) _ (clients w) w).
Qed.

Lemma sendToServers_run message w : sendToServers message w = sendToType server message w.
Proof. reflexivity. Qed.

Lemma sendToProxy_run message w : sendToProxy message w = sendToType proxy message w.
Proof. reflexivity. Qed.

(** What each client gets from [sendToType]. *)
Lemma sendToType_frames type message w :
  NoDup (clients w) →
  ∃ es, sendToType type message w = (Normal tt, add_trace es w) ∧
    ∀ c : conn,
      ((c ∈ clients w ∧ readyState (socket w c) = OPEN)
         ∧ serverType (socket w c) = Some type →
       frames_to c es = [JSON_stringify message]) ∧
      (¬ ((c ∈ clients w ∧ readyState (socket w c) = OPEN)
            ∧ serverType (socket w c) = Some type) →
       frames_to c es = []).
Proof.
  intros Hnd. eexists. split; [apply sendToType_run|]. intros c.
  pose proof (send_loop_frames (λ _ s, bool_decide (serverType s = Some type))
                (JSON_stringify message) w c Hnd) as [Hin Hout].
  rewrite chosen_spec, bool_decide_eq_true in Hin, Hout.
  split; intros Hc; [apply Hin|apply Hout]; tauto.
Qed.

(** What each client gets from [broadcast]. *)
Lemma broadcast_frames message excludeClient w :
  NoDup (clients w) →
  ∃ es, broadcast message excludeClient w = (Normal tt, add_trace es w) ∧
    ∀ c : conn,
      ((c ∈ clients w ∧ readyState (socket w c) = OPEN) ∧ Some c ≠ excludeClient →
       frames_to c es = [JSON_stringify message]) ∧
      (¬ ((c ∈ clients w ∧ readyState (socket w c) = OPEN) ∧ Some c ≠ excludeClient) →
       frames_to c es = []).
Proof.
  intros Hnd. eexists. split; [apply broadcast_run|]. intros c.
  pose proof (send_loop_frames (λ c _, bool_decide (Some c ≠ excludeClient))
                (JSON_stringify message) w c Hnd) as [Hin Hout].
  rewrite chosen_spec, bool_decide_eq_true in Hin, Hout.
  split; intros Hc; [apply Hin|apply Hout]; tauto.
Qed.

(** The open members an event is routed to. *)
Definition addressed (e : DomainEvent) (w : world) (c : conn) : Prop :=
  (c ∈ clients w ∧ readyState (socket w c) = OPEN)
  ∧ match e with
    | GrantChanged _ | PlayerUpdated _ | PrivateMessage _ _ _ =>
      serverType (socket w c) = Some server
    | RankChanged _ => True
    | PunishmentExecute _ _ _ => serverType (socket w c) = Some proxy
    end.

Lemma Dispatch_addressed e now w :
  NoDup (clients w) →
  ∃ es, Dispatch e now w = (Normal tt, add_trace es w) ∧
    ∀ c : conn,
      (addressed e w c → frames_to c es = [JSON_stringify (encode e now)]) ∧
      (¬ addressed e w c → frames_to c es = []).
Proof.
  intros Hnd. unfold addressed.
  destruct e as [u|r|u|u t r|t s m]; simpl.
  - apply (sendToType_frames server (GRANT_CHANGE u now) w Hnd).
  - destruct (broadcast_frames (RANK_CHANGE r now) None w Hnd) as (es & Hrun & Hes).
    exists es. split; [exact Hrun|]. intros c. destruct (Hes c) as [Hin Hout].
    split; intros Hc; [apply Hin|apply Hout]; naive_solver.
  - apply (sendToType_frames server (PLAYER_UPDATE u now) w Hnd).
  - apply (sendToType_frames proxy (PUNISH_EXECUTE u t r now) w Hnd).
  - apply (sendToType_frames server (PRIVATE_MESSAGE t s m now) w Hnd).
Qed.

(** C1.  Role routing: dispatching an event writes its encoded frame exactly
    once to every open member of the addressed role, and to no other socket.
    GRANT_CHANGE, PLAYER_UPDATE and PRIVATE_MESSAGE address the open
    'server' members, RANK_CHANGE every open member, PUNISH_EXECUTE the open
    'proxy' members; the call completes normally and changes nothing else. *)
Theorem dispatch_routing (w : world) (e : DomainEvent) (now : string) :
  NoDup (clients w) →
  ∃ es, Dispatch e now w = (Normal tt, add_trace es w) ∧
    ∀ c : conn,
      let open_member := c ∈ clients w ∧ readyState (socket w c) = OPEN in
      let addressed :=
        match e with
        | GrantChanged _ | PlayerUpdated _ | PrivateMessage _ _ _ =>
          open_member ∧ serverType (socket w c) = Some server
        | RankChanged _ => open_member
        | PunishmentExecute _ _ _ =>
          open_member ∧ serverType (socket w c) = Some proxy
        end in
      (addressed → frames_to c es = [JSON_stringify (encode e now)]) ∧
      (¬ addressed → frames_to c es = []).
Proof.
  intros Hnd. destruct (Dispatch_addressed e now w Hnd) as (es & Hrun & Hes).
  exists es. split; [exact Hrun|]. intros c. specialize (Hes c).
  unfold addressed in Hes. destruct e; simpl; split; intros Hc; apply Hes; tauto.
Qed.

End RouterProperties.

(** ** The inbound dispatcher *)

Section InboundProperties.
Context `{!Platform}.

Lemma prop_type_not_null message w :
  message ≠ JNull → ∃ type, prop_type message w = (Normal type, w).
Proof. destruct message; intros Hm; try done; simpl; run_m; eauto. Qed.

(** A frame that parses to a value other than null is logged and broadcast
    with its sender left out. *)
Lemma handleMessage_relay client data message w :
  JSON_parse data = Some message → message ≠ JNull →
  ∃ type es,
    broadcast message (Some client) w = (Normal tt, add_trace es w) ∧
    handleMessage client data w =
    (Normal tt, add_trace (Logged Info (Received type client) :: es) w).
Proof.
  intros Hparse Hm.
  destruct (prop_type_not_null message w Hm) as [type Htype].
  exists type. eexists. split; [apply broadcast_run|].
  unfold handleMessage, try_catch. rewrite Hparse. simpl.
  unfold mbind, M_bind at 1. unfold mret, M_ret at 1.
  unfold mbind, M_bind at 1. rewrite Htype.
  unfold mbind, M_bind at 1. unfold console, emit.
  rewrite broadcast_run. simpl. rewrite add_trace_app. done.
Qed.

(** The frame [null] parses, and is then dropped by the handler's catch: the
    read of [message.type] throws. *)
Lemma handleMessage_null client data w :
  JSON_parse data = Some JNull →
  handleMessage client data w =
  (Normal tt, add_trace [Logged Error (ParseFailed TypeError)] w).
Proof. intros Hparse. unfold handleMessage, try_catch. rewrite Hparse. done. Qed.

Lemma handleMessage_malformed client data w :
  JSON_parse data = None →
  handleMessage client data w =
  (Normal tt, add_trace [Logged Error (ParseFailed SyntaxError)] w).
Proof. intros Hparse. unfold handleMessage, try_catch. rewrite Hparse. done. Qed.

(** C8.  A frame that does not parse is dropped: the handler completes
    normally, writes the one console line of its catch, sends nothing to
    any socket, and leaves the set of clients and every socket (the sender's
    included) as they were. *)
Theorem malformed_frame_dropped (w : world) (client : conn) (data : string) :
  JSON_parse data = None →
  handleMessage client data w =
  (Normal tt, add_trace [Logged Error (ParseFailed SyntaxError)] w).
Proof. apply handleMessage_malformed. Qed.


End InboundProperties.

(** ** Removal from the set *)

(** C9.  Removal is idempotent: deleting a client a second time leaves the
    state the first deletion left, deleting a client that is not in the set
    leaves the state as it is, and the close and error listeners, run one
    after the other in either order, leave the set that one of them leaves;
    none of them throws. *)
Theorem remove_idempotent (w : world) (c : conn) :
  clients_delete c (exec (clients_delete c) w) = (Normal tt, exec (clients_delete c) w)
  ∧ (c ∉ clients w → clients_delete c w = (Normal tt, w))
  ∧ outcome (WsServer.on_error c ;; WsServer.on_close c) w = Normal tt
  ∧ outcome (WsServer.on_close c ;; WsServer.on_error c) w = Normal tt
  ∧ clients (exec (WsServer.on_error c ;; WsServer.on_close c) w)
    = clients (exec (WsServer.on_close c) w)
  ∧ clients (exec (WsServer.on_close c ;; WsServer.on_error c) w)
    = clients (exec (WsServer.on_close c) w)
  ∧ clients (exec (WsServer.on_close c) w) = Set_delete c (clients w).
Proof.
  assert (Hidem : Set_delete c (Set_delete c (clients w)) = Set_delete c (clients w)).
  { apply Set_delete_absent, Set_delete_notin. }
  split_and!.
  - unfold exec, clients_delete, set_clients. simpl. by rewrite Hidem.
  - intros Hc. unfold clients_delete, set_clients. rewrite Set_delete_absent by done.
    by destruct w.
  - done.
  - done.
  - unfold exec, WsServer.on_error, WsServer.on_close. run_m. exact Hidem.
  - unfold exec, WsServer.on_error, WsServer.on_close. run_m. exact Hidem.
  - done.
Qed.

(** ** Executing a punishment *)

Section ExecuteProperties.
Context `{!Platform}.
Import PunishmentService.

Lemma select_update_executed i j (db : table) :
  select_by_id i (update_executed j db) =
  if decide (i = j) then set_executed <$> select_by_id i db else select_by_id i db.
Proof.
  unfold select_by_id, update_executed.
  induction db as [|r db IH]; [by destruct (decide (i = j))|].
  rewrite fmap_cons.
  set (r' := if decide (row_id r = j) then set_executed r else r).
  assert (Hid : row_id r' = row_id r).
  { unfold r'. by destruct (decide (row_id r = j)). }
  destruct (decide (row_id r = i)) as [Hi|Hi].
  - rewrite (filter_cons_True _ r') by congruence.
    rewrite (filter_cons_True _ r) by done.
    unfold r'. revert IH.
    destruct (decide (i = j)), (decide (row_id r = j)); intros IH;
      try congruence; rewrite ?fmap_cons; f_equal; exact IH.
  - rewrite (filter_cons_False _ r') by congruence.
    rewrite (filter_cons_False _ r) by done. exact IH.
Qed.

Lemma findById_update_executed i (db : table) p :
  findById i db = Some p →
  executed <$> findById i (update_executed i db) = Some true.
Proof.
  unfold findById. rewrite select_update_executed, decide_True by done.
  destruct (select_by_id i db); [done|]. done.
Qed.

(** C10.  [execute] of a punishment that is not in the table throws
    not-found and writes nothing.  For one that is, it completes with
    success, [kicked] tells whether the type is BAN, TEMPBAN or KICK, in
    that case exactly the frames of [notifyPunishmentExecute] are written
    (one PUNISH_EXECUTE to every open 'proxy' member, none to anyone else)
    and otherwise nothing is written at all; in both cases the row is marked
    executed and the rows of other ids are left as they were. *)
Theorem execute_spec (punishmentId : Z) (now : string) (db : table) (w : world) :
  NoDup (clients w) →
  match findById punishmentId db with
  | None =>
    execute punishmentId now db w =
    (Throw (ApiError 404 ("Punishment with ID " +:+ pretty punishmentId +:+ " not found")), w)
  | Some p =>
    let kick := type p = "BAN" ∨ type p = "TEMPBAN" ∨ type p = "KICK" in
    let db' := update_executed punishmentId db in
    ∃ es k,
      execute punishmentId now db w =
      (Normal (mkResponse true "Punishment executed successfully" k, db'), add_trace es w)
      ∧ (k = true ↔ kick)
      ∧ (kick →
         Dispatch (PunishmentExecute (playerUuid p) (type p) (reason p)) now w
         = (Normal tt, add_trace es w)
         ∧ ∀ c : conn,
             ((c ∈ clients w ∧ readyState (socket w c) = OPEN)
                ∧ serverType (socket w c) = Some proxy →
              frames_to c es
              = [JSON_stringify (PUNISH_EXECUTE (playerUuid p) (type p) (reason p) now)])
             ∧ (¬ ((c ∈ clients w ∧ readyState (socket w c) = OPEN)
                     ∧ serverType (socket w c) = Some proxy) →
                frames_to c es = []))
      ∧ (¬ kick → es = [])
      ∧ executed <$> findById punishmentId db' = Some true
      ∧ ∀ i, i ≠ punishmentId → select_by_id i db' = select_by_id i db
  end.
Proof.
  intros Hnd. destruct (findById punishmentId db) as [p|] eqn:Hfind.
  - intros kick db'.
    assert (Hdb : executed <$> findById punishmentId db' = Some true
                  ∧ ∀ i, i ≠ punishmentId → select_by_id i db' = select_by_id i db).
    { split; [by eapply findById_update_executed|].
      intros i Hi. unfold db'. rewrite select_update_executed. by rewrite decide_False. }
    unfold execute. rewrite Hfind.
    destruct (bool_decide (type p = "BAN") || bool_decide (type p = "TEMPBAN")
              || bool_decide (type p = "KICK")) eqn:Hk.
    + assert (Hkick : kick).
      { unfold kick. rewrite !orb_true_iff, !bool_decide_eq_true in Hk. tauto. }
      destruct (sendToType_frames proxy
                  (PUNISH_EXECUTE (playerUuid p) (type p) (reason p) now) w Hnd)
        as (es & Hrun & Hes).
      exists es, true. split_and!; try tauto.
      unfold notifyPunishmentExecute, mbind, M_bind.
      rewrite sendToProxy_run, Hrun. done.
    + assert (Hkick : ¬ kick).
      { unfold kick. rewrite !orb_false_iff, !bool_decide_eq_false in Hk. tauto. }
      exists [], false. split_and!; try tauto; try done.
      rewrite add_trace_nil. done.
  - unfold execute. by rewrite Hfind.
Qed.

End ExecuteProperties.

(** ** The ws manager as a process *)

(** Runs straight-line code that reads sockets it has just written. *)
Ltac run_h :=
  repeat (progress (run_m;
                    unfold socket, accept, ws_send, ws_close, ws_ping, ws_terminate,
                      closing_add, set_heap, set_next, set_clients, set_closing,
                      add_trace; simpl;
                    rewrite ?lookup_total_insert_eq, ?insert_insert_eq; simpl)).

Section WsProperties.
Context `{!Platform}.
Import WsServer.

Lemma resolve_type_truthy typeParam t :
  resolve_type typeParam = Some t → truthy typeParam = true.
Proof.
  unfold resolve_type. repeat case_bool_decide; subst; simpl; try done.
Qed.

(** An admitted connection: the socket joins the set with its role and name,
    gets the CONNECTED frame, and is listened to. *)
Lemma connection_admits req w t :
  q_api_key req = Some API_KEY → resolve_type (q_type req) = Some t →
  let c := next w in
  let name := or_else (q_name req) "unknown" in
  handle (EvConnection req) w =
  (Normal tt,
   mkWorld (Set_add c (clients w))
     (<[c := mkSocket true (Some t) (Some name) true OPEN true]> (heap w))
     (S c) (closing w)
     (trace w ++ [Logged Info (Connected c); Sent c (JSON_stringify (CONNECTED t name))])).
Proof.
  intros Hkey Htype c name. unfold handle, connection. cbv zeta.
  rewrite Htype, (resolve_type_truthy _ _ Htype), Hkey.
  rewrite bool_decide_eq_false_2 by (intros Hne; by apply Hne).
  run_h. by rewrite <- app_assoc.
Qed.

(** A rejected connection: the set is left as it was; the socket gets one
    ERROR frame and is closed with code 1008, and nothing listens to it. *)
Definition rejection (w : world) (line : log_line) (message reason : string) : world :=
  let c := next w in
  mkWorld (clients w)
    (<[c := mkSocket true None None false CLOSING false]> (heap w))
    (S c) (closing w)
    (trace w ++ [Logged Warn line; Sent c (JSON_stringify (ERROR message));
                 CloseFrame c 1008 reason]).

Lemma connection_rejects_key req w :
  q_api_key req ≠ Some API_KEY →
  handle (EvConnection req) w =
  (Normal tt, rejection w RejectedInvalidKey "Authentication failed" "Authentication failed").
Proof.
  intros Hkey. unfold handle, connection. cbv zeta.
  rewrite bool_decide_eq_true_2 by done.
  run_h. unfold rejection. by rewrite <- !app_assoc.
Qed.

Lemma connection_rejects_type req w :
  q_api_key req = Some API_KEY → resolve_type (q_type req) = None →
  handle (EvConnection req) w =
  (Normal tt,
   if truthy (q_type req)
   then rejection w RejectedInvalidType "Invalid type parameter. Use: bungee or paper"
          "Invalid type parameter"
   else rejection w RejectedMissingType "Missing type parameter" "Missing type parameter").
Proof.
  intros Hkey Htype. unfold handle, connection. cbv zeta.
  rewrite Htype, Hkey.
  rewrite bool_decide_eq_false_2 by (intros Hne; by apply Hne).
  destruct (truthy (q_type req)); run_h; unfold rejection; by rewrite <- !app_assoc.
Qed.

(** Every connection attempt is either admitted or rejected. *)
Lemma connection_cases req w :
  (∃ t, q_api_key req = Some API_KEY ∧ resolve_type (q_type req) = Some t
        ∧ handle (EvConnection req) w =
          (Normal tt,
           mkWorld (Set_add (next w) (clients w))
             (<[next w := mkSocket true (Some t)
                            (Some (or_else (q_name req) "unknown")) true OPEN true]> (heap w))
             (S (next w)) (closing w)
             (trace w ++ [Logged Info (Connected (next w));
                          Sent (next w)
                            (JSON_stringify
                               (CONNECTED t (or_else (q_name req) "unknown")))])))
  ∨ ((q_api_key req ≠ Some API_KEY ∨ resolve_type (q_type req) = None)
     ∧ ∃ line message reason,
         handle (EvConnection req) w = (Normal tt, rejection w line message reason)).
Proof.
  destruct (decide (q_api_key req = Some API_KEY)) as [Hkey|Hkey].
  - destruct (resolve_type (q_type req)) as [t|] eqn:Htype.
    + left. exists t. split_and!; [done..|]. by apply connection_admits.
    + right. split; [by right|].
      rewrite connection_rejects_type by done. destruct (truthy (q_type req)); eauto.
  - right. split; [by left|]. rewrite connection_rejects_key by done. eauto.
Qed.

(** *** The keepalive timer *)

(** The callback of the keepalive loop. *)
Definition probe (client : conn) : M unit :=
  s ← get client;
  if bool_decide (isAlive s = false) then
    console Info (TerminatingInactive client) ;;
    ws_terminate client
  else
    update client (set_isAlive false) ;;
    ws_ping client.

Lemma keepalive_forEach w : keepalive w = forEach probe (clients w) w.
Proof. reflexivity. Qed.

(** What the callback makes of a socket that has not closed yet. *)
Definition probed (s : AuthenticatedWebSocket) : AuthenticatedWebSocket :=
  if bool_decide (isAlive s = false) then set_readyState CLOSING s
  else set_isAlive false s.

Definition probe_effects (c : conn) (s : AuthenticatedWebSocket) : list effect :=
  if bool_decide (isAlive s = false)
  then [Logged Info (TerminatingInactive c); Terminated c]
  else if is_open s then [Pinged c] else [].

Lemma probe_run c w :
  readyState (socket w c) ≠ CONNECTING → readyState (socket w c) ≠ CLOSED →
  probe c w =
  (Normal tt,
   mkWorld (clients w) (<[c := probed (socket w c)]> (heap w)) (next w)
     (if bool_decide (isAlive (socket w c) = false)
      then Set_add c (closing w) else closing w)
     (trace w ++ probe_effects c (socket w c))).
Proof.
  intros Hconn Hclosed. unfold probe, probed, probe_effects, is_open.
  run_m. unfold socket in *.
  destruct (heap w !!! c) as [alive ty name auth rs lst] eqn:Hs. simpl in *.
  destruct alive, rs; try done; run_h; rewrite ?Hs; simpl;
    rewrite ?insert_insert_eq, <- ?app_assoc, ?app_nil_r; simpl; rewrite ?Hs; done.
Qed.
Lemma Terminated_probe_effects c c' s :
  Terminated c ∈ probe_effects c' s ↔ c = c' ∧ isAlive s = false.
Proof.
  unfold probe_effects. case_bool_decide as Hs.
  - rewrite !elem_of_cons, elem_of_nil. naive_solver.
  - destruct (is_open s); rewrite ?elem_of_cons, elem_of_nil; naive_solver.
Qed.

(** The keepalive loop over the clients [l]: every one of them is probed
    once, the ones that had not answered are destroyed and queued for their
    close event. *)
Lemma keepalive_loop l w :
  NoDup l →
  (∀ c, c ∈ l → readyState (socket w c) ≠ CONNECTING ∧ readyState (socket w c) ≠ CLOSED) →
  ∃ w' es,
    forEach probe l w = (Normal tt, w')
    ∧ clients w' = clients w ∧ next w' = next w
    ∧ (∀ c, socket w' c = if decide (c ∈ l) then probed (socket w c) else socket w c)
    ∧ (∀ c, c ∈ closing w' ↔ c ∈ closing w ∨ (c ∈ l ∧ isAlive (socket w c) = false))
    ∧ trace w' = trace w ++ es
    ∧ (∀ c, Terminated c ∈ es ↔ c ∈ l ∧ isAlive (socket w c) = false).
Proof.
  intros Hnd. revert w. induction Hnd as [|x l Hx Hnd IH]; intros w Hrs.
  - exists w, []. split_and!; try done.
    + intros c. rewrite elem_of_nil. naive_solver.
    + by rewrite app_nil_r.
    + intros c. rewrite !elem_of_nil. naive_solver.
  - destruct (Hrs x) as [Hconn Hclosed]; [by left|].
    set (w1 := mkWorld (clients w) (<[x := probed (socket w x)]> (heap w)) (next w)
                 (if bool_decide (isAlive (socket w x) = false)
                  then Set_add x (closing w) else closing w)
                 (trace w ++ probe_effects x (socket w x))).
    assert (Hsock : ∀ c, socket w1 c = if decide (c = x) then probed (socket w x)
                                      else socket w c).
    { intros c. unfold socket, w1. simpl. case_decide as Hc.
      - subst. apply lookup_total_insert_eq.
      - by apply lookup_total_insert_ne. }
    destruct (IH w1) as (w' & es & Hrun & Hcl & Hnx & Hso & Hclo & Htr & Hes).
    { intros c Hc. rewrite Hsock, decide_False by (intros ->; done).
      apply Hrs. by right. }
    exists w', (probe_effects x (socket w x) ++ es).
    split_and!.
    + simpl. unfold mbind, M_bind. rewrite probe_run by done. exact Hrun.
    + by rewrite Hcl.
    + by rewrite Hnx.
    + intros c. rewrite Hso, Hsock.
      destruct (decide (c = x)) as [->|Hne].
      * rewrite decide_False by done. rewrite decide_True by (by left). done.
      * destruct (decide (c ∈ l)) as [Hc|Hc].
        -- rewrite decide_True by (by right). done.
        -- rewrite decide_False; [done|]. rewrite elem_of_cons. naive_solver.
    + intros c. rewrite Hclo, Hsock. unfold w1 at 1. simpl.
      rewrite elem_of_cons. case_bool_decide as Hal.
      * rewrite Set_add_elem.
        destruct (decide (c = x)) as [->|Hne]; [naive_solver|].
        naive_solver.
      * destruct (decide (c = x)) as [->|Hne]; [naive_solver|].
        naive_solver.
    + rewrite Htr. unfold w1. simpl. by rewrite app_assoc.
    + intros c. rewrite elem_of_app, Hes, Terminated_probe_effects, Hsock, elem_of_cons.
      destruct (decide (c = x)) as [->|Hne]; naive_solver.
Qed.

Lemma emit_close_run c w :
  emit_close c w =
  (Normal tt,
   mkWorld (if listening (socket w c) then Set_delete c (clients w) else clients w)
     (<[c := set_readyState CLOSED (socket w c)]> (heap w)) (next w) (closing w)
     (trace w ++ if listening (socket w c) then [Logged Info (Disconnected c)] else [])).
Proof.
  unfold emit_close, on_close. run_h.
  destruct (listening (heap w !!! c)); run_h; by rewrite ?app_nil_r.
Qed.

(** The close events of the sockets in [l]: each is closed, and leaves the
    set if the manager listens to it. *)
Lemma drain_loop l w :
  ∃ w' es,
    forEach emit_close l w = (Normal tt, w')
    ∧ next w' = next w ∧ closing w' = closing w
    ∧ (∀ c, socket w' c = if decide (c ∈ l) then set_readyState CLOSED (socket w c)
                          else socket w c)
    ∧ (∀ c, c ∈ clients w' ↔ c ∈ clients w ∧ ¬ (c ∈ l ∧ listening (socket w c) = true))
    ∧ (NoDup (clients w) → NoDup (clients w'))
    ∧ trace w' = trace w ++ es
    ∧ (∀ c, Terminated c ∉ es).
Proof.
  revert w. induction l as [|x l IH]; intros w.
  - exists w, []. split_and!; try done.
    + intros c. rewrite elem_of_nil. naive_solver.
    + by rewrite app_nil_r.
    + intros c. apply not_elem_of_nil.
  - set (w1 := mkWorld (if listening (socket w x) then Set_delete x (clients w)
                        else clients w)
                 (<[x := set_readyState CLOSED (socket w x)]> (heap w)) (next w)
                 (closing w)
                 (trace w ++ if listening (socket w x)
                             then [Logged Info (Disconnected x)] else [])).
    assert (Hsock : ∀ c, socket w1 c = if decide (c = x)
                                      then set_readyState CLOSED (socket w x)
                                      else socket w c).
    { intros c. unfold socket, w1. simpl. case_decide as Hc.
      - subst. apply lookup_total_insert_eq.
      - by apply lookup_total_insert_ne. }
    assert (Hlist : ∀ c, listening (socket w1 c) = listening (socket w c)).
    { intros c. rewrite Hsock. by case_decide; subst. }
    destruct (IH w1) as (w' & es & Hrun & Hnx & Hclo & Hso & Hcl & Hnd & Htr & Hes).
    exists w', ((if listening (socket w x) then [Logged Info (Disconnected x)] else [])
                ++ es).
    split_and!.
    + simpl. unfold mbind, M_bind. rewrite emit_close_run. exact Hrun.
    + by rewrite Hnx.
    + by rewrite Hclo.
    + intros c. rewrite Hso, Hsock.
      destruct (decide (c = x)) as [->|Hne].
      * rewrite (decide_True (P := x ∈ x :: l)) by (by left). by case_decide.
      * destruct (decide (c ∈ l)) as [Hc|Hc].
        -- rewrite decide_True by (by right). done.
        -- rewrite decide_False; [done|]. rewrite elem_of_cons. naive_solver.
    + intros c. rewrite Hcl, Hlist, elem_of_cons. unfold w1. simpl.
      destruct (listening (socket w x)) eqn:Hl.
      * destruct (decide (c = x)) as [->|Hne].
        -- split; [intros [Hc _]; by apply Set_delete_notin in Hc|naive_solver].
        -- rewrite Set_delete_other by done. naive_solver.
      * destruct (decide (c = x)) as [->|Hne]; [|naive_solver].
        split; [|naive_solver]. intros [Hc Hn]. split; [done|].
        intros [_ Hl']. congruence.
    + intros Hw. apply Hnd. unfold w1. simpl.
      destruct (listening (socket w x)); [by apply Set_delete_NoDup|done].
    + rewrite Htr. unfold w1. simpl. by rewrite app_assoc.
    + intros c. rewrite elem_of_app. intros [Hc|Hc]; [|by apply Hes in Hc].
      destruct (listening (socket w x)).
      * apply list_elem_of_singleton in Hc. done.
      * by apply elem_of_nil in Hc.
Qed.

(** *** The registry invariant *)

(** A socket as the connection handler leaves an admitted one, for as long
    as its close event has not been emitted. *)
Definition admitted_socket (s : AuthenticatedWebSocket) : Prop :=
  listening s = true ∧ authenticated s = true
  ∧ (serverType s = Some proxy ∨ serverType s = Some server)
  ∧ readyState s ≠ CLOSED.

Record consistent (w : world) : Prop := {
  members_distinct : NoDup (clients w);
  never_connecting : ∀ c, readyState (socket w c) ≠ CONNECTING;
  members_admitted : ∀ c, c ∈ clients w → (c < next w)%nat ∧ admitted_socket (socket w c);
}.

(** The state between two turns of the event loop. *)
Definition quiet (w : world) : Prop := consistent w ∧ closing w = [].

Lemma quiet_init : quiet init.
Proof.
  split; [|done]. split.
  - constructor.
  - intros c. unfold socket. simpl. by rewrite lookup_total_empty.
  - intros c Hc. by apply elem_of_nil in Hc.
Qed.

Lemma socket_mk_insert cl (h : gmap conn AuthenticatedWebSocket) n clo tr c s x :
  socket (mkWorld cl (<[c := s]> h) n clo tr) x = if decide (x = c) then s else h !!! x.
Proof.
  unfold socket. simpl. case_decide; subst.
  - apply lookup_total_insert_eq.
  - by apply lookup_total_insert_ne.
Qed.

Lemma drain_quiet w : closing w = [] → drain w = (Normal tt, w).
Proof. intros Hc. unfold drain. rewrite Hc. simpl. destruct w; simpl in *; by subst. Qed.

(** A turn whose callback completes and queues no close event is the
    callback alone. *)
Lemma step_quiet ev w w' :
  handle ev w = (Normal tt, w') → closing w' = [] → step ev w = (Normal tt, w').
Proof.
  intros Hh Hc. unfold step, mbind, M_bind. rewrite Hh. by apply drain_quiet.
Qed.

(** What one turn of the event loop does to the set, to the liveness flags
    and to the trace; [es] is what the turn adds to the trace. *)
Record step_facts (ev : event) (w w' : world) (es : list effect) : Prop := {
  sf_trace : trace w' = trace w ++ es;
  sf_next : (next w ≤ next w')%nat;
  sf_joined : ∀ c, c ∈ clients w' →
    c ∈ clients w
    ∨ (c = next w ∧ ∃ req t, ev = EvConnection req ∧ q_api_key req = Some API_KEY
                             ∧ resolve_type (q_type req) = Some t);
  sf_left : ∀ c, c ∈ clients w →
    c ∈ clients w' ∨ ev = EvClose c ∨ ev = EvError c
    ∨ (ev = EvInterval ∧ isAlive (socket w c) = false);
  sf_alive : ∀ c, (c < next w)%nat →
    isAlive (socket w' c) = isAlive (socket w c)
    ∨ (ev = EvPong c ∧ isAlive (socket w' c) = true)
    ∨ (ev = EvInterval ∧ isAlive (socket w' c) = false);
  sf_pong : ∀ c, ev = EvPong c → listening (socket w c) = true →
    isAlive (socket w' c) = true;
  sf_tick : ev = EvInterval → ∀ c, c ∈ clients w →
    (isAlive (socket w c) = false → (c ∉ clients w') ∧ (Terminated c ∈ es))
    ∧ (c ∈ clients w' → isAlive (socket w' c) = false);
  sf_terminated : ∀ c, Terminated c ∈ es →
    ev = EvInterval ∧ c ∈ clients w ∧ isAlive (socket w c) = false;
}.

Definition turn_ok (ev : event) (w : world) : Prop :=
  ∃ w' es, step ev w = (Normal tt, w') ∧ quiet w' ∧ step_facts ev w w' es.

(** A turn that only writes to the trace. *)
Lemma turn_trace_only ev w es :
  quiet w → ev ≠ EvInterval → (∀ c, ev ≠ EvPong c) →
  handle ev w = (Normal tt, add_trace es w) → (∀ c, Terminated c ∉ es) →
  turn_ok ev w.
Proof.
  intros [Hw Hclo] Hev Hpong Hrun Hes. exists (add_trace es w), es.
  split; [by apply step_quiet|]. split.
  - split; [|done]. destruct Hw as [H1 H2 H3]. by split.
  - split; simpl; try done; try naive_solver.
Qed.

Lemma Terminated_not_sent c (data : string) (l : list conn) :
  Terminated c ∉ (λ c', Sent c' data) <$> l.
Proof. intros Hc. apply list_elem_of_fmap in Hc as (x & Hx & _). done. Qed.

Lemma Dispatch_sends e now w :
  ∃ es, Dispatch e now w = (Normal tt, add_trace es w) ∧ ∀ c, Terminated c ∉ es.
Proof.
  destruct e; simpl;
    unfold notifyGrantChange, notifyRankChange, notifyPlayerUpdate,
      notifyPunishmentExecute, sendPrivateMessage;
    rewrite ?sendToServers_run, ?sendToProxy_run, ?sendToType_run, ?broadcast_run;
    eexists; (split; [reflexivity|]); intros c; apply Terminated_not_sent.
Qed.

Lemma json_null_or message : message = JNull ∨ message ≠ JNull.
Proof. destruct message; (by left) || (by right). Qed.

Lemma handleMessage_trace client data w :
  ∃ es, handleMessage client data w = (Normal tt, add_trace es w)
        ∧ ∀ c, Terminated c ∉ es.
Proof.
  destruct (JSON_parse data) as [message|] eqn:Hparse.
  - destruct (json_null_or message) as [->|Hm].
    + eexists. split; [by apply handleMessage_null|].
      intros c Hc. apply list_elem_of_singleton in Hc. done.
    + destruct (handleMessage_relay client data message w Hparse Hm)
        as (type & es & Hb & Hrun).
      eexists. split; [exact Hrun|]. intros c Hc.
      apply elem_of_cons in Hc as [Hc|Hc]; [done|].
      rewrite broadcast_run in Hb. injection Hb as Hb. apply app_inv_head in Hb.
      subst es. by apply Terminated_not_sent in Hc.
  - eexists. split; [by apply handleMessage_malformed|].
    intros c Hc. apply list_elem_of_singleton in Hc. done.
Qed.

Lemma turn_notify e now w : quiet w → turn_ok (EvNotify e now) w.
Proof.
  intros Hw. destruct (Dispatch_sends e now w) as (es & Hrun & Hes).
  by apply (turn_trace_only _ w es).
Qed.

Lemma turn_message c data w : quiet w → turn_ok (EvMessage c data) w.
Proof.
  intros Hw. destruct (listening (socket w c)) eqn:Hl.
  - destruct (handleMessage_trace c data w) as (es & Hrun & Hes).
    apply (turn_trace_only _ w es); try done.
    unfold handle, on_message. run_m. by rewrite Hl.
  - apply (turn_trace_only _ w []); try done.
    + unfold handle. run_m. by rewrite Hl, add_trace_nil.
    + intros x. apply not_elem_of_nil.
Qed.

(** One socket is rewritten, and perhaps leaves the set. *)
Lemma consistent_update w c s' cl' clo' tr' :
  consistent w →
  cl' = clients w ∨ cl' = Set_delete c (clients w) →
  readyState s' ≠ CONNECTING →
  (c ∈ cl' → admitted_socket s') →
  consistent (mkWorld cl' (<[c := s']> (heap w)) (next w) clo' tr').
Proof.
  intros [Hnd Hconn Hmem] Hcl Hrs Hadm. split; simpl.
  - destruct Hcl as [->| ->]; [done|by apply Set_delete_NoDup].
  - intros x. rewrite socket_mk_insert. case_decide; [done|apply Hconn].
  - intros x Hx. rewrite socket_mk_insert.
    assert (Hx' : x ∈ clients w).
    { destruct Hcl as [->| ->]; [done|by apply Set_delete_subset in Hx]. }
    destruct (Hmem x Hx') as [Hlt Hs]. split; [done|].
    case_decide; subst; [by apply Hadm|done].
Qed.

Lemma turn_pong c w : quiet w → turn_ok (EvPong c) w.
Proof.
  intros [Hw Hclo]. destruct (listening (socket w c)) eqn:Hl.
  - exists (mkWorld (clients w) (<[c := set_isAlive true (socket w c)]> (heap w))
              (next w) (closing w) (trace w)), [].
    split_and!.
    + apply step_quiet; [|done]. unfold handle, on_pong. run_m. by rewrite Hl.
    + split; [|done]. apply consistent_update; try done; [by left| |].
      * apply Hw.
      * intros Hc. by apply Hw.
    + split; simpl; try done.
      * by rewrite app_nil_r.
      * by left.
      * by left.
      * intros x Hx. rewrite socket_mk_insert. case_decide; subst; simpl; [|by left].
        right. left. done.
      * intros x Hx _. injection Hx as ->. rewrite socket_mk_insert.
        by rewrite decide_True.
      * intros x Hx. by apply elem_of_nil in Hx.
  - exists w, []. split_and!.
    + apply step_quiet; [|done]. unfold handle. run_m. by rewrite Hl.
    + done.
    + split; try done.
      * by rewrite app_nil_r.
      * by left.
      * by left.
      * by left.
      * intros x Hx Hl'. injection Hx as ->. congruence.
      * intros x Hx. by apply elem_of_nil in Hx.
Qed.

Lemma turn_peer_closing c w : quiet w → turn_ok (EvPeerClosing c) w.
Proof.
  intros [Hw Hclo]. destruct (is_open (socket w c)) eqn:Ho.
  - exists (mkWorld (clients w) (<[c := set_readyState CLOSING (socket w c)]> (heap w))
              (next w) (closing w) (trace w)), [].
    split_and!.
    + apply step_quiet; [|done]. unfold handle, peer_closing. run_m. by rewrite Ho.
    + split; [|done]. apply consistent_update; try done; [by left|].
      intros Hc. destruct (members_admitted w Hw c Hc) as [_ (? & ? & ? & ?)].
      by split_and!.
    + split; simpl; try done.
      * by rewrite app_nil_r.
      * by left.
      * by left.
      * intros x Hx. rewrite socket_mk_insert. left. by case_decide; subst.
      * intros x Hx. by apply elem_of_nil in Hx.
  - exists w, []. split_and!.
    + apply step_quiet; [|done]. unfold handle, peer_closing. run_m. by rewrite Ho.
    + done.
    + split; try done.
      * by rewrite app_nil_r.
      * by left.
      * by left.
      * by left.
      * intros x Hx. by apply elem_of_nil in Hx.
Qed.

Lemma turn_error c w : quiet w → turn_ok (EvError c) w.
Proof.
  intros [Hw Hclo]. destruct (listening (socket w c)) eqn:Hl.
  - exists (mkWorld (Set_delete c (clients w)) (heap w) (next w) (closing w)
              (trace w ++ [Logged Error (SocketError c)])),
           [Logged Error (SocketError c)].
    split_and!.
    + apply step_quiet; [|done]. unfold handle, on_error. run_h.
      fold (socket w c). by rewrite Hl.
    + split; [|done]. destruct Hw as [Hnd Hconn Hmem]. split; simpl.
      * by apply Set_delete_NoDup.
      * done.
      * intros x Hx. apply Set_delete_subset in Hx. by apply Hmem.
    + split; simpl; try done.
      * intros x Hx. left. by apply Set_delete_subset in Hx.
      * intros x Hx. destruct (decide (x = c)) as [->|Hne]; [naive_solver|].
        left. by apply Set_delete_other.
      * by left.
      * intros x Hx. apply list_elem_of_singleton in Hx. done.
  - exists w, []. split_and!.
    + apply step_quiet; [|done]. unfold handle. run_m. by rewrite Hl.
    + done.
    + split; try done.
      * by rewrite app_nil_r.
      * by left.
      * by left.
      * by left.
      * intros x Hx. by apply elem_of_nil in Hx.
Qed.

Lemma turn_close c w : quiet w → turn_ok (EvClose c) w.
Proof.
  intros [Hw Hclo].
  eexists _, (if listening (socket w c) then [Logged Info (Disconnected c)] else []).
  split_and!.
  - apply step_quiet; [apply emit_close_run|done].
  - split; [|done]. apply consistent_update; try done.
    + destruct (listening (socket w c)); [by right|by left].
    + intros Hc. exfalso. destruct (listening (socket w c)) eqn:Hl.
      * by apply Set_delete_notin in Hc.
      * destruct (members_admitted w Hw c Hc) as [_ (? & _)]. congruence.
  - split; simpl; try done.
    + intros x Hx. left.
      destruct (listening (socket w c)); [by apply Set_delete_subset in Hx|done].
    + intros x Hx. destruct (decide (x = c)) as [->|Hne]; [naive_solver|].
      left. destruct (listening (socket w c)); [by apply Set_delete_other|done].
    + intros x Hx. rewrite socket_mk_insert. left. by case_decide; subst.
    + intros x Hx. destruct (listening (socket w c)).
      * apply list_elem_of_singleton in Hx. done.
      * by apply elem_of_nil in Hx.
Qed.

Lemma turn_connection req w : quiet w → turn_ok (EvConnection req) w.
Proof.
  intros [Hw Hclo]. pose proof Hw as [Hnd Hconn Hmem].
  assert (Hfresh : next w ∉ clients w).
  { intros Hc. destruct (Hmem _ Hc) as [Hlt _]. lia. }
  destruct (connection_cases req w)
    as [(t & Hkey & Htype & Hrun)|(Hbad & line & message & reason & Hrun)].
  - eexists _, _. split_and!.
    + apply step_quiet; [exact Hrun|done].
    + split; [|done]. split; simpl.
      * by apply Set_add_NoDup.
      * intros x. rewrite socket_mk_insert. case_decide; [done|apply Hconn].
      * intros x Hx. rewrite socket_mk_insert. apply Set_add_elem in Hx as [->|Hx].
        -- rewrite decide_True by done. split; [lia|].
           split_and!; try done. destruct t; [by left|by right].
        -- destruct (Hmem x Hx) as [Hlt Hs]. split; [lia|].
           rewrite decide_False; [done|]. intros ->. done.
    + split; simpl; try done.
      * lia.
      * intros x Hx. apply Set_add_elem in Hx as [->|Hx]; [|by left].
        right. split; [done|]. by exists req, t.
      * intros x Hx. left. apply Set_add_elem. by right.
      * intros x Hx. left. rewrite socket_mk_insert.
        rewrite decide_False; [done|]. intros ->. lia.
      * intros x Hx. rewrite !elem_of_cons, elem_of_nil in Hx. naive_solver.
  - eexists _, _. split_and!.
    + apply step_quiet; [exact Hrun|done].
    + split; [|done]. unfold rejection. split; simpl.
      * done.
      * intros x. rewrite socket_mk_insert. case_decide; [done|apply Hconn].
      * intros x Hx. rewrite socket_mk_insert. destruct (Hmem x Hx) as [Hlt Hs].
        split; [lia|]. rewrite decide_False; [done|]. intros ->. done.
    + unfold rejection. split; simpl; try done.
      * lia.
      * by left.
      * by left.
      * intros x Hx. left. rewrite socket_mk_insert.
        rewrite decide_False; [done|]. intros ->. lia.
      * intros x Hx. rewrite !elem_of_cons, elem_of_nil in Hx. naive_solver.
Qed.

Lemma probed_fields s :
  isAlive (probed s) = false ∧ listening (probed s) = listening s
  ∧ authenticated (probed s) = authenticated s ∧ serverType (probed s) = serverType s
  ∧ (isAlive s = true → readyState (probed s) = readyState s)
  ∧ (isAlive s = false → readyState (probed s) = CLOSING).
Proof.
  unfold probed. case_bool_decide as Hs; simpl; split_and!; try done; try congruence.
Qed.

Lemma turn_interval w : quiet w → turn_ok EvInterval w.
Proof.
  intros [Hw Hclo]. pose proof Hw as [Hnd Hconn Hmem].
  destruct (keepalive_loop (clients w) w Hnd)
    as (w1 & es1 & Hrun1 & Hcl1 & Hnx1 & Hso1 & Hclo1 & Htr1 & Hes1).
  { intros c Hc. split; [apply Hconn|]. by destruct (Hmem c Hc) as [_ (_ & _ & _ & ?)]. }
  destruct (drain_loop (closing w1) (set_closing [] w1))
    as (w2 & es2 & Hrun2 & Hnx2 & Hclo2 & Hso2 & Hcl2 & Hnd2 & Htr2 & Hes2).
  simpl in *.
  assert (Hq : ∀ x, x ∈ closing w1 ↔ x ∈ clients w ∧ isAlive (socket w x) = false).
  { intros x. rewrite Hclo1, Hclo, elem_of_nil. naive_solver. }
  assert (Hs1 : ∀ x, socket (set_closing [] w1) x = socket w1 x) by done.
  assert (Hstay : ∀ x, x ∈ clients w2 ↔ x ∈ clients w ∧ isAlive (socket w x) = true).
  { intros x. rewrite Hcl2, Hcl1, Hq, Hs1, Hso1. split.
    - intros [Hx Hno]. split; [done|]. rewrite decide_True in Hno by done.
      destruct (probed_fields (socket w x)) as (_ & Hl & _).
      destruct (Hmem x Hx) as [_ (Hl' & _)].
      destruct (isAlive (socket w x)); [done|]. exfalso. apply Hno.
      split; [done|]. congruence.
    - intros [Hx Hal]. split; [done|]. intros [[_ Hf] _]. congruence. }
  assert (Hsock : ∀ x, x ∈ clients w2 → socket w2 x = set_isAlive false (socket w x)).
  { intros x Hx. apply Hstay in Hx as [Hx Hal]. rewrite Hso2, Hs1, Hso1.
    rewrite decide_False by (rewrite Hq; intros [_ ?]; congruence).
    rewrite decide_True by done. unfold probed.
    rewrite bool_decide_eq_false_2 by congruence. done. }
  exists w2, (es1 ++ es2). split_and!.
  - unfold step, mbind, M_bind, handle. rewrite keepalive_forEach, Hrun1.
    unfold drain. exact Hrun2.
  - split; [|done]. split.
    + apply Hnd2. by rewrite Hcl1.
    + intros x. rewrite Hso2, Hs1, Hso1.
      destruct (probed_fields (socket w x)) as (_ & _ & _ & _ & Ht & Hf).
      pose proof (Hconn x).
      repeat case_decide; simpl; try done.
      destruct (isAlive (socket w x)); [rewrite Ht|rewrite Hf]; done.
    + intros x Hx. rewrite (Hsock x Hx). apply Hstay in Hx as [Hx _].
      destruct (Hmem x Hx) as [Hlt Hs]. split; [lia|]. done.
  - split.
    + rewrite Htr2. simpl. rewrite Htr1. by rewrite app_assoc.
    + lia.
    + intros x Hx. left. by apply Hstay in Hx as [? _].
    + intros x Hx. destruct (isAlive (socket w x)) eqn:Hal.
      * left. by apply Hstay.
      * right. right. right. done.
    + intros x Hx. rewrite Hso2, Hs1, Hso1.
      destruct (decide (x ∈ clients w)) as [Hin|Hout].
      * right. right. split; [done|].
        destruct (probed_fields (socket w x)) as (Hf & _). by repeat case_decide.
      * left. rewrite decide_False by (rewrite Hq; naive_solver).
        by rewrite decide_False.
    + done.
    + intros _ x Hx. split.
      * intros Hal. split.
        -- rewrite Hstay. intros [_ ?]. congruence.
        -- apply elem_of_app. left. by apply Hes1.
      * intros Hx'. by rewrite (Hsock x Hx').
    + intros x Hx. split; [done|]. apply elem_of_app in Hx as [Hx|Hx].
      * by apply Hes1.
      * by apply Hes2 in Hx.
Qed.

(** Every turn of the event loop completes and keeps the invariant. *)
Lemma turn_always_ok ev w : quiet w → turn_ok ev w.
Proof.
  destruct ev.
  - apply turn_connection.
  - apply turn_pong.
  - apply turn_message.
  - apply turn_close.
  - apply turn_error.
  - apply turn_peer_closing.
  - apply turn_interval.
  - apply turn_notify.
Qed.

(** *** Runs of the process *)

(** The state a run leaves. *)
Definition after (evs : list event) (w : world) : world := exec (run evs) w.

Lemma run_cons ev evs w w' :
  step ev w = (Normal tt, w') → run (ev :: evs) w = run evs w'.
Proof. intros Hs. simpl. unfold mbind, M_bind. by rewrite Hs. Qed.

(** No callback throws out of the event loop, and the invariant holds after
    every turn. *)
Lemma run_ok evs w : quiet w → ∃ w', run evs w = (Normal tt, w') ∧ quiet w'.
Proof.
  revert w. induction evs as [|ev evs IH]; intros w Hw; [by exists w|].
  destruct (turn_always_ok ev w Hw) as (w1 & es & Hs & Hq & _).
  rewrite (run_cons _ _ _ _ Hs). by apply IH.
Qed.

Lemma after_quiet evs w : quiet w → quiet (after evs w).
Proof.
  intros Hw. destruct (run_ok evs w Hw) as (w' & Hr & Hq).
  unfold after, exec. by rewrite Hr.
Qed.

Lemma after_cons ev evs w w' :
  step ev w = (Normal tt, w') → after (ev :: evs) w = after evs w'.
Proof. intros Hs. unfold after, exec. by rewrite (run_cons _ _ _ _ Hs). Qed.

Lemma after_app evs1 evs2 w :
  quiet w → after (evs1 ++ evs2) w = after evs2 (after evs1 w).
Proof.
  revert w. induction evs1 as [|ev evs1 IH]; intros w Hw; [done|].
  destruct (turn_always_ok ev w Hw) as (w1 & es & Hs & Hq & _).
  simpl. rewrite !(after_cons _ _ _ _ Hs). by apply IH.
Qed.

(** A reference that has been handed out and is not in the set never enters
    it: the handler only ever adds the socket it has just been given. *)
Lemma absent_forever evs w c :
  quiet w → (c < next w)%nat → c ∉ clients w → c ∉ clients (after evs w).
Proof.
  revert w. induction evs as [|ev evs IH]; intros w Hw Hlt Hc; [done|].
  destruct (turn_always_ok ev w Hw) as (w1 & es & Hs & Hq & Hf).
  rewrite (after_cons _ _ _ _ Hs). apply IH; [done| |].
  - pose proof (sf_next _ _ _ _ Hf). lia.
  - intros Hc1. destruct (sf_joined _ _ _ _ Hf c Hc1) as [?|[-> _]]; [done|lia].
Qed.

Lemma resolve_type_None typeParam :
  resolve_type typeParam = None ↔ typeParam ≠ Some "bungee" ∧ typeParam ≠ Some "paper".
Proof. unfold resolve_type. repeat case_bool_decide; naive_solver. Qed.

(** A rejected attempt, from any state the process can be in: the handler
    completes, the socket gets exactly one ERROR frame and is then closed
    with code 1008, it has no role, and it is in the set neither then nor
    after any further events. *)
Lemma rejected_attempt evs0 req evs :
  q_api_key req ≠ Some API_KEY ∨ resolve_type (q_type req) = None →
  let w := after evs0 init in
  let c := next w in
  let w1 := after [EvConnection req] w in
  (∃ line message reason,
     step (EvConnection req) w = (Normal tt, w1)
     ∧ trace w1 = trace w ++ [Logged Warn line;
                              Sent c (JSON_stringify (ERROR message));
                              CloseFrame c 1008 reason])
  ∧ serverType (socket w1 c) = None
  ∧ readyState (socket w1 c) = CLOSING
  ∧ clients w1 = clients w
  ∧ c ∉ clients (after (EvConnection req :: evs) w).
Proof.
  intros Hbad w c w1.
  assert (Hw : quiet w) by apply after_quiet, quiet_init.
  assert (Hfresh : c ∉ clients w).
  { intros Hc. destruct Hw as [[_ _ Hmem] _]. destruct (Hmem _ Hc). unfold c in *. lia. }
  destruct (connection_cases req w)
    as [(t & Hkey & Htype & _)|(_ & line & message & reason & Hrun)].
  { destruct Hbad; congruence. }
  assert (Hstep : step (EvConnection req) w
                  = (Normal tt, rejection w line message reason)).
  { apply step_quiet; [done|apply Hw]. }
  assert (Hw1 : w1 = rejection w line message reason).
  { unfold w1. by rewrite (after_cons _ _ _ _ Hstep). }
  rewrite Hw1. split_and!.
  - by exists line, message, reason.
  - unfold rejection. rewrite socket_mk_insert. by rewrite decide_True.
  - unfold rejection. rewrite socket_mk_insert. by rewrite decide_True.
  - done.
  - rewrite (after_cons _ _ _ _ Hstep). apply absent_forever.
    + destruct (turn_always_ok (EvConnection req) w Hw) as (w' & es & Hs & Hq & _).
      rewrite Hstep in Hs. by injection Hs as <-.
    + unfold rejection, c. simpl. lia.
    + done.
Qed.

(** Induction over a run, one turn at a time, for a property that the turns
    allowed by [allowed] keep. *)
Lemma after_ind (P : world → Prop) (allowed : event → Prop) evs w :
  (∀ ev w w' es, quiet w → allowed ev → P w →
     step ev w = (Normal tt, w') → step_facts ev w w' es → P w') →
  quiet w → Forall allowed evs → P w → P (after evs w).
Proof.
  intros Hkeep. revert w. induction evs as [|ev evs IH]; intros w Hw Hall HP; [done|].
  apply Forall_cons in Hall as [Hev Hall].
  destruct (turn_always_ok ev w Hw) as (w1 & es & Hs & Hq & Hf).
  rewrite (after_cons _ _ _ _ Hs). apply IH; [done..|].
  exact (Hkeep ev w w1 es Hw Hev HP Hs Hf).
Qed.

(** A client that has not answered stays marked, as long as no pong of its
    own arrives. *)
Definition unanswered (c : conn) (w : world) : Prop :=
  (c < next w)%nat ∧ (c ∈ clients w → isAlive (socket w c) = false).

Lemma unanswered_kept c evs w :
  quiet w → EvPong c ∉ evs → unanswered c w → unanswered c (after evs w).
Proof.
  intros Hw Hno. apply (after_ind (unanswered c) (λ ev, ev ≠ EvPong c)); try done.
  - intros ev w1 w2 es Hw1 Hev [Hlt Hun] Hs Hf. split.
    { pose proof (sf_next _ _ _ _ Hf). lia. }
    intros Hc. destruct (sf_joined _ _ _ _ Hf c Hc) as [Hc1|[-> _]]; [|lia].
    destruct (sf_alive _ _ _ _ Hf c Hlt) as [->|[[? _]|[_ ?]]]; [by apply Hun|done..].
  - apply Forall_forall. intros ev Hev ->. done.
Qed.

(** A client is in the set, or the keepalive timer has destroyed its socket,
    as long as no close or error event of its own arrives. *)
Lemma member_or_terminated c evs w :
  quiet w → EvClose c ∉ evs → EvError c ∉ evs →
  c ∈ clients w ∨ Terminated c ∈ trace w →
  c ∈ clients (after evs w) ∨ Terminated c ∈ trace (after evs w).
Proof.
  intros Hw Hclose Herror.
  apply (after_ind (λ w', c ∈ clients w' ∨ Terminated c ∈ trace w')
           (λ ev, ev ≠ EvClose c ∧ ev ≠ EvError c)); try done.
  - intros ev w1 w2 es Hw1 [Hev1 Hev2] [Hc|Ht] Hs Hf.
    + destruct (sf_left _ _ _ _ Hf c Hc) as [?|[?|[?|[Hev Hal]]]]; try done; [by left|].
      right. rewrite (sf_trace _ _ _ _ Hf). apply elem_of_app. right.
      by apply (sf_tick _ _ _ _ Hf Hev c Hc).
    + right. rewrite (sf_trace _ _ _ _ Hf). apply elem_of_app. by left.
  - apply Forall_forall. intros ev Hev. split; intros ->; done.
Qed.

(** Liveness eviction, ws manager: a member from which no pong arrives
    between two firings of the keepalive timer is out of the set after the
    second firing and stays out, whatever happens in between and afterwards;
    unless it had closed or failed on its own, the timer has destroyed its
    socket by then. *)
Theorem ws_silent_client_evicted (evs0 : list event) (c : conn) (evs1 evs2 : list event) :
  let w := after evs0 init in
  c ∈ clients w → EvPong c ∉ evs1 →
  (c ∉ clients (after (EvInterval :: evs1 ++ [EvInterval]) w))
  ∧ (c ∉ clients (after (EvInterval :: evs1 ++ EvInterval :: evs2) w))
  ∧ (EvClose c ∉ evs1 → EvError c ∉ evs1 →
     Terminated c ∈ trace (after (EvInterval :: evs1 ++ [EvInterval]) w)).
Proof.
  intros w Hc Hno.
  assert (Hw : quiet w) by apply after_quiet, quiet_init.
  assert (Hlt : (c < next w)%nat) by (destruct Hw as [[_ _ Hmem] _]; by apply Hmem).
  destruct (turn_always_ok EvInterval w Hw) as (w1 & es1 & Hs1 & Hq1 & Hf1).
  assert (Hun1 : unanswered c w1).
  { split; [pose proof (sf_next _ _ _ _ Hf1); lia|].
    by apply (sf_tick _ _ _ _ Hf1 eq_refl c Hc). }
  pose proof (unanswered_kept c evs1 w1 Hq1 Hno Hun1) as [Hlt2 Hun2].
  set (w2 := after evs1 w1) in *.
  assert (Hq2 : quiet w2) by by apply after_quiet.
  destruct (turn_always_ok EvInterval w2 Hq2) as (w3 & es3 & Hs3 & Hq3 & Hf3).
  assert (Hgone : c ∉ clients w3).
  { destruct (decide (c ∈ clients w2)) as [Hc2|Hc2].
    - by apply (sf_tick _ _ _ _ Hf3 eq_refl c Hc2), Hun2.
    - intros Hc3. destruct (sf_joined _ _ _ _ Hf3 c Hc3) as [?|[-> _]]; [done|lia]. }
  assert (Hlt3 : (c < next w3)%nat) by (pose proof (sf_next _ _ _ _ Hf3); lia).
  assert (Hafter : ∀ evs, after (EvInterval :: evs1 ++ EvInterval :: evs) w
                          = after evs w3).
  { intros evs. rewrite (after_cons _ _ _ _ Hs1), after_app by done.
    fold w2. by rewrite (after_cons _ _ _ _ Hs3). }
  rewrite !Hafter. split_and!.
  - done.
  - by apply absent_forever.
  - intros Hclose Herror.
    assert (H1 : c ∈ clients w1 ∨ Terminated c ∈ trace w1).
    { destruct (sf_left _ _ _ _ Hf1 c Hc) as [?|[?|[?|[_ Hal]]]]; try done; [by left|].
      right. rewrite (sf_trace _ _ _ _ Hf1). apply elem_of_app. right.
      by apply (sf_tick _ _ _ _ Hf1 eq_refl c Hc). }
    change (Terminated c ∈ trace w3).
    destruct (member_or_terminated c evs1 w1 Hq1 Hclose Herror H1) as [Hc2|Ht2];
      rewrite (sf_trace _ _ _ _ Hf3); apply elem_of_app.
    + right. by apply (sf_tick _ _ _ _ Hf3 eq_refl c Hc2), Hun2.
    + by left.
Qed.

(** A client that has answered stays so until the timer fires again. *)
Definition answered (c : conn) (w : world) : Prop :=
  (c < next w)%nat ∧ (c ∈ clients w → isAlive (socket w c) = true).

Lemma answered_kept c evs w :
  quiet w → EvInterval ∉ evs → answered c w → answered c (after evs w).
Proof.
  intros Hw Hno. apply (after_ind (answered c) (λ ev, ev ≠ EvInterval)); try done.
  - intros ev w1 w2 es Hw1 Hev [Hlt Han] Hs Hf. split.
    { pose proof (sf_next _ _ _ _ Hf). lia. }
    intros Hc. destruct (sf_joined _ _ _ _ Hf c Hc) as [Hc1|[-> _]]; [|lia].
    destruct (sf_alive _ _ _ _ Hf c Hlt) as [->|[[_ ?]|[? _]]]; [by apply Han|done..].
  - apply Forall_forall. intros ev Hev ->. done.
Qed.

Lemma pong_answers c evs w :
  quiet w → (c < next w)%nat → EvInterval ∉ evs → EvPong c ∈ evs →
  answered c (after evs w).
Proof.
  revert w. induction evs as [|ev evs IH]; intros w Hw Hlt Hno Hpong.
  { by apply elem_of_nil in Hpong. }
  apply not_elem_of_cons in Hno as [Hev Hno].
  destruct (turn_always_ok ev w Hw) as (w1 & es & Hs & Hq & Hf).
  rewrite (after_cons _ _ _ _ Hs).
  assert (Hlt1 : (c < next w1)%nat) by (pose proof (sf_next _ _ _ _ Hf); lia).
  apply elem_of_cons in Hpong as [<-|Hpong].
  - apply answered_kept; [done..|]. split; [done|]. intros Hc1.
    destruct (sf_joined _ _ _ _ Hf c Hc1) as [Hc|[-> _]]; [|lia].
    apply (sf_pong _ _ _ _ Hf c eq_refl).
    destruct Hw as [[_ _ Hmem] _]. by destruct (Hmem c Hc) as [_ [? _]].
  - by apply IH.
Qed.

Lemma quiet_between_intervals c evs w :
  quiet w → EvInterval ∉ evs →
  ∃ es, trace (after evs w) = trace w ++ es ∧ Terminated c ∉ es.
Proof.
  intros Hw Hno.
  apply (after_ind (λ w', ∃ es, trace w' = trace w ++ es ∧ Terminated c ∉ es)
           (λ ev, ev ≠ EvInterval)); try done.
  - intros ev w1 w2 es Hw1 Hev (es1 & Htr & Hes1) Hs Hf. exists (es1 ++ es).
    rewrite (sf_trace _ _ _ _ Hf), Htr, app_assoc. split; [done|].
    rewrite elem_of_app. intros [?|Ht]; [done|].
    by destruct (sf_terminated _ _ _ _ Hf c Ht).
  - apply Forall_forall. intros ev Hev ->. done.
  - exists []. rewrite app_nil_r. split; [done|apply not_elem_of_nil].
Qed.

Lemma member_kept c evs w :
  quiet w → EvInterval ∉ evs → EvClose c ∉ evs → EvError c ∉ evs →
  c ∈ clients w → c ∈ clients (after evs w).
Proof.
  intros Hw Hno Hclose Herror.
  apply (after_ind (λ w', c ∈ clients w')
           (λ ev, ev ≠ EvInterval ∧ ev ≠ EvClose c ∧ ev ≠ EvError c)); try done.
  - intros ev w1 w2 es Hw1 (? & ? & ?) Hc Hs Hf.
    destruct (sf_left _ _ _ _ Hf c Hc) as [?|[?|[?|[? _]]]]; done.
  - apply Forall_forall. intros ev Hev. split_and!; intros ->; done.
Qed.

(** The periods of the keepalive timer: each begins when the timer fires and
    holds the events until it fires again. *)
Fixpoint periods (rounds : list (list event)) : list event :=
  match rounds with
  | [] => []
  | round :: rounds' => EvInterval :: round ++ periods rounds'
  end.

Lemma responsive_rounds c rounds w :
  quiet w → answered c w →
  Forall (λ round, (EvInterval ∉ round) ∧ (EvPong c ∈ round)) rounds →
  (∃ es, trace (after (periods rounds) w) = trace w ++ es ∧ Terminated c ∉ es)
  ∧ (c ∈ clients w → Forall (λ round, (EvClose c ∉ round) ∧ (EvError c ∉ round)) rounds →
     c ∈ clients (after (periods rounds) w)).
Proof.
  revert w. induction rounds as [|round rounds IH]; intros w Hw [Hlt Han] Hall.
  { split; [|done]. exists []. rewrite app_nil_r. split; [done|apply not_elem_of_nil]. }
  apply Forall_cons in Hall as [[Hno Hpong] Hall].
  destruct (turn_always_ok EvInterval w Hw) as (w1 & es1 & Hs1 & Hq1 & Hf1).
  assert (Hlt1 : (c < next w1)%nat) by (pose proof (sf_next _ _ _ _ Hf1); lia).
  assert (Hes1 : Terminated c ∉ es1).
  { intros Ht. destruct (sf_terminated _ _ _ _ Hf1 c Ht) as (_ & Hc & Hal).
    rewrite (Han Hc) in Hal. done. }
  destruct (quiet_between_intervals c round w1 Hq1 Hno) as (es2 & Htr2 & Hes2).
  pose proof (pong_answers c round w1 Hq1 Hlt1 Hno Hpong) as Han2.
  set (w2 := after round w1) in *.
  assert (Hq2 : quiet w2) by by apply after_quiet.
  destruct (IH w2 Hq2 Han2 Hall) as [(es3 & Htr3 & Hes3) Hmem3].
  assert (Hafter : after (periods (round :: rounds)) w = after (periods rounds) w2).
  { simpl. rewrite (after_cons _ _ _ _ Hs1), after_app by done. done. }
  rewrite Hafter. split.
  - exists (es1 ++ es2 ++ es3).
    rewrite Htr3, Htr2, (sf_trace _ _ _ _ Hf1), <- !app_assoc. split; [done|].
    rewrite !elem_of_app. tauto.
  - intros Hc Hquiet. apply Forall_cons in Hquiet as [[Hclose Herror] Hquiet].
    apply Hmem3; [|done]. apply member_kept; try done.
    destruct (sf_left _ _ _ _ Hf1 c Hc) as [?|[?|[?|[_ Hal]]]]; try done.
    rewrite (Han Hc) in Hal. done.
Qed.

(** Liveness, ws manager: a member whose pong arrives in every period of the
    keepalive timer is never destroyed by the timer, over any number of
    periods, and stays in the set unless it closes or fails on its own. *)
Theorem ws_responsive_client_kept (evs0 : list event) (c : conn)
    (rounds : list (list event)) :
  let w := after evs0 init in
  c ∈ clients w → isAlive (socket w c) = true →
  Forall (λ round, (EvInterval ∉ round) ∧ (EvPong c ∈ round)) rounds →
  (∃ es, trace (after (periods rounds) w) = trace w ++ es ∧ Terminated c ∉ es)
  ∧ (Forall (λ round, (EvClose c ∉ round) ∧ (EvError c ∉ round)) rounds →
     c ∈ clients (after (periods rounds) w)).
Proof.
  intros w Hc Hal Hall.
  assert (Hw : quiet w) by apply after_quiet, quiet_init.
  assert (Han : answered c w).
  { split; [|done]. destruct Hw as [[_ _ Hmem] _]. by apply Hmem. }
  destruct (responsive_rounds c rounds w Hw Han Hall) as [Ht Hm].
  split; [done|]. by apply Hm.
Qed.

(** Handshake rejection, ws manager: an attempt whose type parameter is
    neither "bungee" nor "paper" (an absent one included) gets one ERROR
    frame and the close frame, is given no role, and is in no later
    snapshot of the set. *)
Theorem ws_rejects_unknown_role (evs0 : list event) (req : request) (evs : list event) :
  q_type req ≠ Some "bungee" → q_type req ≠ Some "paper" →
  let w := after evs0 init in
  let c := next w in
  let w1 := after [EvConnection req] w in
  (∃ line message reason,
     step (EvConnection req) w = (Normal tt, w1)
     ∧ trace w1 = trace w ++ [Logged Warn line;
                              Sent c (JSON_stringify (ERROR message));
                              CloseFrame c 1008 reason])
  ∧ serverType (socket w1 c) = None
  ∧ readyState (socket w1 c) = CLOSING
  ∧ clients w1 = clients w
  ∧ (c ∉ clients (after (EvConnection req :: evs) w)).
Proof.
  intros Hb Hp. apply rejected_attempt. right. by apply resolve_type_None.
Qed.

(** Registry invariant, ws manager: in every state the process reaches,
    every member is authenticated and has one of the two roles; and an
    attempt whose api_key is not the configured key is rejected and never
    becomes a member. *)
Theorem ws_registry_invariant (evs0 : list event) :
  let w := after evs0 init in
  (∀ c, c ∈ clients w →
        authenticated (socket w c) = true
        ∧ (serverType (socket w c) = Some proxy ∨ serverType (socket w c) = Some server))
  ∧ ∀ req evs,
      q_api_key req ≠ Some API_KEY →
      (next w ∉ clients (after (EvConnection req :: evs) w))
      ∧ ∃ line message reason,
          trace (after [EvConnection req] w)
          = trace w ++ [Logged Warn line;
                        Sent (next w) (JSON_stringify (ERROR message));
                        CloseFrame (next w) 1008 reason].
Proof.
  intros w. assert (Hw : quiet w) by apply after_quiet, quiet_init. split.
  - intros c Hc. destruct Hw as [[_ _ Hmem] _].
    destruct (Hmem c Hc) as [_ (_ & ? & ? & _)]. done.
  - intros req evs Hkey.
    destruct (rejected_attempt evs0 req evs (or_introl Hkey))
      as ((line & message & reason & _ & Htr) & _ & _ & _ & Hgone).
    split; [done|]. by exists line, message, reason.
Qed.


(** *** A write that fails *)


End WsProperties.

(** ** The manager written for Bun's sockets *)

Section BunProperties.
Context `{!Platform}.

(** [handleConnection] admits every socket it is given: it reads no api_key,
    and a type parameter other than "bungee" makes a 'server'. *)
Lemma bun_admits_every_request req w :
  let c := next w in
  let t := if bool_decide (q_type req = Some "bungee") then proxy else server in
  let name := or_else (q_name req) "unknown" in
  (client ← accept; BunServer.handleConnection client req) w =
  (Normal tt,
   mkWorld (Set_add c (clients w))
     (<[c := mkSocket true (Some t) (Some name) true OPEN true]> (heap w))
     (S c) (closing w)
     (trace w ++ [Logged Info (Connected c); Sent c (JSON_stringify (CONNECTED t name))])).
Proof.
  intros c t name. unfold BunServer.handleConnection. cbv zeta.
  run_h. by rewrite <- app_assoc.
Qed.

Lemma bun_pingInterval_run c w :
  readyState (socket w c) ≠ CONNECTING →
  BunServer.pingInterval c w =
  (Normal tt, add_trace (if is_open (socket w c) then [Pinged c] else []) w).
Proof.
  intros Hrs. unfold BunServer.pingInterval, is_open. run_m.
  case_bool_decide as Ho.
  - unfold ws_ping. run_m. by rewrite Ho.
  - by rewrite add_trace_nil.
Qed.

(** The client's timer only ever pings: however often it fires, with no pong
    in between, the client stays in the set and its socket is never
    destroyed. *)
Lemma bun_intervals_run n c w :
  readyState (socket w c) ≠ CONNECTING →
  ∃ es, BunServer.intervals n c w = (Normal tt, add_trace es w)
        ∧ Forall (λ e, e = Pinged c) es.
Proof.
  intros Hrs. revert w Hrs. induction n as [|n IH]; intros w Hrs.
  - exists []. split; [|done]. simpl. run_m. by rewrite add_trace_nil.
  - simpl. unfold mbind, M_bind. rewrite bun_pingInterval_run by done.
    destruct (IH (add_trace (if is_open (socket w c) then [Pinged c] else []) w))
      as (es & Hrun & Hes); [done|].
    rewrite Hrun, add_trace_app. eexists. split; [done|].
    apply Forall_app. split; [|done]. destruct (is_open (socket w c)); by repeat constructor.
Qed.

End BunProperties.

(** ** The ws manager and the sockets outside its set *)

Lemma frames_to_app c es1 es2 :
  frames_to c (es1 ++ es2) = frames_to c es1 ++ frames_to c es2.
Proof. unfold frames_to. apply omap_app. Qed.

(** *** Sockets outside the set *)

(** A statement keeps [c] out: run in a state where the reference [c] has
    been handed out and is not in the set, it leaves such a state and writes
    no frame to [c], however it completes. *)
Definition keeps_out (c : conn) {A} (m : M A) : Prop :=
  ∀ w, (c < next w)%nat → c ∉ clients w →
    (c < next (exec m w))%nat ∧ (c ∉ clients (exec m w))
    ∧ ∃ es, trace (exec m w) = trace w ++ es ∧ frames_to c es = [].

Create HintDb keeps_out.

Lemma keeps_out_pure c {A} (m : M A) :
  (∀ w, ∃ es, clients (exec m w) = clients w ∧ next (exec m w) = next w
              ∧ trace (exec m w) = trace w ++ es ∧ frames_to c es = []) →
  keeps_out c m.
Proof.
  intros Hm w Hlt Hc. destruct (Hm w) as (es & -> & -> & Htr & Hes). eauto.
Qed.

Lemma keeps_out_ret c {A} (a : A) : keeps_out c (mret a : M A).
Proof. apply keeps_out_pure. intros w. exists []. by rewrite app_nil_r. Qed.

Lemma keeps_out_throw c {A} (e : exn) : keeps_out c (throw e : M A).
Proof. apply keeps_out_pure. intros w. exists []. by rewrite app_nil_r. Qed.

Lemma keeps_out_bind c {A B} (m : M A) (k : A → M B) :
  keeps_out c m → (∀ a, keeps_out c (k a)) → keeps_out c (m ≫= k).
Proof.
  intros Hm Hk w Hlt Hc. destruct (Hm w Hlt Hc) as (Hlt1 & Hc1 & es1 & Htr1 & Hes1).
  unfold exec, mbind, M_bind in *. destruct (m w) as [[a|e] w1]; simpl in *.
  - destruct (Hk a w1 Hlt1 Hc1) as (Hlt2 & Hc2 & es2 & Htr2 & Hes2).
    unfold exec in *. split_and!; [done..|]. exists (es1 ++ es2).
    rewrite Htr2, Htr1, frames_to_app, Hes1, Hes2, app_assoc. done.
  - eauto.
Qed.

Lemma keeps_out_try_catch c {A} (m : M A) (h : exn → M A) :
  keeps_out c m → (∀ e, keeps_out c (h e)) → keeps_out c (try_catch m h).
Proof.
  intros Hm Hh w Hlt Hc. destruct (Hm w Hlt Hc) as (Hlt1 & Hc1 & es1 & Htr1 & Hes1).
  unfold exec, try_catch in *. destruct (m w) as [[a|e] w1]; simpl in *.
  - eauto.
  - destruct (Hh e w1 Hlt1 Hc1) as (Hlt2 & Hc2 & es2 & Htr2 & Hes2).
    unfold exec in *. split_and!; [done..|]. exists (es1 ++ es2).
    rewrite Htr2, Htr1, frames_to_app, Hes1, Hes2, app_assoc. done.
Qed.

Lemma keeps_out_get c x : keeps_out c (get x).
Proof. apply keeps_out_pure. intros w. exists []. by rewrite app_nil_r. Qed.

Lemma keeps_out_update c x f : keeps_out c (update x f).
Proof. apply keeps_out_pure. intros w. exists []. by rewrite app_nil_r. Qed.

Lemma keeps_out_emit c e : (∀ data, e ≠ Sent c data) → keeps_out c (emit e).
Proof.
  intros He. apply keeps_out_pure. intros w. exists [e]. split_and!; try done.
  unfold frames_to. simpl. destruct e; try done. case_decide; [|done]. subst.
  by destruct (He data).
Qed.

Lemma keeps_out_console c level line : keeps_out c (console level line).
Proof. by apply keeps_out_emit. Qed.

Lemma keeps_out_send c x data : x ≠ c → keeps_out c (ws_send x data).
Proof.
  intros Hx. unfold ws_send. apply keeps_out_bind; [apply keeps_out_get|].
  intros s. destruct (readyState s).
  - apply keeps_out_throw.
  - apply keeps_out_emit. congruence.
  - apply keeps_out_ret.
  - apply keeps_out_ret.
Qed.

Lemma keeps_out_ping c x : keeps_out c (ws_ping x).
Proof.
  unfold ws_ping. apply keeps_out_bind; [apply keeps_out_get|].
  intros s. destruct (readyState s).
  - apply keeps_out_throw.
  - by apply keeps_out_emit.
  - apply keeps_out_ret.
  - apply keeps_out_ret.
Qed.

Lemma keeps_out_close c x code reason : keeps_out c (ws_close x code reason).
Proof.
  unfold ws_close. apply keeps_out_bind; [apply keeps_out_get|].
  intros s.
  destruct (readyState s); try apply keeps_out_ret;
    (apply keeps_out_bind; [apply keeps_out_update|intros _; by apply keeps_out_emit]).
Qed.

Lemma keeps_out_closing_add c x : keeps_out c (closing_add x).
Proof. apply keeps_out_pure. intros w. exists []. by rewrite app_nil_r. Qed.

Lemma keeps_out_terminate c x : keeps_out c (ws_terminate x).
Proof.
  unfold ws_terminate. apply keeps_out_bind; [apply keeps_out_get|].
  intros s.
  destruct (readyState s); try apply keeps_out_ret;
    (apply keeps_out_bind; [apply keeps_out_update|intros _];
     apply keeps_out_bind; [by apply keeps_out_emit|intros _];
     apply keeps_out_closing_add).
Qed.

Lemma keeps_out_clients_delete c x : keeps_out c (clients_delete x).
Proof.
  intros w Hlt Hc. split_and!; [done| |].
  - intros Hc'. by apply Set_delete_subset in Hc'.
  - exists []. by rewrite app_nil_r.
Qed.

Lemma keeps_out_clients_add c x : x ≠ c → keeps_out c (clients_add x).
Proof.
  intros Hx w Hlt Hc. split_and!; [done| |].
  - intros Hc'. apply Set_add_elem in Hc' as [?|?]; done.
  - exists []. by rewrite app_nil_r.
Qed.

Lemma keeps_out_forEach c f (l : list conn) :
  (∀ x, x ∈ l → keeps_out c (f x)) → keeps_out c (forEach f l).
Proof.
  induction l as [|x l IH]; intros Hf; simpl; [apply keeps_out_ret|].
  apply keeps_out_bind; [apply Hf; by left|]. intros _. apply IH.
  intros y Hy. apply Hf. by right.
Qed.

Lemma keeps_out_clients_forEach c f :
  (∀ x, x ≠ c → keeps_out c (f x)) → keeps_out c (clients_forEach f).
Proof.
  intros Hf w Hlt Hc. apply (keeps_out_forEach c f (clients w)); [|done..].
  intros x Hx. apply Hf. by intros ->.
Qed.

Local Hint Resolve keeps_out_ret keeps_out_throw keeps_out_get keeps_out_update
  keeps_out_console keeps_out_send keeps_out_ping keeps_out_close
  keeps_out_terminate keeps_out_clients_delete keeps_out_clients_add : keeps_out.

(** Solves [keeps_out] for straight-line code. *)
Ltac keeps_out :=
  repeat first
    [ by auto with keeps_out
    | by apply keeps_out_emit
    | apply keeps_out_clients_forEach; intros ? ?
    | apply keeps_out_try_catch; [|intros ?]
    | match goal with |- keeps_out _ (if ?b then _ else _) => destruct b end
    | match goal with |- keeps_out _ (match ?o with Some _ => _ | None => _ end) =>
        destruct o end
    | apply keeps_out_bind; [|intros ?] ].

Section WsRegistry.
Context `{!Platform}.
Import WsServer.

Lemma keeps_out_Dispatch c e now : keeps_out c (Dispatch e now).
Proof.
  destruct e; simpl;
    unfold notifyGrantChange, notifyRankChange, notifyPlayerUpdate,
      notifyPunishmentExecute, sendPrivateMessage, sendToServers, sendToProxy, broadcast;
    keeps_out.
Qed.

Lemma keeps_out_handleMessage c client data : keeps_out c (handleMessage client data).
Proof.
  unfold handleMessage, broadcast. keeps_out.
  - destruct (JSON_parse data); simpl; keeps_out.
  - unfold prop_type. destruct a; keeps_out.
Qed.

Lemma keeps_out_connection c client req : client ≠ c → keeps_out c (connection client req).
Proof. intros Hc. unfold connection. cbv zeta. keeps_out. Qed.

Lemma keeps_out_emit_close c x : keeps_out c (emit_close x).
Proof. unfold emit_close, on_close. keeps_out. Qed.

Lemma keeps_out_drain c : keeps_out c drain.
Proof.
  intros w Hlt Hc. unfold drain.
  apply (keeps_out_forEach c emit_close (closing w)
           (λ x _, keeps_out_emit_close c x) (set_closing [] w)); done.
Qed.

Lemma keeps_out_handle c ev : keeps_out c (handle ev).
Proof.
  destruct ev; simpl.
  - intros w Hlt Hc.
    destruct (keeps_out_connection c (next w) req) with
      (w := set_next (S (next w)) (set_heap (<[next w := accepted_socket]> (heap w)) w))
      as (Hlt1 & Hc1 & es & Htr & Hes); [lia|simpl; lia|done|].
    unfold exec, mbind, M_bind, accept in *. simpl in *. eauto.
  - unfold on_pong. keeps_out.
  - unfold on_message.
    apply keeps_out_bind; [apply keeps_out_get|]. intros s.
    destruct (listening s); [apply keeps_out_handleMessage|apply keeps_out_ret].
  - apply keeps_out_emit_close.
  - unfold on_error. keeps_out.
  - unfold peer_closing. keeps_out.
  - unfold keepalive. keeps_out.
  - apply keeps_out_Dispatch.
Qed.

Lemma keeps_out_run c evs : keeps_out c (run evs).
Proof.
  induction evs as [|ev evs IH]; simpl; [apply keeps_out_ret|].
  unfold step. apply keeps_out_bind; [|intros _; exact IH].
  apply keeps_out_bind; [apply keeps_out_handle|intros _; apply keeps_out_drain].
Qed.

(** A socket that is not in the set gets nothing.  In every state the
    process reaches, a socket that was accepted earlier and is not in the
    set (it was rejected at the handshake, or it has closed, failed or been
    evicted) is written no frame by any later event, and does not come back
    into the set. *)
Theorem ws_outsider_gets_nothing (evs0 : list event) (c : conn) (evs : list event) :
  let w := after evs0 init in
  (c < next w)%nat → c ∉ clients w →
  ∃ es, trace (after evs w) = trace w ++ es
        ∧ frames_to c es = []
        ∧ (c ∉ clients (after evs w)).
Proof.
  intros w Hlt Hc.
  destruct (keeps_out_run c evs w Hlt Hc) as (_ & Hc' & es & Htr & Hes).
  exists es. done.
Qed.

(** Admission, ws manager: in every state the process reaches, a request
    with the configured api_key and the type "bungee" or "paper" is admitted.
    The socket joins the set behind the members that are there, as a proxy
    for "bungee" and as a server for "paper", authenticated, alive and
    listened to, under the name of the request or, when that is absent or
    empty, "unknown"; it is written the CONNECTED frame and nothing else, and
    no other socket is touched or written to. *)
Theorem ws_admits_valid_request (evs0 : list event) (req : request) :
  q_api_key req = Some API_KEY →
  q_type req = Some "bungee" ∨ q_type req = Some "paper" →
  let w := after evs0 init in
  let c := next w in
  let t := if bool_decide (q_type req = Some "bungee") then proxy else server in
  let name := or_else (q_name req) "unknown" in
  ∃ w1, step (EvConnection req) w = (Normal tt, w1)
        ∧ clients w1 = clients w ++ [c]
        ∧ socket w1 c = mkSocket true (Some t) (Some name) true OPEN true
        ∧ (∀ r, r ≠ c → socket w1 r = socket w r)
        ∧ trace w1 = trace w ++ [Logged Info (Connected c);
                                 Sent c (JSON_stringify (CONNECTED t name))].
Proof.
  intros Hkey Htype w c t name.
  assert (Hw : quiet w) by apply after_quiet, quiet_init.
  assert (Hfresh : c ∉ clients w).
  { intros Hc. destruct Hw as [[_ _ Hmem] _]. destruct (Hmem _ Hc). unfold c in *. lia. }
  assert (Hres : resolve_type (q_type req) = Some t).
  { unfold resolve_type, t. destruct Htype as [->| ->]; done. }
  eexists. split; [|split_and!].
  - apply step_quiet; [by apply connection_admits|apply Hw].
  - simpl. unfold Set_add. by rewrite decide_False.
  - rewrite socket_mk_insert. by rewrite decide_True.
  - intros r Hr. rewrite socket_mk_insert. by rewrite decide_False.
  - done.
Qed.

Lemma length_filter_roles (P Q : conn → Prop) `{∀ c, Decision (P c)} `{∀ c, Decision (Q c)}
    (l : list conn) :
  (∀ c, c ∈ l → (P c ∨ Q c) ∧ ¬ (P c ∧ Q c)) →
  length l = length (filter P l) + length (filter Q l).
Proof.
  induction l as [|x l IH]; intros Hl; [done|].
  destruct (Hl x) as [Hor Hnot]; [by left|].
  rewrite !filter_cons. simpl.
  rewrite IH by (intros c Hc; apply Hl; by right).
  destruct (decide (P x)), (decide (Q x)); simpl; try lia; tauto.
Qed.

(** The counts add up, ws manager: in every state the process reaches, every
    connection that [getConnectionCount] counts is counted by exactly one of
    [getServerCount] and [getProxyCount], and [getConnectedServers] lists one
    entry per connection, each with the role 'proxy' or 'server'. *)
Theorem ws_counts_add_up (evs0 : list event) :
  let w := after evs0 init in
  getConnectionCount w = getServerCount w + getProxyCount w
  ∧ length (getConnectedServers w) = getConnectionCount w
  ∧ Forall (λ entry, info_type entry = Some proxy ∨ info_type entry = Some server)
      (getConnectedServers w).
Proof.
  intros w. assert (Hw : quiet w) by apply after_quiet, quiet_init.
  destruct Hw as [[_ _ Hmem] _]. split_and!.
  - unfold getConnectionCount, getServerCount, getProxyCount.
    apply length_filter_roles. intros c Hc.
    destruct (Hmem c Hc) as [_ (_ & _ & Hrole & _)].
    destruct Hrole as [-> | ->]; split; try tauto; intros [? ?]; congruence.
  - unfold getConnectedServers, getConnectionCount. by rewrite length_fmap.
  - unfold getConnectedServers. apply Forall_fmap, Forall_forall. intros c Hc. simpl.
    by destruct (Hmem c Hc) as [_ (_ & _ & Hrole & _)].
Qed.

End WsRegistry.

(** ** The keepalive timer, one firing *)

(** The number of pings a run of effects wrote to one socket. *)
Definition pings_to (c : conn) (es : list effect) : nat :=
  length (omap (λ e, match e with
                     | Pinged c' => if decide (c' = c) then Some tt else None
                     | _ => None
                     end) es).

Lemma pings_to_app c es1 es2 : pings_to c (es1 ++ es2) = pings_to c es1 + pings_to c es2.
Proof. unfold pings_to. by rewrite omap_app, length_app. Qed.

(** A socket the timer pings: it has answered since the last firing, and it
    is open. *)
Definition pinged (c : conn) (s : AuthenticatedWebSocket) : Prop :=
  isAlive s = true ∧ readyState s = OPEN.

Lemma pings_to_probe_effects c x s :
  pings_to c (probe_effects x s) = if decide (c = x ∧ pinged c s) then 1 else 0.
Proof.
  unfold probe_effects, pinged, is_open, pings_to.
  destruct (isAlive s); simpl.
  - case_bool_decide as Ho; simpl.
    + destruct (decide (x = c)) as [->|Hx]; simpl.
      * by rewrite decide_True.
      * rewrite decide_False; [done|]. naive_solver.
    + rewrite decide_False; [done|]. naive_solver.
  - rewrite decide_False; [done|]. naive_solver.
Qed.

Lemma frames_to_probe_effects c x s : frames_to c (probe_effects x s) = [].
Proof.
  unfold probe_effects. case_bool_decide; [done|]. by destruct (is_open s).
Qed.

Section KeepaliveProperties.
Context `{!Platform}.
Import WsServer.

(** The trace of the keepalive loop: what the callback writes for each
    client, one client after the other. *)
Lemma keepalive_trace (l : list conn) (w : world) :
  NoDup l →
  (∀ c, c ∈ l → readyState (socket w c) ≠ CONNECTING ∧ readyState (socket w c) ≠ CLOSED) →
  trace (exec (forEach probe l) w)
  = trace w ++ concat ((λ x, probe_effects x (socket w x)) <$> l).
Proof.
  intros Hnd. revert w. induction Hnd as [|x l Hx Hnd IH]; intros w Hrs.
  - simpl. by rewrite app_nil_r.
  - destruct (Hrs x) as [Hconn Hclosed]; [by left|].
    set (w1 := mkWorld (clients w) (<[x := probed (socket w x)]> (heap w)) (next w)
                 (if bool_decide (isAlive (socket w x) = false)
                  then Set_add x (closing w) else closing w)
                 (trace w ++ probe_effects x (socket w x))).
    assert (Hsock : ∀ c, c ≠ x → socket w1 c = socket w c).
    { intros c Hc. unfold socket, w1. simpl. by apply lookup_total_insert_ne. }
    assert (Hrun : exec (forEach probe (x :: l)) w = exec (forEach probe l) w1).
    { unfold exec. simpl. unfold mbind, M_bind. by rewrite probe_run. }
    rewrite Hrun, IH.
    + unfold w1 at 1. simpl. rewrite <- app_assoc. do 3 f_equal.
      apply list_fmap_ext. intros i c Hc. apply list_elem_of_lookup_2 in Hc.
      rewrite Hsock; [done|]. by intros ->.
    + intros c Hc. rewrite Hsock by (by intros ->). apply Hrs. by right.
Qed.

Lemma pings_to_keepalive c (l : list conn) (w : world) :
  NoDup l →
  pings_to c (concat ((λ x, probe_effects x (socket w x)) <$> l))
  = if decide (c ∈ l ∧ pinged c (socket w c)) then 1 else 0.
Proof.
  induction 1 as [|x l Hx Hnd IH].
  - case_decide as Hc; [|done]. destruct Hc as [Hc _]. by apply elem_of_nil in Hc.
  - rewrite fmap_cons. simpl. rewrite pings_to_app, pings_to_probe_effects, IH.
    destruct (decide (c = x)) as [->|Hc].
    + destruct (decide (pinged x (socket w x))) as [Hp|Hp].
      * rewrite decide_True by done. rewrite decide_False by naive_solver.
        rewrite decide_True; [done|]. split; [by left|done].
      * rewrite !decide_False; [done|naive_solver..].
    + rewrite decide_False by naive_solver.
      destruct (decide (c ∈ l ∧ pinged c (socket w c))) as [[Hin Hp]|Hno].
      * rewrite decide_True; [done|]. split; [by right|done].
      * rewrite decide_False; [done|]. rewrite elem_of_cons. naive_solver.
Qed.

Lemma frames_to_keepalive c (l : list conn) (w : world) :
  frames_to c (concat ((λ x, probe_effects x (socket w x)) <$> l)) = [].
Proof.
  induction l as [|x l IH]; [done|].
  rewrite fmap_cons. simpl. by rewrite frames_to_app, frames_to_probe_effects, IH.
Qed.

(** The close events write their console lines and nothing else. *)
Lemma drain_trace (l : list conn) (w : world) :
  ∃ es, trace (exec (forEach emit_close l) w) = trace w ++ es
        ∧ ∀ c, pings_to c es = 0 ∧ frames_to c es = [].
Proof.
  revert w. induction l as [|x l IH]; intros w.
  - exists []. simpl. by rewrite app_nil_r.
  - set (w1 := mkWorld (if listening (socket w x) then Set_delete x (clients w)
                        else clients w)
                 (<[x := set_readyState CLOSED (socket w x)]> (heap w)) (next w)
                 (closing w)
                 (trace w ++ if listening (socket w x)
                             then [Logged Info (Disconnected x)] else [])).
    destruct (IH w1) as (es & Htr & Hes).
    exists ((if listening (socket w x) then [Logged Info (Disconnected x)] else []) ++ es).
    split.
    + unfold exec in *. simpl. unfold mbind, M_bind. rewrite emit_close_run.
      fold w1. rewrite Htr. unfold w1. simpl. by rewrite app_assoc.
    + intros c. destruct (Hes c) as [Hp Hf].
      rewrite pings_to_app, frames_to_app, Hp, Hf.
      by destruct (listening (socket w x)).
Qed.

(** One firing of the keepalive timer, in every state the process reaches.
    Every member that has answered since the last firing and is open is
    written exactly one ping, and nobody else any; exactly the members that
    have not answered are destroyed, and they are out of the set when the
    turn ends; every member that stays is marked as not having answered; no
    frame is written to anybody. *)
Theorem ws_keepalive_probes (evs0 : list event) :
  let w := after evs0 init in
  ∃ w1 es,
    step EvInterval w = (Normal tt, w1)
    ∧ trace w1 = trace w ++ es
    ∧ (∀ c, pings_to c es
            = if decide (c ∈ clients w ∧ isAlive (socket w c) = true
                         ∧ readyState (socket w c) = OPEN)
              then 1 else 0)
    ∧ (∀ c, Terminated c ∈ es ↔ c ∈ clients w ∧ isAlive (socket w c) = false)
    ∧ (∀ c, c ∈ clients w1 ↔ c ∈ clients w ∧ isAlive (socket w c) = true)
    ∧ (∀ c, c ∈ clients w1 → isAlive (socket w1 c) = false)
    ∧ (∀ c, frames_to c es = []).
Proof.
  intros w. assert (Hw : quiet w) by apply after_quiet, quiet_init.
  destruct (turn_always_ok EvInterval w Hw) as (w1 & es & Hs & Hq & Hf).
  exists w1, es.
  assert (Hes : ∀ c, pings_to c es
                     = (if decide (c ∈ clients w ∧ pinged c (socket w c)) then 1 else 0)
                     ∧ frames_to c es = []).
  { destruct Hw as [[Hnd Hconn Hmem] Hclo].
    assert (Hrs : ∀ c, c ∈ clients w →
                       readyState (socket w c) ≠ CONNECTING
                       ∧ readyState (socket w c) ≠ CLOSED).
    { intros c Hc. split; [apply Hconn|]. by destruct (Hmem c Hc) as [_ (_ & _ & _ & ?)]. }
    pose proof (keepalive_trace (clients w) w Hnd Hrs) as Htr1.
    set (w' := exec (forEach probe (clients w)) w) in *.
    destruct (drain_trace (closing w') (set_closing [] w')) as (es2 & Htr2 & Hes2).
    assert (Hstep : exec (step EvInterval) w
                    = exec (forEach emit_close (closing w')) (set_closing [] w')).
    { unfold exec, step, mbind, M_bind, handle. rewrite keepalive_forEach.
      destruct (keepalive_loop (clients w) w Hnd Hrs) as (w'' & ? & Hrun & _).
      unfold w', exec. rewrite Hrun. done. }
    assert (Htr : trace w1 = trace w ++ concat ((λ x, probe_effects x (socket w x))
                                                  <$> clients w) ++ es2).
    { replace w1 with (exec (step EvInterval) w) by (unfold exec; by rewrite Hs).
      rewrite Hstep, Htr2. simpl. rewrite Htr1. by rewrite app_assoc. }
    rewrite (sf_trace _ _ _ _ Hf) in Htr. apply app_inv_head in Htr. subst es.
    intros c. destruct (Hes2 c) as [Hp2 Hf2].
    rewrite pings_to_app, frames_to_app, Hp2, Hf2, pings_to_keepalive by done.
    rewrite frames_to_keepalive. split; [lia|done]. }
  split_and!.
  - exact Hs.
  - apply (sf_trace _ _ _ _ Hf).
  - intros c. rewrite (proj1 (Hes c)). unfold pinged.
    repeat case_decide; tauto.
  - intros c. split.
    + intros Ht. by destruct (sf_terminated _ _ _ _ Hf c Ht) as (_ & ? & ?).
    + intros [Hc Hal]. by apply (sf_tick _ _ _ _ Hf eq_refl c Hc).
  - intros c. split.
    + intros Hc1. destruct (sf_joined _ _ _ _ Hf c Hc1) as [Hc|(_ & ? & ? & ? & _)]; [|done].
      split; [done|]. destruct (isAlive (socket w c)) eqn:Hal; [done|].
      by destruct (proj1 (sf_tick _ _ _ _ Hf eq_refl c Hc) Hal).
    + intros [Hc Hal].
      destruct (sf_left _ _ _ _ Hf c Hc) as [?|[?|[?|[_ ?]]]]; try done. congruence.
  - intros c Hc1.
    destruct (sf_joined _ _ _ _ Hf c Hc1) as [Hc|(_ & ? & ? & ? & _)]; [|done].
    by apply (sf_tick _ _ _ _ Hf eq_refl c Hc).
  - intros c. apply Hes.
Qed.

End KeepaliveProperties.

(** ** The HTTP middleware *)

Section Middleware.
Context `{!Platform}.

(** The HTTP middleware: with a key configured, a request passes exactly when
    its X-API-Key header is that key, a request with no header or an empty one
    is answered 401 as missing its key, and every other one 401 as having an
    invalid key; with no key configured, or an empty one, every request
    passes. *)
Theorem authMiddleware_passes (header : option string) :
  (authMiddleware header = Next ↔ API_KEY = EmptyString ∨ header = Some API_KEY)
  ∧ (authMiddleware header = Unauthorized "Unauthorized: Missing API key"
     ↔ API_KEY ≠ EmptyString ∧ (header = None ∨ header = Some EmptyString))
  ∧ (authMiddleware header = Unauthorized "Unauthorized: Invalid API key"
     ↔ API_KEY ≠ EmptyString ∧ header ≠ None ∧ header ≠ Some EmptyString
       ∧ header ≠ Some API_KEY)
  ∧ (API_KEY = EmptyString
     ↔ process_env_API_KEY = None ∨ process_env_API_KEY = Some EmptyString).
Proof.
  unfold authMiddleware, API_KEY, or_else, truthy.
  destruct process_env_API_KEY as [k|], header as [h|]; simpl;
    repeat case_bool_decide; simpl; subst; naive_solver.
Qed.

End Middleware.

(** ** The services *)

Lemma filter_none {A} (P : A → Prop) `{∀ x, Decision (P x)} (l : list A) :
  (∀ x, x ∈ l → ¬ P x) → filter P l = [].
Proof.
  intros Hl. induction l as [|x l IH]; [done|].
  rewrite filter_cons_False by (apply Hl; by left).
  apply IH. intros r Hr. apply Hl. by right.
Qed.

Section NotifyLoops.
Context `{!Platform}.

(** The open members an event goes to stay the same while frames are
    written. *)
Lemma addressed_add_trace e es w c : addressed e (add_trace es w) c ↔ addressed e w c.
Proof. done. Qed.

(** A loop of notifications: every client the events address gets one frame
    per event, in the order of the loop, and nobody else gets any.  [kind]
    makes the event of an item; all events of one loop address the same
    clients. *)
Lemma for_of_Dispatch {A} (kind : A → DomainEvent) (clock : nat → string) (to : conn → Prop)
    (l : list A) (i : nat) (w : world) :
  NoDup (clients w) →
  (∀ x c, addressed (kind x) w c ↔ to c) →
  ∃ es,
    for_of (λ i x, Dispatch (kind x) (clock i)) i l w = (Normal tt, add_trace es w)
    ∧ ∀ c : conn,
        (to c → frames_to c es
                = imap (λ j x, JSON_stringify (encode (kind x) (clock (i + j)))) l)
        ∧ (¬ to c → frames_to c es = []).
Proof.
  intros Hnd Hto. revert i w Hnd Hto.
  induction l as [|x l IH]; intros i w Hnd Hto.
  - exists []. rewrite add_trace_nil. split; [done|]. intros c. by split.
  - destruct (Dispatch_addressed (kind x) (clock i) w Hnd) as (es1 & Hrun1 & Hes1).
    destruct (IH (S i) (add_trace es1 w) Hnd Hto) as (es2 & Hrun2 & Hes2).
    exists (es1 ++ es2). split.
    + simpl. unfold mbind, M_bind. rewrite Hrun1, Hrun2, add_trace_app. done.
    + intros c. rewrite frames_to_app. destruct (Hes1 c) as [Hin1 Hout1].
      destruct (Hes2 c) as [Hin2 Hout2]. split; intros Hc.
      * rewrite Hin1, Hin2 by (by try apply Hto). simpl. rewrite Nat.add_0_r.
        f_equal. apply imap_ext. intros j y _. simpl. do 3 f_equal. lia.
      * rewrite Hout1, Hout2 by (by try rewrite Hto). done.
Qed.

End NotifyLoops.

Section GrantProperties.
Context `{!Platform}.
Import GrantService.

Lemma grant_max_rowid (l : list GrantRow) r : r ∈ l → (row_id r ≤ max_rowid l)%Z.
Proof.
  unfold max_rowid. induction l as [|x l IH]; intros Hr; [by apply elem_of_nil in Hr|].
  rewrite fmap_cons. simpl. apply elem_of_cons in Hr as [->|Hr]; [lia|].
  specialize (IH Hr). lia.
Qed.

Lemma grant_select_absent i (l : list GrantRow) :
  (∀ r, r ∈ l → row_id r ≠ i) → filter (λ r, row_id r = i) l = [].
Proof. apply filter_none. Qed.

(** What [findById] answers after an update of the rows that leaves the ids
    as they are. *)
Lemma grant_findById_fmap (f : GrantRow → GrantRow) i (l : list GrantRow) s s' :
  (∀ r, row_id (f r) = row_id r) →
  findById i (mkTable (f <$> l) s)
  = (λ g, grantRowToApi (f (mkRow (id g) (playerUuid g) (rankId g) (granterUuid g)
                                (granterName g) (grantedAt g) (expiresAt g) (reason g)
                                (isActive g))))
    <$> findById i (mkTable l s').
Proof.
  intros Hf. unfold findById, select_by_id. simpl.
  induction l as [|x l IH]; [done|].
  rewrite fmap_cons. destruct (decide (row_id x = i)) as [Hx|Hx].
  - rewrite (filter_cons_True _ (f x)) by (by rewrite Hf).
    rewrite (filter_cons_True _ x) by done. simpl. by destruct x.
  - rewrite (filter_cons_False _ (f x)) by (by rewrite Hf).
    rewrite (filter_cons_False _ x) by done. exact IH.
Qed.

(** [save] and [findById]: the grant is stored under an id larger than every
    id of the table and every id the table has held, [findById] of that id
    answers the grant as it was given, the grants of the other ids are as
    before, and every open 'server' member is written one GRANT_CHANGE for
    the grant's player, nobody else anything.  Ids are numbers a JavaScript
    number holds exactly. *)
Theorem grant_save_then_findById (grant : CreateGrantDto) (now : string) (db : table)
    (w : world) :
  NoDup (clients w) → (next_rowid db ≤ 9007199254740991)%Z →
  ∃ insertId db' es,
    save grant now db w = (Normal (insertId, db'), add_trace es w)
    ∧ (∀ r, r ∈ rows db → (row_id r < insertId)%Z)
    ∧ (sequence db < insertId)%Z
    ∧ sequence db' = insertId
    ∧ findById insertId db'
      = Some (mkGrant insertId (dto_playerUuid grant) (dto_rankId grant)
                (dto_granterUuid grant) (dto_granterName grant) (dto_grantedAt grant)
                (dto_expiresAt grant) (dto_reason grant) (dto_isActive grant))
    ∧ (∀ i, i ≠ insertId → findById i db' = findById i db)
    ∧ ∀ c : conn,
        ((c ∈ clients w ∧ readyState (socket w c) = OPEN)
           ∧ serverType (socket w c) = Some server →
         frames_to c es = [JSON_stringify (GRANT_CHANGE (dto_playerUuid grant) now)])
        ∧ (¬ ((c ∈ clients w ∧ readyState (socket w c) = OPEN)
                ∧ serverType (socket w c) = Some server) →
           frames_to c es = []).
Proof.
  intros Hnd _.
  destruct (Dispatch_addressed (GrantChanged (dto_playerUuid grant)) now w Hnd)
    as (es & Hrun & Hes).
  assert (Hlt : ∀ r, r ∈ rows db → (row_id r < next_rowid db)%Z).
  { intros r Hr. pose proof (grant_max_rowid _ _ Hr). unfold next_rowid. lia. }
  assert (Hnone : filter (λ r, row_id r = next_rowid db) (rows db) = []).
  { apply grant_select_absent. intros r Hr. specialize (Hlt r Hr). lia. }
  eexists (next_rowid db), _, es. split_and!.
  - unfold save, insert. simpl in Hrun. unfold mbind, M_bind. rewrite Hrun. done.
  - exact Hlt.
  - unfold next_rowid. lia.
  - done.
  - unfold findById, select_by_id. simpl. rewrite filter_app, Hnone.
    by rewrite filter_cons_True.
  - intros i Hi. unfold findById, select_by_id. simpl. rewrite filter_app.
    rewrite (filter_cons_False _ (mkRow _ _ _ _ _ _ _ _ _)) by (simpl; congruence).
    by rewrite filter_nil, app_nil_r.
  - exact Hes.
Qed.

(** [updateActiveStatus]: for an id that is not in the table it throws
    not-found, and nothing is written to any socket; for one that is, the
    grant of that id gets the status given and is otherwise as it was, the
    grants of the other ids are left alone, and every open 'server' member is
    written one GRANT_CHANGE for the grant's player, nobody else anything. *)
Theorem grant_updateActiveStatus_spec (grantId : Z) (active : bool) (now : string)
    (db : table) (w : world) :
  NoDup (clients w) →
  match findById grantId db with
  | None =>
    updateActiveStatus grantId active now db w
    = (Throw (ApiError 404 ("Grant with ID " +:+ pretty grantId +:+ " not found")), w)
  | Some grant =>
    ∃ db' es,
      updateActiveStatus grantId active now db w = (Normal (tt, db'), add_trace es w)
      ∧ findById grantId db'
        = Some (mkGrant (id grant) (playerUuid grant) (rankId grant) (granterUuid grant)
                  (granterName grant) (grantedAt grant) (expiresAt grant) (reason grant)
                  active)
      ∧ (∀ i, i ≠ grantId → findById i db' = findById i db)
      ∧ ∀ c : conn,
          ((c ∈ clients w ∧ readyState (socket w c) = OPEN)
             ∧ serverType (socket w c) = Some server →
           frames_to c es = [JSON_stringify (GRANT_CHANGE (playerUuid grant) now)])
          ∧ (¬ ((c ∈ clients w ∧ readyState (socket w c) = OPEN)
                  ∧ serverType (socket w c) = Some server) →
             frames_to c es = [])
  end.
Proof.
  intros Hnd. destruct (findById grantId db) as [grant|] eqn:Hfind.
  - destruct (Dispatch_addressed (GrantChanged (playerUuid grant)) now w Hnd)
      as (es & Hrun & Hes).
    assert (Hsome : select_by_id grantId db ≠ []).
    { unfold findById in Hfind. by destruct (select_by_id grantId db). }
    eexists _, es. split_and!.
    + unfold updateActiveStatus. rewrite Hfind. simpl.
      rewrite bool_decide_eq_false_2 by (by destruct (select_by_id grantId db)).
      simpl in Hrun. unfold mbind, M_bind. rewrite Hrun. done.
    + rewrite (grant_findById_fmap _ _ _ _ (sequence db)) by (intros r; by case_decide).
      destruct db as [l s]. simpl in *. rewrite Hfind. simpl.
      unfold findById, select_by_id in Hfind. simpl in Hfind.
      destruct (filter _ l) as [|r ?] eqn:Hf; [done|]. injection Hfind as <-.
      assert (Hr : row_id r = grantId).
      { assert (Hin : r ∈ filter (λ r, row_id r = grantId) l) by (rewrite Hf; by left).
        by apply list_elem_of_filter in Hin as [? _]. }
      simpl. by rewrite decide_True.
    + intros i Hi.
      rewrite (grant_findById_fmap _ _ _ _ (sequence db)) by (intros r; by case_decide).
      destruct db as [l s]. simpl. unfold findById, select_by_id. simpl.
      destruct (filter (λ r, row_id r = i) l) as [|r ?] eqn:Hf; [done|].
      assert (Hr : row_id r = i).
      { assert (Hin : r ∈ filter (λ r, row_id r = i) l) by (rewrite Hf; by left).
        by apply list_elem_of_filter in Hin as [? _]. }
      simpl. rewrite decide_False by congruence. by destruct r.
    + exact Hes.
  - unfold updateActiveStatus. by rewrite Hfind.
Qed.

Lemma grant_filter_twice (P Q : GrantRow → Prop) `{∀ r, Decision (P r)} `{∀ r, Decision (Q r)}
    (l : list GrantRow) :
  (∀ r, P r → Q r) → filter P (filter Q l) = filter P l.
Proof. intros HPQ. by apply list_filter_filter_l. Qed.

(** [deleteById]: for an id that is not in the table it throws not-found, and
    nothing is written to any socket; for one that is, the grant is gone
    ([findById] answers null, and deleting it again throws not-found), the
    grants of the other ids are left alone, and every open 'server' member is
    written one GRANT_CHANGE for the player of the deleted grant, nobody else
    anything. *)
Theorem grant_deleteById_spec (grantId : Z) (now : string) (db : table) (w : world) :
  NoDup (clients w) →
  match findById grantId db with
  | None =>
    deleteById grantId now db w
    = (Throw (ApiError 404 ("Grant with ID " +:+ pretty grantId +:+ " not found")), w)
  | Some grant =>
    ∃ db' es,
      deleteById grantId now db w = (Normal (tt, db'), add_trace es w)
      ∧ findById grantId db' = None
      ∧ (∀ i, i ≠ grantId → findById i db' = findById i db)
      ∧ (∀ c : conn,
           ((c ∈ clients w ∧ readyState (socket w c) = OPEN)
              ∧ serverType (socket w c) = Some server →
            frames_to c es = [JSON_stringify (GRANT_CHANGE (playerUuid grant) now)])
           ∧ (¬ ((c ∈ clients w ∧ readyState (socket w c) = OPEN)
                   ∧ serverType (socket w c) = Some server) →
              frames_to c es = []))
      ∧ ∀ now' w',
          deleteById grantId now' db' w'
          = (Throw (ApiError 404 ("Grant with ID " +:+ pretty grantId +:+ " not found")), w')
  end.
Proof.
  intros Hnd. destruct (findById grantId db) as [grant|] eqn:Hfind.
  - destruct (Dispatch_addressed (GrantChanged (playerUuid grant)) now w Hnd)
      as (es & Hrun & Hes).
    assert (Hgone : findById grantId (delete_by_id grantId db).2 = None).
    { unfold findById, select_by_id. simpl. rewrite grant_select_absent; [done|].
      intros r Hr. by apply list_elem_of_filter in Hr as [? _]. }
    eexists _, es. split_and!.
    + unfold deleteById. rewrite Hfind. simpl.
      rewrite bool_decide_eq_false_2.
      * simpl in Hrun. unfold mbind, M_bind. rewrite Hrun. done.
      * unfold findById in Hfind. by destruct (select_by_id grantId db).
    + exact Hgone.
    + intros i Hi. unfold findById, select_by_id. simpl.
      rewrite grant_filter_twice; [done|]. intros r. congruence.
    + exact Hes.
    + intros now' w'. unfold deleteById. simpl in Hgone. by rewrite Hgone.
  - unfold deleteById. by rewrite Hfind.
Qed.

Lemma grant_select_by_player_elem (p : string) (db : table) (r : GrantRow) :
  r ∈ select_by_player p db ↔ r ∈ rows db ∧ player_uuid r = p.
Proof.
  unfold select_by_player. rewrite merge_sort_Permutation, list_elem_of_filter. tauto.
Qed.

(** [deleteByPlayer]: it always completes; afterwards the player has no
    grants, the grants of every other player are as before, and every open
    'server' member is written one GRANT_CHANGE for the player (also when the
    player had no grant to delete), nobody else anything. *)
Theorem grant_deleteByPlayer_spec (playerUuid : string) (now : string) (db : table)
    (w : world) :
  NoDup (clients w) →
  ∃ db' es,
    deleteByPlayer playerUuid now db w = (Normal (tt, db'), add_trace es w)
    ∧ findByPlayer playerUuid db' = []
    ∧ (∀ u, u ≠ playerUuid → findByPlayer u db' = findByPlayer u db)
    ∧ (∀ i g, findById i db' = Some g → GrantService.playerUuid g ≠ playerUuid)
    ∧ ∀ c : conn,
        ((c ∈ clients w ∧ readyState (socket w c) = OPEN)
           ∧ serverType (socket w c) = Some server →
         frames_to c es = [JSON_stringify (GRANT_CHANGE playerUuid now)])
        ∧ (¬ ((c ∈ clients w ∧ readyState (socket w c) = OPEN)
                ∧ serverType (socket w c) = Some server) →
           frames_to c es = []).
Proof.
  intros Hnd.
  destruct (Dispatch_addressed (GrantChanged playerUuid) now w Hnd) as (es & Hrun & Hes).
  eexists _, es. split_and!.
  - unfold deleteByPlayer. simpl. simpl in Hrun. unfold mbind, M_bind. rewrite Hrun. done.
  - unfold findByPlayer, select_by_player. simpl.
    rewrite filter_none; [done|].
    intros r Hr. apply list_elem_of_filter in Hr as [? _]. tauto.
  - intros u Hu. unfold findByPlayer, select_by_player. simpl.
    rewrite grant_filter_twice; [done|]. intros r. congruence.
  - intros i g. unfold findById, select_by_id. simpl.
    destruct (filter _ (filter _ _)) as [|r ?] eqn:Hf; [done|]. intros [= <-].
    assert (Hin : r ∈ filter (λ r, row_id r = i)
                        (filter (λ r, player_uuid r ≠ playerUuid) (rows db)))
      by (rewrite Hf; by left).
    apply list_elem_of_filter in Hin as [_ Hin].
    by apply list_elem_of_filter in Hin as [? _].
  - exact Hes.
Qed.

Lemma grant_update_expired_clean now (db : table) r :
  r ∈ rows (update_expired now db).2 → ¬ expired now r.
Proof.
  simpl. intros Hr. apply list_elem_of_fmap in Hr as (r0 & -> & Hr0).
  case_decide as Hexp; [|done]. unfold expired. simpl. intros [? _]. done.
Qed.

(** A grant as the API shows it is lapsed at [now] when it is active and its
    expiry is a text not after [now]. *)
Definition lapsed (now : string) (g : Grant) : Prop :=
  isActive g = true
  ∧ match expiresAt g with
    | None => False
    | Some e => String.le e now
    end.

Global Instance lapsed_dec now g : Decision (lapsed now g).
Proof. unfold lapsed. destruct (expiresAt g); apply _. Defined.

(** [cleanupExpiredGrants]: it completes and answers how many rows were
    active with an expiry not after the clock of its update; each of those
    grants is then inactive and otherwise as it was, every other grant is
    left alone, and no lapsed grant is left.  The players notified are those
    with such a row at the clock of the select, each once: every open
    'server' member gets one GRANT_CHANGE per player, nobody else anything;
    when the clock has not gone back between the two statements, each of
    these players has had a grant deactivated.  Run again at the clock of the
    update, it answers 0, changes nothing and notifies nobody. *)
Theorem grant_cleanupExpiredGrants_spec (selected updated : string) (clock : nat → string)
    (db : table) (w : world) :
  NoDup (clients w) →
  ∃ db' es players,
    cleanupExpiredGrants selected updated clock db w
    = (Normal (length (filter (expired updated) (rows db)), db'), add_trace es w)
    ∧ (∀ i, findById i db'
            = (λ g, if decide (lapsed updated g)
                    then mkGrant (id g) (playerUuid g) (rankId g) (granterUuid g)
                           (granterName g) (grantedAt g) (expiresAt g) (reason g) false
                    else g) <$> findById i db)
    ∧ (∀ r, r ∈ rows db' → ¬ expired updated r)
    ∧ NoDup players
    ∧ (∀ u, u ∈ players ↔ ∃ r, r ∈ rows db ∧ expired selected r ∧ player_uuid r = u)
    ∧ (String.le selected updated →
       ∀ u, u ∈ players → ∃ r, r ∈ rows db ∧ expired updated r ∧ player_uuid r = u)
    ∧ (∀ c : conn,
         ((c ∈ clients w ∧ readyState (socket w c) = OPEN)
            ∧ serverType (socket w c) = Some server →
          frames_to c es
          = imap (λ i u, JSON_stringify (GRANT_CHANGE u (clock i))) players)
         ∧ (¬ ((c ∈ clients w ∧ readyState (socket w c) = OPEN)
                 ∧ serverType (socket w c) = Some server) →
            frames_to c es = []))
    ∧ ∀ clock' w',
        cleanupExpiredGrants updated updated clock' db' w' = (Normal (0%nat, db'), w').
Proof.
  intros Hnd.
  destruct (for_of_Dispatch GrantChanged clock
              (λ c, (c ∈ clients w ∧ readyState (socket w c) = OPEN)
                    ∧ serverType (socket w c) = Some server)
              (select_expired_players selected db) 0 w Hnd)
    as (es & Hrun & Hes); [done|].
  assert (Hplayers : ∀ s u, u ∈ select_expired_players s db
                            ↔ ∃ r, r ∈ rows db ∧ expired s r ∧ player_uuid r = u).
  { intros s u. unfold select_expired_players.
    rewrite elem_of_remove_dups, list_elem_of_fmap.
    setoid_rewrite list_elem_of_filter. naive_solver. }
  exists (update_expired updated db).2, es, (select_expired_players selected db).
  split_and!.
  - unfold cleanupExpiredGrants. simpl. unfold mbind, M_bind.
    change (for_of (λ i player_uuid, notifyGrantChange player_uuid (clock i)) 0
              (select_expired_players selected db) w)
      with (for_of (λ i x, Dispatch (GrantChanged x) (clock i)) 0
              (select_expired_players selected db) w).
    rewrite Hrun. done.
  - intros i. simpl.
    rewrite (grant_findById_fmap _ _ _ _ (sequence db)) by (intros r; by case_decide).
    destruct db as [l s]. simpl. destruct (findById i (mkTable l s)) as [g|]; [|done].
    simpl. f_equal. unfold expired, lapsed. simpl.
    destruct g as [gi gp gr gu gn ga ge gre gact]. simpl.
    destruct gact, ge as [e|]; simpl; repeat case_decide; simpl; try done; naive_solver.
  - apply grant_update_expired_clean.
  - apply NoDup_remove_dups.
  - apply Hplayers.
  - intros Hle u Hu. apply Hplayers in Hu as (r & Hr & [Hact Hexp] & Hp).
    exists r. split_and!; try done. split; [done|].
    destruct (expires_at r) as [e|]; [|done]. by etrans.
  - intros c. destruct (Hes c) as [Hin Hout]. split; intros Hc.
    + rewrite Hin by done. by apply imap_ext.
    + by apply Hout.
  - intros clock' w'.
    assert (Hnone : filter (expired updated) (rows (update_expired updated db).2) = []).
    { apply filter_none. apply grant_update_expired_clean. }
    assert (Hsame : update_expired updated (update_expired updated db).2
                    = (0%nat, (update_expired updated db).2)).
    { unfold update_expired at 1. rewrite Hnone. simpl. do 2 f_equal.
      rewrite <- list_fmap_compose. apply list_fmap_ext. intros j r Hr. simpl.
      destruct (decide (expired updated r)) as [Hexp|Hexp].
      - rewrite decide_False; [done|]. unfold expired. simpl. intros [? _]. done.
      - by rewrite decide_False. }
    unfold cleanupExpiredGrants, select_expired_players.
    rewrite Hsame, Hnone. done.
Qed.

Lemma ascii_compare_refl (a : Ascii.ascii) : Ascii.compare a a = Eq.
Proof.
  pose proof (Ascii.compare_antisym a a) as Hc.
  destruct (Ascii.compare a a); simpl in Hc; congruence.
Qed.

(** A text with a "T" after its first part is after every text with a space
    there: after the common part the two differ, and "T" is the larger
    byte. *)
Lemma iso_text_after_sql_text (date time clock_time : string) :
  ¬ String.le (date +:+ "T" +:+ time) (date +:+ " " +:+ clock_time).
Proof.
  unfold String.le, String.leb. induction date as [|a date IH]; simpl.
  - tauto.
  - by rewrite ascii_compare_refl.
Qed.

Local Instance grant_granted_at_desc_trans : Transitive granted_at_desc.
Proof. intros r1 r2 r3 H12 H23. unfold granted_at_desc in *. by etrans. Qed.

Local Instance grant_granted_at_desc_total : Total granted_at_desc.
Proof. intros r1 r2. unfold granted_at_desc. apply (total String.le). Qed.

(** The queries for a player: [findByPlayer] answers the player's grants,
    each row once, the later [grantedAt] first; the ones
    [findActiveByPlayerIncludingExpired] answers are those of them that are
    active; the ones [findActiveByPlayer] answers are the active ones with no
    expiry or with an expiry after the clock, as texts. *)
Theorem grant_queries_for_a_player (playerUuid now : string) (db : table) :
  findByPlayer playerUuid db
  ≡ₚ grantRowToApi <$> filter (λ r, player_uuid r = playerUuid) (rows db)
  ∧ StronglySorted (λ g1 g2, String.le (grantedAt g2) (grantedAt g1))
      (findByPlayer playerUuid db)
  ∧ (∀ g, g ∈ findActiveByPlayerIncludingExpired playerUuid db
          ↔ g ∈ findByPlayer playerUuid db ∧ isActive g = true)
  ∧ (∀ g, g ∈ findActiveByPlayer playerUuid now db
          ↔ g ∈ findByPlayer playerUuid db ∧ isActive g = true
            ∧ match expiresAt g with
              | None => True
              | Some e => ¬ String.le e now
              end).
Proof.
  split_and!.
  - unfold findByPlayer, select_by_player. by rewrite merge_sort_Permutation.
  - unfold findByPlayer, select_by_player.
    pose proof (StronglySorted_merge_sort granted_at_desc
                  (filter (λ r, player_uuid r = playerUuid) (rows db))) as Hs.
    by apply (StronglySorted_fmap _ granted_at_desc).
  - intros g. unfold findActiveByPlayerIncludingExpired, findByPlayer,
      select_active_by_player_including_expired, select_by_player.
    rewrite !merge_sort_Permutation, !list_elem_of_fmap.
    setoid_rewrite list_elem_of_filter. split.
    + intros (r & -> & [Hp Hact] & Hr). split; [|done]. by exists r.
    + intros [(r & -> & Hp & Hr) Hact]. by exists r.
  - intros g. unfold findActiveByPlayer, findByPlayer, select_active_by_player,
      select_by_player, current.
    rewrite !merge_sort_Permutation, !list_elem_of_fmap.
    setoid_rewrite list_elem_of_filter. split.
    + intros (r & -> & (Hp & Hact & Hexp) & Hr). split_and!; [by exists r|done..].
    + intros ((r & -> & Hp & Hr) & Hact & Hexp). by exists r.
Qed.

(** Expiry is by the day.  An expiry in ISO 8601, "date T time", as the API
    takes it, is a text after every clock text of SQLite, "date space time",
    of the same date.  So at no moment of the day it expires on is an active
    grant found expired: [findActiveByPlayer] answers it, and
    [cleanupExpiredGrants] leaves its row as it is. *)
Theorem grant_expiry_is_by_day (date time clock_time select_time update_time : string)
    (clock : nat → string) (db : table) (w : world) (r : GrantRow) :
  r ∈ rows db → is_active r = true → expires_at r = Some (date +:+ "T" +:+ time) →
  grantRowToApi r ∈ findActiveByPlayer (player_uuid r) (date +:+ " " +:+ clock_time) db
  ∧ ∃ affectedRows db' w',
      cleanupExpiredGrants (date +:+ " " +:+ select_time) (date +:+ " " +:+ update_time)
        clock db w
      = (Normal (affectedRows, db'), w')
      ∧ r ∈ rows db'
      ∧ (affectedRows < length (rows db))%nat.
Proof.
  intros Hr Hact Hexp.
  assert (Hnot : ∀ t, ¬ expired (date +:+ " " +:+ t) r).
  { intros t. unfold expired. rewrite Hexp. intros [_ Hle].
    by apply iso_text_after_sql_text in Hle. }
  split.
  - unfold findActiveByPlayer, select_active_by_player.
    apply list_elem_of_fmap. exists r. split; [done|].
    rewrite merge_sort_Permutation. apply list_elem_of_filter. split; [|done].
    split; [done|]. unfold current. rewrite Hexp. split; [done|].
    apply iso_text_after_sql_text.
  - assert (Hloop : ∀ l i w0, ∃ w1,
              for_of (λ i player_uuid, notifyGrantChange player_uuid (clock i)) i l w0
              = (Normal tt, w1)).
    { induction l as [|u l IH]; intros i w0; [by eexists|].
      simpl. unfold mbind, M_bind.
      destruct (Dispatch_sends (GrantChanged u) (clock i) w0) as (es & Hd & _).
      simpl in Hd. rewrite Hd. apply IH. }
    destruct (Hloop (select_expired_players (date +:+ " " +:+ select_time) db) 0%nat w)
      as (w1 & Hw1).
    eexists _, _, w1. split_and!.
    + unfold cleanupExpiredGrants. simpl. unfold mbind, M_bind. rewrite Hw1. done.
    + simpl. apply list_elem_of_fmap. exists r. split; [|done]. by rewrite decide_False.
    + simpl. apply (length_filter_lt _ _ r); [done|apply Hnot].
Qed.

End GrantProperties.

(** ** Permission lists *)

(** Whether the byte [a] is in the text. *)
Fixpoint occurs (a : Ascii.ascii) (s : string) : bool :=
  match s with
  | EmptyString => false
  | String b s' => Ascii.eqb b a || occurs a s'
  end.

(** A permission that goes through a column unharmed: it holds no comma, and
    something other than white space. *)
Definition plain (p : string) : Prop := occurs comma p = false ∧ blank p = false.

Lemma filter_all {A} (P : A → Prop) `{∀ x, Decision (P x)} (l : list A) :
  Forall P l → filter P l = l.
Proof.
  induction 1 as [|x l Hx Hl IH]; [done|]. by rewrite filter_cons_True, IH.
Qed.

Lemma split_commas_not_nil s : split_commas s ≠ [].
Proof.
  destruct s as [|a s]; simpl; [done|].
  destruct (Ascii.eqb a comma); [done|]. by destruct (split_commas s).
Qed.

Lemma split_commas_no_comma s : Forall (λ p, occurs comma p = false) (split_commas s).
Proof.
  induction s as [|a s IH]; simpl; [by repeat constructor|].
  destruct (Ascii.eqb a comma) eqn:Ha; [by constructor|].
  destruct (split_commas s) as [|p ps]; [by repeat constructor; simpl; rewrite Ha|].
  apply Forall_cons in IH as [Hp Hps]. constructor; [|done]. simpl. by rewrite Ha.
Qed.

Lemma split_commas_plain p : occurs comma p = false → split_commas p = [p].
Proof.
  induction p as [|a p IH]; simpl; [done|]. intros Hp.
  apply orb_false_iff in Hp as [Ha Hp]. rewrite Ha, (IH Hp). done.
Qed.

Lemma split_commas_app p s :
  occurs comma p = false → split_commas (p +:+ "," +:+ s) = p :: split_commas s.
Proof.
  induction p as [|a p IH]; simpl; [done|]. intros Hp.
  apply orb_false_iff in Hp as [Ha Hp]. rewrite Ha. by rewrite (IH Hp).
Qed.

Lemma split_commas_concat (l : list string) :
  l ≠ [] → Forall (λ p, occurs comma p = false) l →
  split_commas (String.concat "," l) = l.
Proof.
  induction l as [|p l IH]; [done|]. intros _ Hl.
  apply Forall_cons in Hl as [Hp Hl]. destruct l as [|q l].
  - simpl. by apply split_commas_plain.
  - change (String.concat "," (p :: q :: l)) with (p +:+ "," +:+ String.concat "," (q :: l)).
    rewrite split_commas_app by done. by rewrite IH.
Qed.

Lemma blank_empty p : blank p = false → p ≠ EmptyString.
Proof. by intros Hp ->. Qed.

Lemma concat_not_empty (l : list string) p :
  p ≠ EmptyString → String.concat "," (p :: l) ≠ EmptyString.
Proof. destruct p; [done|]. by destruct l. Qed.

Lemma truthy_Some s : truthy (Some s) = true ↔ s ≠ EmptyString.
Proof. unfold truthy. by rewrite negb_true_iff, bool_decide_eq_false. Qed.

(** Permissions through a column and back. *)
Lemma permissions_round_trip (permissions : option (list string)) :
  (permissions = None
   ∨ ∃ l, permissions = Some l ∧ l ≠ [] ∧ Forall plain l) →
  permissions_of_column (column_of_permissions permissions) = permissions.
Proof.
  intros [->|(l & -> & Hl & Hplain)]; [done|].
  destruct l as [|p l]; [done|].
  assert (Hp : p ≠ EmptyString).
  { apply Forall_cons in Hplain as [[_ Hp] _]. by apply blank_empty. }
  unfold column_of_permissions, permissions_of_column.
  rewrite (proj2 (truthy_Some _)) by (by apply concat_not_empty).
  rewrite (proj2 (truthy_Some _)) by (by apply concat_not_empty).
  rewrite split_commas_concat; [|done|by apply (Forall_impl _ _ _ Hplain); intros ? []].
  f_equal. apply filter_all, (Forall_impl _ _ _ Hplain). by intros ? [].
Qed.

Lemma permissions_of_column_plain (column : option string) :
  match permissions_of_column column with
  | None => column = None ∨ column = Some EmptyString
  | Some l =>
    Forall plain l
    ∧ ∃ s, column = Some s ∧ s ≠ EmptyString
           ∧ l = filter (λ p, blank p = false) (split_commas s)
  end.
Proof.
  destruct column as [s|]; simpl; [|by left].
  destruct (decide (s = EmptyString)) as [->|Hs]; [by right|].
  rewrite bool_decide_eq_false_2 by done. simpl. split; [|by exists s].
  apply Forall_forall. intros p Hp. apply list_elem_of_filter in Hp as [Hb Hp].
  split; [|done].
  pose proof (split_commas_no_comma s) as Hc. rewrite Forall_forall in Hc. by apply Hc.
Qed.

Section RankProperties.
Context `{!Platform}.
Import RankService.

(** The object of [rankApiToRow], read at the type of a row. *)
Definition row_of_object (o : object) (row : RankRow) : Prop :=
  prop o "id" = VString (row_id row)
  ∧ prop o "name" = VString (row_name row)
  ∧ prop o "display_name" = of_nullable (display_name row)
  ∧ prop o "prefix" = of_nullable (row_prefix row)
  ∧ prop o "suffix" = of_nullable (row_suffix row)
  ∧ prop o "priority" = VNumber (row_priority row)
  ∧ prop o "is_default" = VBool (is_default row)
  ∧ prop o "permissions" = of_nullable (row_permissions row).

Lemma of_nullable_inj o1 o2 : of_nullable o1 = of_nullable o2 → o1 = o2.
Proof. destruct o1, o2; simpl; congruence. Qed.

(** A rank through [rankApiToRow] and [rankRowToApi].  Every field but the
    permissions comes back as it was.  The permissions come back as they
    were when they are null, or a list that is not empty of texts that hold
    no comma and something other than white space; the empty list comes
    back as null. *)
Theorem rank_row_round_trip (rank : Rank) (row : RankRow) :
  row_of_object (rankApiToRow rank) row →
  rankRowToApi row
  = mkRank (id rank) (name rank) (displayName rank) (prefix rank) (suffix rank)
      (priority rank) (isDefault rank)
      (permissions_of_column (column_of_permissions (permissions rank)))
  ∧ (permissions rank = None
     ∨ (∃ l, permissions rank = Some l ∧ l ≠ [] ∧ Forall plain l) →
     rankRowToApi row = rank)
  ∧ (permissions rank = Some [] → permissions (rankRowToApi row) = None).
Proof.
  intros (Hid & Hname & Hdn & Hpre & Hsuf & Hpri & Hdef & Hperm).
  change (prop (rankApiToRow rank) "id") with (VString (id rank)) in Hid.
  change (prop (rankApiToRow rank) "name") with (VString (name rank)) in Hname.
  change (prop (rankApiToRow rank) "display_name")
    with (of_nullable (displayName rank)) in Hdn.
  change (prop (rankApiToRow rank) "prefix") with (of_nullable (prefix rank)) in Hpre.
  change (prop (rankApiToRow rank) "suffix") with (of_nullable (suffix rank)) in Hsuf.
  change (prop (rankApiToRow rank) "priority") with (VNumber (priority rank)) in Hpri.
  change (prop (rankApiToRow rank) "is_default") with (VBool (isDefault rank)) in Hdef.
  change (prop (rankApiToRow rank) "permissions")
    with (of_nullable (column_of_permissions (permissions rank))) in Hperm.
  apply of_nullable_inj in Hdn, Hpre, Hsuf, Hperm.
  injection Hid as Hid. injection Hname as Hname. injection Hpri as Hpri.
  injection Hdef as Hdef.
  assert (Hback : rankRowToApi row
                  = mkRank (id rank) (name rank) (displayName rank) (prefix rank)
                      (suffix rank) (priority rank) (isDefault rank)
                      (permissions_of_column (column_of_permissions (permissions rank)))).
  { unfold rankRowToApi. congruence. }
  split_and!.
  - exact Hback.
  - intros Hgood. rewrite Hback, permissions_round_trip by done. by destruct rank.
  - intros Hnil. rewrite Hback. simpl. by rewrite Hnil.
Qed.

(** What [rankRowToApi] makes of the permissions column.  A column that is
    null or empty gives null.  Any other column gives a list: the parts
    between the commas, with the parts of nothing but white space left out;
    so no permission of the list holds a comma, none is empty or blank, and
    the list is empty when every part is blank. *)
Theorem rank_permissions_from_column (row : RankRow) :
  match permissions (rankRowToApi row) with
  | None => row_permissions row = None ∨ row_permissions row = Some EmptyString
  | Some l =>
    Forall plain l
    ∧ ∃ s, row_permissions row = Some s ∧ s ≠ EmptyString
           ∧ l = filter (λ p, blank p = false) (split_commas s)
  end.
Proof. apply permissions_of_column_plain. Qed.

(** [save] takes neither [displayName] nor [isDefault] to the statement: the
    row object of [rankApiToRow] names them [display_name] and [is_default],
    and [save] reads [displayName] and [isDefault].  So the parameter of the
    column display_name is undefined and that of is_default is 0 whatever the
    rank says, and two ranks that differ in these two fields only are saved
    alike.  When the statement fails, [save] throws its error and nothing is
    written; when it succeeds, every open member is written one RANK_CHANGE
    for the rank's id. *)
Theorem rank_save_drops_fields (execute_save : list value → table → completion table)
    (dto : Rank) (now : string) (db : table) (w : world) :
  NoDup (clients w) →
  let parameters :=
    [VString (id dto); VString (name dto); VUndefined; of_nullable (prefix dto);
     of_nullable (suffix dto); VNumber (priority dto); VNumber 0;
     of_nullable (column_of_permissions (permissions dto))] in
  save_parameters (rankApiToRow dto) = parameters
  ∧ (∀ displayName' isDefault',
       save execute_save
         (mkRank (id dto) (name dto) displayName' (prefix dto) (suffix dto)
            (priority dto) isDefault' (permissions dto)) now db w
       = save execute_save dto now db w)
  ∧ match execute_save parameters db with
    | Throw e => save execute_save dto now db w = (Throw e, w)
    | Normal db' =>
      ∃ es, save execute_save dto now db w = (Normal (tt, db'), add_trace es w)
            ∧ ∀ c : conn,
                (c ∈ clients w ∧ readyState (socket w c) = OPEN →
                 frames_to c es = [JSON_stringify (RANK_CHANGE (id dto) now)])
                ∧ (¬ (c ∈ clients w ∧ readyState (socket w c) = OPEN) →
                   frames_to c es = [])
    end.
Proof.
  intros Hnd parameters.
  assert (Hpar : ∀ d, save_parameters (rankApiToRow d)
                      = [VString (id d); VString (name d); VUndefined;
                         of_nullable (prefix d); of_nullable (suffix d);
                         VNumber (priority d); VNumber 0;
                         of_nullable (column_of_permissions (permissions d))]).
  { intros d. reflexivity. }
  assert (Hid : ∀ d, text_of (prop (rankApiToRow d) "id") = id d) by reflexivity.
  split_and!.
  - apply Hpar.
  - intros displayName' isDefault'. unfold save. cbv zeta. by rewrite !Hpar, !Hid.
  - unfold save. cbv zeta. rewrite Hpar, Hid. fold parameters.
    destruct (execute_save parameters db) as [db'|e]; [|done].
    destruct (Dispatch_addressed (RankChanged (id dto)) now w Hnd) as (es & Hrun & Hes).
    exists es. split.
    + simpl in Hrun. unfold mbind, M_bind. rewrite Hrun. done.
    + intros c. destruct (Hes c) as [Hin Hout]. unfold addressed in *.
      split; intros Hc; [apply Hin|apply Hout]; tauto.
Qed.

Lemma rank_select_delete i j (db : table) :
  select_by_id i (delete_by_id j db).2
  = if decide (i = j) then [] else select_by_id i db.
Proof.
  unfold select_by_id, delete_by_id. simpl. case_decide as Hij.
  - subst. apply filter_none. intros r Hr. apply list_elem_of_filter in Hr as [? _]. tauto.
  - apply list_filter_filter_l. intros r. congruence.
Qed.

(** [deleteById]: for an id that is not in the table it throws not-found and
    nothing is written to any socket; for one that is, the rank is gone, the
    ranks of the other ids are left alone, and every open member, proxy or
    server, is written one RANK_CHANGE for the id, nobody else anything. *)
Theorem rank_deleteById_spec (rankId : string) (now : string) (db : table) (w : world) :
  NoDup (clients w) →
  match findById rankId db with
  | None =>
    deleteById rankId now db w
    = (Throw (ApiError 404 ("Rank not found: " +:+ rankId)), w)
  | Some rank =>
    ∃ db' es,
      deleteById rankId now db w = (Normal (tt, db'), add_trace es w)
      ∧ findById rankId db' = None
      ∧ (∀ i, i ≠ rankId → findById i db' = findById i db)
      ∧ ∀ c : conn,
          (c ∈ clients w ∧ readyState (socket w c) = OPEN →
           frames_to c es = [JSON_stringify (RANK_CHANGE rankId now)])
          ∧ (¬ (c ∈ clients w ∧ readyState (socket w c) = OPEN) → frames_to c es = [])
  end.
Proof.
  intros Hnd. unfold findById, deleteById.
  destruct (select_by_id rankId db) as [|r l] eqn:Hsel.
  - unfold delete_by_id. by rewrite Hsel.
  - destruct (Dispatch_addressed (RankChanged rankId) now w Hnd) as (es & Hrun & Hes).
    exists (delete_by_id rankId db).2, es. split_and!.
    + unfold delete_by_id. rewrite Hsel. simpl.
      simpl in Hrun. unfold mbind, M_bind. rewrite Hrun. done.
    + rewrite rank_select_delete. by rewrite decide_True.
    + intros i Hi. rewrite rank_select_delete. by rewrite decide_False.
    + intros c. destruct (Hes c) as [Hin Hout]. unfold addressed in *.
      split; intros Hc; [apply Hin|apply Hout]; tauto.
Qed.

End RankProperties.

Section PlayerProperties.
Context `{!Platform}.
Import PlayerService.

(** [save] takes none of [firstLogin], [lastLogin], [isOnline] and
    [additionalPermissions] to the statement: the row object of
    [playerApiToRow] names them as the columns are named, and [save] reads
    them under the names of the API.  So the parameters of first_login,
    last_login and additional_permissions are undefined and that of
    is_online is 0 whatever the player says, and two players that differ in
    these four fields only are saved alike.  When the statement fails, [save]
    throws its error and nothing is written; when it succeeds, every open
    'server' member is written one PLAYER_UPDATE for the player. *)
Theorem player_save_drops_fields (execute_save : list value → table → completion table)
    (dto : Player) (now : string) (db : table) (w : world) :
  NoDup (clients w) →
  let parameters :=
    [VString (uuid dto); VString (username dto); VNumber (playtimeTicks dto);
     VUndefined; VUndefined; VNumber 0; VUndefined] in
  save_parameters (playerApiToRow dto) = parameters
  ∧ (∀ firstLogin' lastLogin' isOnline' additionalPermissions',
       save execute_save
         (mkPlayer (uuid dto) (username dto) (playtimeTicks dto) firstLogin' lastLogin'
            isOnline' additionalPermissions') now db w
       = save execute_save dto now db w)
  ∧ match execute_save parameters db with
    | Throw e => save execute_save dto now db w = (Throw e, w)
    | Normal db' =>
      ∃ es, save execute_save dto now db w = (Normal (tt, db'), add_trace es w)
            ∧ ∀ c : conn,
                ((c ∈ clients w ∧ readyState (socket w c) = OPEN)
                   ∧ serverType (socket w c) = Some server →
                 frames_to c es = [JSON_stringify (PLAYER_UPDATE (uuid dto) now)])
                ∧ (¬ ((c ∈ clients w ∧ readyState (socket w c) = OPEN)
                        ∧ serverType (socket w c) = Some server) →
                   frames_to c es = [])
    end.
Proof.
  intros Hnd parameters.
  assert (Hpar : ∀ d, save_parameters (playerApiToRow d)
                      = [VString (uuid d); VString (username d);
                         VNumber (playtimeTicks d);
                         VUndefined; VUndefined; VNumber 0; VUndefined]).
  { intros d. reflexivity. }
  assert (Hid : ∀ d, text_of (prop (playerApiToRow d) "uuid") = uuid d) by reflexivity.
  split_and!.
  - apply Hpar.
  - intros f l o a. unfold save. cbv zeta. by rewrite !Hpar, !Hid.
  - unfold save. cbv zeta. rewrite Hpar, Hid. fold parameters.
    destruct (execute_save parameters db) as [db'|e]; [|done].
    destruct (Dispatch_addressed (PlayerUpdated (uuid dto)) now w Hnd) as (es & Hrun & Hes).
    exists es. split; [|exact Hes].
    simpl in Hrun. unfold mbind, M_bind. rewrite Hrun. done.
Qed.

Lemma player_select_update online u v (db : table) :
  select_by_uuid v (update_is_online online u db).2
  = if decide (v = u) then set_is_online online <$> select_by_uuid v db
    else select_by_uuid v db.
Proof.
  unfold select_by_uuid, update_is_online. simpl.
  induction db as [|r db IH]; [by case_decide|].
  rewrite fmap_cons.
  set (r' := if decide (row_uuid r = u) then set_is_online online r else r).
  assert (Hid : row_uuid r' = row_uuid r).
  { unfold r'. by destruct (decide (row_uuid r = u)). }
  destruct (decide (row_uuid r = v)) as [Hv|Hv].
  - rewrite (filter_cons_True _ r') by congruence.
    rewrite (filter_cons_True _ r) by done.
    unfold r'. revert IH.
    destruct (decide (v = u)), (decide (row_uuid r = u)); intros IH;
      try congruence; rewrite ?fmap_cons; f_equal; exact IH.
  - rewrite (filter_cons_False _ r') by congruence.
    rewrite (filter_cons_False _ r) by done. exact IH.
Qed.

Lemma player_online_elem p (db : table) :
  p ∈ findOnlinePlayers db ↔ ∃ r, r ∈ db ∧ is_online r = true ∧ p = playerRowToApi r.
Proof.
  unfold findOnlinePlayers, select_online. rewrite list_elem_of_fmap.
  setoid_rewrite list_elem_of_filter. naive_solver.
Qed.

(** [updateOnlineStatus]: for a uuid that is not in the table it throws
    not-found, and nothing is written to any socket; for one that is, the
    player is online or offline as asked and otherwise as before, every other
    player is left alone, [findOnlinePlayers] lists the player exactly when
    the status given is online, and the other players as it did before; and
    every open 'server' member is written one PLAYER_UPDATE for the player,
    nobody else anything. *)
Theorem player_updateOnlineStatus_spec (playerUuid : string) (online : bool)
    (now : string) (db : table) (w : world) :
  NoDup (clients w) →
  match findByUuid playerUuid db with
  | None =>
    updateOnlineStatus playerUuid online now db w
    = (Throw (ApiError 404 ("Player not found: " +:+ playerUuid)), w)
  | Some player =>
    ∃ db' es,
      updateOnlineStatus playerUuid online now db w = (Normal (tt, db'), add_trace es w)
      ∧ findByUuid playerUuid db'
        = Some (mkPlayer (uuid player) (username player) (playtimeTicks player)
                  (firstLogin player) (lastLogin player) online
                  (additionalPermissions player))
      ∧ (∀ u, u ≠ playerUuid → findByUuid u db' = findByUuid u db)
      ∧ (∀ u, (∃ p, p ∈ findOnlinePlayers db' ∧ uuid p = u)
              ↔ if decide (u = playerUuid) then online = true
                else ∃ p, p ∈ findOnlinePlayers db ∧ uuid p = u)
      ∧ ∀ c : conn,
          ((c ∈ clients w ∧ readyState (socket w c) = OPEN)
             ∧ serverType (socket w c) = Some server →
           frames_to c es = [JSON_stringify (PLAYER_UPDATE playerUuid now)])
          ∧ (¬ ((c ∈ clients w ∧ readyState (socket w c) = OPEN)
                  ∧ serverType (socket w c) = Some server) →
             frames_to c es = [])
  end.
Proof.
  intros Hnd. unfold findByUuid, updateOnlineStatus.
  destruct (select_by_uuid playerUuid db) as [|r l] eqn:Hsel.
  - unfold update_is_online. by rewrite Hsel.
  - destruct (Dispatch_addressed (PlayerUpdated playerUuid) now w Hnd) as (es & Hrun & Hes).
    exists (update_is_online online playerUuid db).2, es.
    assert (Hr : r ∈ db ∧ row_uuid r = playerUuid).
    { assert (Hin : r ∈ select_by_uuid playerUuid db) by (rewrite Hsel; by left).
      apply list_elem_of_filter in Hin. tauto. }
    split_and!.
    + unfold update_is_online. rewrite Hsel. simpl.
      simpl in Hrun. unfold mbind, M_bind. rewrite Hrun. done.
    + rewrite player_select_update, decide_True, Hsel by done. done.
    + intros u Hu. by rewrite player_select_update, decide_False.
    + intros u. setoid_rewrite player_online_elem. simpl. split.
      * intros (p & (r1 & Hr1 & Hon & ->) & <-).
        apply list_elem_of_fmap in Hr1 as (r0 & -> & Hr0).
        destruct (decide (row_uuid r0 = playerUuid)) as [Hu|Hu]; simpl in *.
        -- by rewrite decide_True.
        -- rewrite decide_False by done. exists (playerRowToApi r0). split; [|done].
           apply player_online_elem. by exists r0.
      * destruct Hr as [Hr Hru]. case_decide as Hu.
        -- intros ->. subst u. exists (playerRowToApi (set_is_online true r)).
           split; [|done]. exists (set_is_online true r). split_and!; [|done..].
           apply list_elem_of_fmap. exists r. by rewrite decide_True.
        -- intros (p & Hp & <-).
           apply player_online_elem in Hp as (r0 & Hr0 & Hon & ->).
           exists (playerRowToApi r0).
           split; [|done]. exists r0. split_and!; [|done..].
           apply list_elem_of_fmap. exists r0. by rewrite decide_False.
    + exact Hes.
Qed.

Local Instance player_playtime_desc_trans : Transitive playtime_desc.
Proof. intros r1 r2 r3. unfold playtime_desc. lia. Qed.

Local Instance player_playtime_desc_total : Total playtime_desc.
Proof. intros r1 r2. unfold playtime_desc. lia. Qed.


End PlayerProperties.

(** ** The punishment service, again *)

Section PunishmentProperties.
Context `{!Platform}.
Import PunishmentService.

Lemma update_executed_twice i (db : table) :
  update_executed i (update_executed i db) = update_executed i db.
Proof.
  unfold update_executed. rewrite <- list_fmap_compose. apply list_fmap_ext.
  intros j r _. simpl. destruct (decide (row_id r = i)) as [Hr|Hr]; simpl.
  - by rewrite decide_True.
  - by rewrite decide_False.
Qed.

Lemma findById_update_executed_eq i (db : table) :
  findById i (update_executed i db)
  = (λ p, mkPunishment (id p) (playerUuid p) (punishedByUuid p) (punishedByName p)
            (type p) (reason p) (durationSeconds p) (createdAt p) (expiresAt p)
            (isActive p) true) <$> findById i db.
Proof.
  unfold findById. rewrite select_update_executed, decide_True by done.
  by destruct (select_by_id i db).
Qed.

(** [execute] does not look at the executed flag.  Executing a punishment
    that has been executed answers as the first time and leaves the table as
    the first run left it; for a BAN, TEMPBAN or KICK every open 'proxy'
    member is written a second PUNISH_EXECUTE, for any other type nothing is
    written either time. *)
Theorem execute_again (punishmentId : Z) (now now' : string) (db : table) (w : world)
    (p : Punishment) :
  NoDup (clients w) → findById punishmentId db = Some p →
  let kick := type p = "BAN" ∨ type p = "TEMPBAN" ∨ type p = "KICK" in
  ∃ k db' es es',
    execute punishmentId now db w
    = (Normal (mkResponse true "Punishment executed successfully" k, db'), add_trace es w)
    ∧ execute punishmentId now' db' (add_trace es w)
      = (Normal (mkResponse true "Punishment executed successfully" k, db'),
         add_trace (es ++ es') w)
    ∧ (k = true ↔ kick)
    ∧ executed <$> findById punishmentId db' = Some true
    ∧ (¬ kick → es = [] ∧ es' = [])
    ∧ (kick →
       ∀ c : conn,
         ((c ∈ clients w ∧ readyState (socket w c) = OPEN)
            ∧ serverType (socket w c) = Some proxy →
          frames_to c (es ++ es')
          = [JSON_stringify (PUNISH_EXECUTE (playerUuid p) (type p) (reason p) now);
             JSON_stringify (PUNISH_EXECUTE (playerUuid p) (type p) (reason p) now')])
         ∧ (¬ ((c ∈ clients w ∧ readyState (socket w c) = OPEN)
                 ∧ serverType (socket w c) = Some proxy) →
            frames_to c (es ++ es') = [])).
Proof.
  intros Hnd Hfind kick.
  set (db' := update_executed punishmentId db).
  assert (Hfind' : findById punishmentId db'
                   = Some (mkPunishment (id p) (playerUuid p) (punishedByUuid p)
                             (punishedByName p) (type p) (reason p) (durationSeconds p)
                             (createdAt p) (expiresAt p) (isActive p) true)).
  { unfold db'. by rewrite findById_update_executed_eq, Hfind. }
  assert (Hdb : update_executed punishmentId db' = db') by apply update_executed_twice.
  destruct (bool_decide (type p = "BAN") || bool_decide (type p = "TEMPBAN")
            || bool_decide (type p = "KICK")) eqn:Hk.
  - assert (Hkick : kick).
    { unfold kick. rewrite !orb_true_iff, !bool_decide_eq_true in Hk. tauto. }
    destruct (sendToType_frames proxy
                (PUNISH_EXECUTE (playerUuid p) (type p) (reason p) now) w Hnd)
      as (es & Hrun & Hes).
    destruct (sendToType_frames proxy
                (PUNISH_EXECUTE (playerUuid p) (type p) (reason p) now')
                (add_trace es w) Hnd)
      as (es' & Hrun' & Hes').
    exists true, db', es, es'. split_and!.
    + unfold execute. rewrite Hfind, Hk.
      unfold notifyPunishmentExecute, mbind, M_bind. rewrite sendToProxy_run, Hrun. done.
    + unfold execute. rewrite Hfind'. simpl. rewrite Hk, Hdb.
      unfold notifyPunishmentExecute, mbind, M_bind.
      rewrite sendToProxy_run, Hrun', add_trace_app. done.
    + done.
    + by rewrite Hfind'.
    + tauto.
    + intros _ c. rewrite frames_to_app.
      destruct (Hes c) as [Hin Hout], (Hes' c) as [Hin' Hout']. split; intros Hc.
      * by rewrite Hin, Hin'.
      * by rewrite Hout, Hout'.
  - assert (Hkick : ¬ kick).
    { unfold kick. rewrite !orb_false_iff, !bool_decide_eq_false in Hk. tauto. }
    exists false, db', [], []. split_and!; try tauto; try done.
    + unfold execute. rewrite Hfind, Hk. by rewrite add_trace_nil.
    + unfold execute. rewrite Hfind'. simpl. rewrite Hk, Hdb. by rewrite add_trace_nil.
    + by rewrite Hfind'.
Qed.

Lemma punishment_update_expired_clean now (db : table) r :
  r ∈ (update_expired now db).2 → ¬ expired now r.
Proof.
  simpl. intros Hr. apply list_elem_of_fmap in Hr as (r0 & -> & Hr0).
  case_decide as Hexp; [|done]. unfold expired. simpl. intros [? _]. done.
Qed.

(** [cleanupExpiredPunishments]: it completes and answers how many rows were
    active with an expiry not after the clock of its update; those rows are
    then inactive and otherwise as they were, every other row is left alone,
    and no such row is left.  The players notified are those with such a row
    at the clock of the select, each once: every open 'server' member gets
    one PLAYER_UPDATE per player, nobody else anything, the proxy
    included. *)
Theorem punishment_cleanupExpired_spec (selected updated : string) (clock : nat → string)
    (db : table) (w : world) :
  NoDup (clients w) →
  ∃ db' es players,
    cleanupExpiredPunishments selected updated clock db w
    = (Normal (length (filter (expired updated) db), db'), add_trace es w)
    ∧ db' = (λ r, if decide (expired updated r) then set_is_active false r else r) <$> db
    ∧ (∀ r, r ∈ db' → ¬ expired updated r)
    ∧ NoDup players
    ∧ (∀ u, u ∈ players ↔ ∃ r, r ∈ db ∧ expired selected r ∧ player_uuid r = u)
    ∧ ∀ c : conn,
        ((c ∈ clients w ∧ readyState (socket w c) = OPEN)
           ∧ serverType (socket w c) = Some server →
         frames_to c es
         = imap (λ i u, JSON_stringify (PLAYER_UPDATE u (clock i))) players)
        ∧ (¬ ((c ∈ clients w ∧ readyState (socket w c) = OPEN)
                ∧ serverType (socket w c) = Some server) →
           frames_to c es = []).
Proof.
  intros Hnd.
  destruct (for_of_Dispatch PlayerUpdated clock
              (λ c, (c ∈ clients w ∧ readyState (socket w c) = OPEN)
                    ∧ serverType (socket w c) = Some server)
              (select_expired_players selected db) 0 w Hnd)
    as (es & Hrun & Hes); [done|].
  exists (update_expired updated db).2, es, (select_expired_players selected db).
  split_and!.
  - unfold cleanupExpiredPunishments. simpl. unfold mbind, M_bind.
    change (for_of (λ i player_uuid, notifyPlayerUpdate player_uuid (clock i)) 0
              (select_expired_players selected db) w)
      with (for_of (λ i x, Dispatch (PlayerUpdated x) (clock i)) 0
              (select_expired_players selected db) w).
    rewrite Hrun. done.
  - done.
  - apply punishment_update_expired_clean.
  - apply NoDup_remove_dups.
  - intros u. unfold select_expired_players.
    rewrite elem_of_remove_dups, list_elem_of_fmap.
    setoid_rewrite list_elem_of_filter. naive_solver.
  - intros c. destruct (Hes c) as [Hin Hout]. split; intros Hc.
    + rewrite Hin by done. by apply imap_ext.
    + by apply Hout.
Qed.

End PunishmentProperties.

(** ** Examples *)

Definition secret : string := "secret".

(** A process with the API key set. *)
Definition keyed : Platform := example_platform (Some secret).

(** A process with no API key in its environment. *)
Definition unkeyed : Platform := example_platform None.

Definition from_proxy : request := mkRequest (Some secret) (Some "bungee") (Some "main-proxy").
Definition from_survival : request := mkRequest (Some secret) (Some "paper") (Some "survival").
Definition from_lobby : request := mkRequest (Some secret) (Some "paper") None.

Definition joining : list event :=
  [EvConnection from_proxy; EvConnection from_survival; EvConnection from_lobby].

(** One proxy (0) and two game servers (1 and 2), all open. *)
Definition cluster : world := @after keyed joining init.

Lemma cluster_clients : clients cluster = [0; 1; 2].
Proof. vm_compute. reflexivity. Qed.

Lemma cluster_distinct : NoDup (clients cluster).
Proof.
  rewrite cluster_clients.
  repeat (apply NoDup_cons; split; [set_solver|]). apply NoDup_nil_2.
Qed.

Definition noon : string := "2024-01-01T12:00:00.000Z".

(** What a statement adds to the trace. *)
Definition added {A} (m : M A) (w : world) : list effect :=
  drop (length (trace w)) (trace (exec m w)).

(** With one proxy and two game servers connected, a PUNISH_EXECUTE goes to
    the proxy and to neither game server, a GRANT_CHANGE to both game servers
    and not to the proxy, a RANK_CHANGE to all three. *)
Example routing_in_cluster :
  let punish := @Dispatch keyed (PunishmentExecute "p1" "BAN" (Some "griefing")) noon in
  let grant := @Dispatch keyed (GrantChanged "p1") noon in
  let rank := @Dispatch keyed (RankChanged "vip") noon in
  (length (frames_to 0 (added punish cluster)),
   length (frames_to 1 (added punish cluster)),
   length (frames_to 2 (added punish cluster))) = (1, 0, 0)
  ∧ (length (frames_to 0 (added grant cluster)),
     length (frames_to 1 (added grant cluster)),
     length (frames_to 2 (added grant cluster))) = (0, 1, 1)
  ∧ (length (frames_to 0 (added rank cluster)),
     length (frames_to 1 (added rank cluster)),
     length (frames_to 2 (added rank cluster))) = (1, 1, 1).
Proof. vm_compute. done. Qed.

(** C2, at the frame [null] sent by game server 1 of the cluster: the text
    parses, to null; the handler's read of [message.type] throws, its catch
    writes the parse-failure line, and neither the proxy nor the other game
    server gets the frame; the frame [{}] from the same sender reaches
    both. *)
Lemma null_frame_not_rebroadcast :
  @JSON_parse keyed "null" = Some JNull
  ∧ @handleMessage keyed 1 "null" cluster
    = (Normal tt, add_trace [Logged Error (ParseFailed TypeError)] cluster)
  ∧ frames_to 0 (added (@handleMessage keyed 1 "null") cluster) = []
  ∧ frames_to 2 (added (@handleMessage keyed 1 "null") cluster) = []
  ∧ frames_to 0 (added (@handleMessage keyed 1 "{}") cluster) = ["{}"]
  ∧ frames_to 1 (added (@handleMessage keyed 1 "{}") cluster) = []
  ∧ frames_to 2 (added (@handleMessage keyed 1 "{}") cluster) = ["{}"].
Proof. vm_compute. done. Qed.

Definition from_stranger : request := mkRequest (Some secret) (Some "invalid") None.
Definition without_type : request := mkRequest (Some secret) None None.
Definition with_wrong_key : request := mkRequest (Some "wrong") (Some "paper") None.
Definition without_key : request := mkRequest None (Some "paper") None.

(** [handleConnection] on a socket the server has just accepted. *)
Definition bun_connect `{!Platform} (req : request) : M unit :=
  client ← accept; BunServer.handleConnection client req.

(** C3, at the type parameter "invalid" and at an absent one, on the Bun
    manager: the socket is admitted as a 'server', gets the CONNECTED frame
    and no ERROR frame, and is not closed. *)
Lemma bun_admits_unknown_role :
  let w := exec (@bun_connect keyed from_stranger) init in
  let w' := exec (@bun_connect keyed without_type) init in
  clients w = [0] ∧ serverType (socket w 0) = Some server
  ∧ readyState (socket w 0) = OPEN
  ∧ trace w = [Logged Info (Connected 0);
               Sent 0 (@JSON_stringify keyed (CONNECTED server "unknown"))]
  ∧ clients w' = [0] ∧ serverType (socket w' 0) = Some server
  ∧ trace w' = trace w.
Proof. vm_compute. done. Qed.

(** C5, at an api_key that is not the configured one and at an absent one, on
    the Bun manager: the socket is admitted all the same. *)
Lemma bun_admits_wrong_key :
  @API_KEY keyed = secret
  ∧ (let w := exec (@bun_connect keyed with_wrong_key) init in
     clients w = [0] ∧ authenticated (socket w 0) = true)
  ∧ (let w := exec (@bun_connect keyed without_key) init in
     clients w = [0] ∧ authenticated (socket w 0) = true).
Proof. vm_compute. done. Qed.

(** C6, on the Bun manager: a client that never answers a ping is still in
    the set, with its socket open and never destroyed, after any number of
    firings of its timer. *)
Lemma bun_never_evicts (n : nat) :
  let w := exec (@bun_connect keyed from_survival) init in
  let w' := exec (BunServer.intervals n 0) w in
  clients w' = [0] ∧ readyState (socket w' 0) = OPEN ∧ isAlive (socket w' 0) = true
  ∧ (Terminated 0 ∉ trace w').
Proof.
  intros w w'.
  destruct (bun_intervals_run n 0 w) as (es & Hrun & Hes); [by vm_compute|].
  unfold w', exec. rewrite Hrun. simpl. split_and!; try done.
  rewrite elem_of_app. intros [Ht|Ht].
  - assert (Htr : trace w = [Logged Info (Connected 0);
                             Sent 0 (@JSON_stringify keyed (CONNECTED server "survival"))])
      by (by vm_compute).
    rewrite Htr, !elem_of_cons, elem_of_nil in Ht. naive_solver.
  - rewrite Forall_forall in Hes. by apply Hes in Ht.
Qed.

(** C4, on the ws manager with no API key in the environment: an attempt
    with a valid role and no api_key, and one with a key of its own, are
    both rejected as failed authentication; only the empty api_key is
    admitted.  The HTTP middleware of the same process lets every request
    pass. *)
Lemma ws_unkeyed_rejects :
  @API_KEY unkeyed = EmptyString
  ∧ (let w := @after unkeyed [EvConnection without_key] init in
     clients w = []
     ∧ trace w = [Logged Warn RejectedInvalidKey;
                  Sent 0 (@JSON_stringify unkeyed (ERROR "Authentication failed"));
                  CloseFrame 0 1008 "Authentication failed"])
  ∧ clients (@after unkeyed [EvConnection from_survival] init) = []
  ∧ clients (@after unkeyed
               [EvConnection (mkRequest (Some EmptyString) (Some "paper") None)] init)
    = [0]
  ∧ @authMiddleware unkeyed None = Next
  ∧ @authMiddleware unkeyed (Some secret) = Next.
Proof. vm_compute. done. Qed.

(** ** The theorems at work on the cluster *)

Lemma cluster_sockets :
  readyState (socket cluster 0) = OPEN ∧ serverType (socket cluster 0) = Some proxy
  ∧ readyState (socket cluster 1) = OPEN ∧ serverType (socket cluster 1) = Some server
  ∧ readyState (socket cluster 2) = OPEN ∧ serverType (socket cluster 2) = Some server
  ∧ isAlive (socket cluster 1) = true.
Proof. vm_compute. repeat split; reflexivity. Qed.

Lemma cluster_members : 0 ∈ clients cluster ∧ 1 ∈ clients cluster ∧ 2 ∈ clients cluster.
Proof. rewrite cluster_clients. set_solver. Qed.

Lemma cluster_joined : @after keyed joining init = cluster.
Proof. reflexivity. Qed.

Opaque cluster.

Definition ban : DomainEvent := PunishmentExecute "p1" "BAN" (Some "griefing").

Lemma dispatch_routing_witness :
  ∃ es, @Dispatch keyed ban noon cluster = (Normal tt, add_trace es cluster)
        ∧ frames_to 0 es = [@JSON_stringify keyed (encode ban noon)]
        ∧ frames_to 1 es = [] ∧ frames_to 2 es = [].
Proof.
  destruct (@dispatch_routing keyed cluster ban noon cluster_distinct) as (es & Hrun & Hes).
  pose proof cluster_sockets as (? & ? & ? & ? & ? & ? & _).
  exists es. split; [exact Hrun|]. split_and!; apply Hes; simpl.
  - split_and!; [apply cluster_members|assumption..].
  - intros [_ ?]. congruence.
  - intros [_ ?]. congruence.
Defined.


Lemma malformed_frame_dropped_witness :
  @handleMessage keyed 1 "{oops" cluster
  = (Normal tt, add_trace [Logged Error (ParseFailed SyntaxError)] cluster).
Proof. apply (@malformed_frame_dropped keyed). reflexivity. Defined.

Definition a_ban : PunishmentService.PunishmentRow :=
  PunishmentService.mkRow 7 "p1" None (Some "console") "BAN" (Some "griefing")
    None (Some noon) None true false.

Definition a_mute : PunishmentService.PunishmentRow :=
  PunishmentService.mkRow 8 "p2" None (Some "console") "MUTE" None
    (Some 600%Z) (Some noon) None true false.

Lemma execute_spec_witness :
  ∃ es, @PunishmentService.execute keyed 7 noon [a_ban; a_mute] cluster
        = (Normal (PunishmentService.mkResponse true "Punishment executed successfully" true,
                   [PunishmentService.set_executed a_ban; a_mute]),
           add_trace es cluster)
        ∧ frames_to 0 es = [@JSON_stringify keyed (PUNISH_EXECUTE "p1" "BAN" (Some "griefing") noon)]
        ∧ frames_to 1 es = [].
Proof.
  pose proof (@execute_spec keyed 7 noon [a_ban; a_mute] cluster cluster_distinct) as H.
  assert (Hf : PunishmentService.findById 7 [a_ban; a_mute]
               = Some (PunishmentService.punishmentRowToApi a_ban)) by reflexivity.
  rewrite Hf in H. destruct H as (es & k & Hrun & Hk & Hkick & _).
  assert (Hban : PunishmentService.type (PunishmentService.punishmentRowToApi a_ban) = "BAN"
                 ∨ PunishmentService.type (PunishmentService.punishmentRowToApi a_ban) = "TEMPBAN"
                 ∨ PunishmentService.type (PunishmentService.punishmentRowToApi a_ban) = "KICK")
    by (left; reflexivity).
  destruct (Hkick Hban) as [_ Hes].
  pose proof cluster_sockets as (? & ? & ? & ? & ? & ? & _).
  exists es. split_and!.
  - rewrite Hrun. rewrite (proj2 Hk Hban). reflexivity.
  - apply Hes. split_and!; [apply cluster_members|assumption..].
  - apply Hes. intros [_ ?]. congruence.
Defined.

(** A MUTE is marked executed and nothing is sent; an unknown id throws. *)
Example execute_mute_and_missing :
  @PunishmentService.execute keyed 8 noon [a_ban; a_mute] cluster
  = (Normal (PunishmentService.mkResponse true "Punishment executed successfully" false,
             [a_ban; PunishmentService.set_executed a_mute]),
     cluster)
  ∧ @PunishmentService.execute keyed 9 noon [a_ban; a_mute] cluster
    = (Throw (ApiError 404 "Punishment with ID 9 not found"), cluster).
Proof. vm_compute. split; reflexivity. Qed.


Lemma ws_rejects_unknown_role_witness :
  0 ∉ clients (@after keyed [EvConnection from_stranger; EvConnection from_proxy] init).
Proof.
  destruct (@ws_rejects_unknown_role keyed [] from_stranger [EvConnection from_proxy])
    as (_ & _ & _ & _ & Hgone); [discriminate..|]. exact Hgone.
Defined.

Lemma ws_silent_client_evicted_witness :
  1 ∉ clients (@after keyed (EvInterval :: [EvPong 2] ++ EvInterval :: [EvPong 1]) cluster).
Proof.
  pose proof (@ws_silent_client_evicted keyed joining 1 [EvPong 2] [EvPong 1]) as Hthm.
  cbv zeta in Hthm. rewrite cluster_joined in Hthm.
  destruct Hthm as (_ & Hgone & _).
  - exact (proj1 (proj2 cluster_members)).
  - rewrite not_elem_of_cons. split; [discriminate|apply not_elem_of_nil].
  - exact Hgone.
Defined.

Lemma ws_responsive_client_kept_witness :
  1 ∈ clients (@after keyed (periods [[EvPong 1]; [EvPong 1; EvPong 2]]) cluster).
Proof.
  pose proof (@ws_responsive_client_kept keyed joining 1
                [[EvPong 1]; [EvPong 1; EvPong 2]]) as Hthm.
  cbv zeta in Hthm. rewrite cluster_joined in Hthm.
  destruct Hthm as [_ Hkept].
  - exact (proj1 (proj2 cluster_members)).
  - exact (proj2 (proj2 (proj2 (proj2 (proj2 (proj2 cluster_sockets)))))).
  - repeat (apply Forall_cons; split); try apply Forall_nil_2;
      (split; [rewrite ?not_elem_of_cons; split_and!; try discriminate; apply not_elem_of_nil
              |apply elem_of_cons; left; reflexivity]).
  - apply Hkept.
    repeat (apply Forall_cons; split); try apply Forall_nil_2;
      (split; rewrite ?not_elem_of_cons; split_and!; try discriminate;
       apply not_elem_of_nil).
Defined.

(** ** The services at work on the cluster *)

(** Game server 1 of the cluster has closed. *)
Definition one_gone : list event := joining ++ [EvClose 1].

Lemma one_gone_state :
  next (@after keyed one_gone init) = 3 ∧ clients (@after keyed one_gone init) = [0; 2].
Proof. by vm_compute. Qed.

Lemma ws_outsider_gets_nothing_witness :
  ∃ es, trace (@after keyed [EvNotify (GrantChanged "p1") noon; EvInterval]
                 (@after keyed one_gone init))
        = trace (@after keyed one_gone init) ++ es
        ∧ frames_to 1 es = [].
Proof.
  destruct (@ws_outsider_gets_nothing keyed one_gone 1
              [EvNotify (GrantChanged "p1") noon; EvInterval])
    as (es & Htr & Hes & _).
  - rewrite (proj1 one_gone_state). lia.
  - rewrite (proj2 one_gone_state). set_solver.
  - exists es. split; [exact Htr|exact Hes].
Defined.

Definition from_second_proxy : request := mkRequest (Some secret) (Some "bungee") None.

Lemma ws_admits_valid_request_witness :
  ∃ w1, @WsServer.step keyed (EvConnection from_second_proxy) (@after keyed joining init)
        = (Normal tt, w1)
        ∧ clients w1 = clients (@after keyed joining init) ++ [next (@after keyed joining init)].
Proof.
  destruct (@ws_admits_valid_request keyed joining from_second_proxy)
    as (w1 & Hstep & Hcl & _).
  - reflexivity.
  - left. reflexivity.
  - exists w1. split; [exact Hstep|exact Hcl].
Defined.

Definition vip_grant : GrantService.GrantRow :=
  GrantService.mkRow 1 "p1" "vip" "admin-uuid" "Admin" "2024-01-01T00:00:00.000Z"
    (Some "2024-06-01T00:00:00.000Z") (Some "VIP player") true.

Definition mod_grant : GrantService.GrantRow :=
  GrantService.mkRow 2 "p2" "mod" "admin-uuid" "Admin" "2024-02-01T00:00:00.000Z"
    None None true.

Definition grants : GrantService.table := GrantService.mkTable [vip_grant; mod_grant] 2.

Definition mvp_grant : GrantService.CreateGrantDto :=
  GrantService.mkDto "p1" "mvp" "admin-uuid" "Admin" noon None None true.

Lemma grant_save_then_findById_witness :
  ∃ insertId db' es,
    @GrantService.save keyed mvp_grant noon grants cluster
    = (Normal (insertId, db'), add_trace es cluster)
    ∧ GrantService.findById insertId db'
      = Some (GrantService.mkGrant insertId "p1" "mvp" "admin-uuid" "Admin" noon None None
                true)
    ∧ frames_to 0 es = []
    ∧ frames_to 1 es = [@JSON_stringify keyed (GRANT_CHANGE "p1" noon)].
Proof.
  destruct (@grant_save_then_findById keyed mvp_grant noon grants cluster cluster_distinct)
    as (insertId & db' & es & Hrun & _ & _ & _ & Hfind & _ & Hes); [by vm_compute|].
  pose proof cluster_sockets as (? & ? & ? & ? & ? & ? & _).
  exists insertId, db', es. split_and!; [exact Hrun|exact Hfind|..]; apply Hes.
  - intros [_ ?]. congruence.
  - split_and!; [apply cluster_members|assumption..].
Defined.

Lemma grant_updateActiveStatus_spec_witness :
  ∃ db' es,
    @GrantService.updateActiveStatus keyed 1 false noon grants cluster
    = (Normal (tt, db'), add_trace es cluster)
    ∧ GrantService.isActive <$> GrantService.findById 1 db' = Some false
    ∧ frames_to 2 es = [@JSON_stringify keyed (GRANT_CHANGE "p1" noon)].
Proof.
  pose proof (@grant_updateActiveStatus_spec keyed 1 false noon grants cluster
                cluster_distinct) as Hthm.
  assert (Hf : GrantService.findById 1 grants
               = Some (GrantService.grantRowToApi vip_grant)) by reflexivity.
  rewrite Hf in Hthm. destruct Hthm as (db' & es & Hrun & Hfind & _ & Hes).
  pose proof cluster_sockets as (? & ? & ? & ? & ? & ? & _).
  exists db', es. split_and!; [exact Hrun|by rewrite Hfind|].
  apply Hes. split_and!; [apply cluster_members|assumption..].
Defined.

Lemma grant_deleteById_spec_witness :
  ∃ db' es,
    @GrantService.deleteById keyed 1 noon grants cluster
    = (Normal (tt, db'), add_trace es cluster)
    ∧ GrantService.findById 1 db' = None
    ∧ frames_to 2 es = [@JSON_stringify keyed (GRANT_CHANGE "p1" noon)].
Proof.
  pose proof (@grant_deleteById_spec keyed 1 noon grants cluster cluster_distinct) as Hthm.
  assert (Hf : GrantService.findById 1 grants
               = Some (GrantService.grantRowToApi vip_grant)) by reflexivity.
  rewrite Hf in Hthm. destruct Hthm as (db' & es & Hrun & Hfind & _ & Hes & _).
  pose proof cluster_sockets as (? & ? & ? & ? & ? & ? & _).
  exists db', es. split_and!; [exact Hrun|exact Hfind|].
  apply Hes. split_and!; [apply cluster_members|assumption..].
Defined.

Lemma grant_deleteByPlayer_spec_witness :
  ∃ db' es,
    @GrantService.deleteByPlayer keyed "p1" noon grants cluster
    = (Normal (tt, db'), add_trace es cluster)
    ∧ GrantService.findByPlayer "p1" db' = []
    ∧ frames_to 0 es = [].
Proof.
  destruct (@grant_deleteByPlayer_spec keyed "p1" noon grants cluster cluster_distinct)
    as (db' & es & Hrun & Hfind & _ & _ & Hes).
  pose proof cluster_sockets as (? & ? & ? & ? & ? & ? & _).
  exists db', es. split_and!; [exact Hrun|exact Hfind|].
  apply Hes. intros [_ ?]. congruence.
Defined.

(** The clock of SQLite at the end of the first of June, and the clock of
    JavaScript at each notification. *)
Definition june_first : string := "2024-06-01 23:59:59".
Definition june_second : string := "2024-06-02 00:00:00".
Definition at_noon (i : nat) : string := noon.

Lemma grant_cleanupExpiredGrants_spec_witness :
  ∃ affectedRows db' es,
    @GrantService.cleanupExpiredGrants keyed june_second june_second at_noon grants cluster
    = (Normal (affectedRows, db'), add_trace es cluster)
    ∧ frames_to 0 es = []
    ∧ @GrantService.cleanupExpiredGrants keyed june_second june_second at_noon db' cluster
      = (Normal (0%nat, db'), cluster).
Proof.
  destruct (@grant_cleanupExpiredGrants_spec keyed june_second june_second at_noon grants
              cluster cluster_distinct)
    as (db' & es & players & Hrun & _ & _ & _ & _ & _ & Hes & Hagain).
  pose proof cluster_sockets as (? & ? & ? & ? & ? & ? & _).
  eexists _, db', es. split_and!.
  - exact Hrun.
  - apply Hes. intros [_ ?]. congruence.
  - apply Hagain.
Defined.

Lemma grant_expiry_is_by_day_witness :
  GrantService.grantRowToApi vip_grant ∈ GrantService.findActiveByPlayer "p1" june_first grants.
Proof.
  destruct (@grant_expiry_is_by_day keyed "2024-06-01" "00:00:00.000Z" "23:59:59"
              "23:59:58" "23:59:59" at_noon grants cluster vip_grant) as (Hfound & _).
  - by left.
  - reflexivity.
  - reflexivity.
  - exact Hfound.
Defined.

Definition vip : RankService.Rank :=
  RankService.mkRank "vip" "VIP" (Some "[VIP]") (Some "&6") None 10 true
    (Some ["core.fly"; "core.heal"]).

Definition vip_row : RankService.RankRow :=
  RankService.mkRow "vip" "VIP" (Some "[VIP]") (Some "&6") None 10 true
    (Some "core.fly,core.heal").

Lemma rank_row_round_trip_witness : RankService.rankRowToApi vip_row = vip.
Proof.
  destruct (rank_row_round_trip vip vip_row) as (_ & Hback & _).
  - by vm_compute.
  - apply Hback. right. exists ["core.fly"; "core.heal"].
    split_and!; [done..|]. by repeat constructor.
Defined.

(** A driver that runs the statement whatever it is given. *)
Definition lenient {T} (parameters : list value) (db : T) : completion T := Normal db.

Lemma rank_save_drops_fields_witness :
  RankService.save_parameters (RankService.rankApiToRow vip)
  = [VString "vip"; VString "VIP"; VUndefined; VString "&6"; VNull; VNumber 10; VNumber 0;
     VString "core.fly,core.heal"]
  ∧ ∃ es, @RankService.save keyed lenient vip noon [vip_row] cluster
          = (Normal (tt, [vip_row]), add_trace es cluster)
          ∧ frames_to 0 es = [@JSON_stringify keyed (RANK_CHANGE "vip" noon)].
Proof.
  destruct (@rank_save_drops_fields keyed lenient vip noon [vip_row] cluster cluster_distinct)
    as (Hpar & _ & es & Hrun & Hes).
  pose proof cluster_sockets as (? & ? & ? & ? & ? & ? & _).
  split; [exact Hpar|]. exists es. split; [exact Hrun|].
  apply Hes. split_and!; [apply cluster_members|assumption].
Defined.

Lemma rank_deleteById_spec_witness :
  ∃ db' es,
    @RankService.deleteById keyed "vip" noon [vip_row] cluster
    = (Normal (tt, db'), add_trace es cluster)
    ∧ RankService.findById "vip" db' = None
    ∧ frames_to 0 es = [@JSON_stringify keyed (RANK_CHANGE "vip" noon)]
    ∧ frames_to 1 es = [@JSON_stringify keyed (RANK_CHANGE "vip" noon)].
Proof.
  pose proof (@rank_deleteById_spec keyed "vip" noon [vip_row] cluster cluster_distinct)
    as Hthm.
  assert (Hf : RankService.findById "vip" [vip_row]
               = Some (RankService.rankRowToApi vip_row)) by reflexivity.
  rewrite Hf in Hthm. destruct Hthm as (db' & es & Hrun & Hfind & _ & Hes).
  pose proof cluster_sockets as (? & ? & ? & ? & ? & ? & _).
  exists db', es. split_and!; [exact Hrun|exact Hfind|..];
    apply Hes; (split; [apply cluster_members|assumption]).
Defined.

Definition steve : PlayerService.Player :=
  PlayerService.mkPlayer "p1" "Steve" 7200 (Some noon) (Some noon) true (Some ["core.fly"]).

Definition steve_row : PlayerService.PlayerRow :=
  PlayerService.mkRow "p1" "Steve" 7200 (Some noon) (Some noon) false None.

Definition alex_row : PlayerService.PlayerRow :=
  PlayerService.mkRow "p2" "Alex" 9000 None (Some noon) true None.

Lemma player_save_drops_fields_witness :
  PlayerService.save_parameters (PlayerService.playerApiToRow steve)
  = [VString "p1"; VString "Steve"; VNumber 7200; VUndefined; VUndefined; VNumber 0;
     VUndefined]
  ∧ ∃ es, @PlayerService.save keyed lenient steve noon [steve_row] cluster
          = (Normal (tt, [steve_row]), add_trace es cluster)
          ∧ frames_to 1 es = [@JSON_stringify keyed (PLAYER_UPDATE "p1" noon)].
Proof.
  destruct (@player_save_drops_fields keyed lenient steve noon [steve_row] cluster
              cluster_distinct)
    as (Hpar & _ & es & Hrun & Hes).
  pose proof cluster_sockets as (? & ? & ? & ? & ? & ? & _).
  split; [exact Hpar|]. exists es. split; [exact Hrun|].
  apply Hes. split_and!; [apply cluster_members|assumption..].
Defined.

Lemma player_updateOnlineStatus_spec_witness :
  ∃ db' es,
    @PlayerService.updateOnlineStatus keyed "p1" true noon [steve_row; alex_row] cluster
    = (Normal (tt, db'), add_trace es cluster)
    ∧ PlayerService.isOnline <$> PlayerService.findByUuid "p1" db' = Some true
    ∧ frames_to 2 es = [@JSON_stringify keyed (PLAYER_UPDATE "p1" noon)].
Proof.
  pose proof (@player_updateOnlineStatus_spec keyed "p1" true noon [steve_row; alex_row]
                cluster cluster_distinct) as Hthm.
  assert (Hf : PlayerService.findByUuid "p1" [steve_row; alex_row]
               = Some (PlayerService.playerRowToApi steve_row)) by reflexivity.
  rewrite Hf in Hthm. destruct Hthm as (db' & es & Hrun & Hfind & _ & _ & Hes).
  pose proof cluster_sockets as (? & ? & ? & ? & ? & ? & _).
  exists db', es. split_and!; [exact Hrun|by rewrite Hfind|].
  apply Hes. split_and!; [apply cluster_members|assumption..].
Defined.

Lemma execute_again_witness :
  ∃ db' es es',
    @PunishmentService.execute keyed 7 noon [a_ban; a_mute] cluster
    = (Normal (PunishmentService.mkResponse true "Punishment executed successfully" true,
               db'), add_trace es cluster)
    ∧ @PunishmentService.execute keyed 7 noon db' (add_trace es cluster)
      = (Normal (PunishmentService.mkResponse true "Punishment executed successfully" true,
                 db'), add_trace (es ++ es') cluster)
    ∧ frames_to 0 (es ++ es')
      = [@JSON_stringify keyed (PUNISH_EXECUTE "p1" "BAN" (Some "griefing") noon);
         @JSON_stringify keyed (PUNISH_EXECUTE "p1" "BAN" (Some "griefing") noon)].
Proof.
  destruct (@execute_again keyed 7 noon noon [a_ban; a_mute] cluster
              (PunishmentService.punishmentRowToApi a_ban) cluster_distinct eq_refl)
    as (k & db' & es & es' & Hrun & Hrun' & Hk & _ & _ & Hes).
  assert (Hban : PunishmentService.type (PunishmentService.punishmentRowToApi a_ban) = "BAN"
                 ∨ PunishmentService.type (PunishmentService.punishmentRowToApi a_ban) = "TEMPBAN"
                 ∨ PunishmentService.type (PunishmentService.punishmentRowToApi a_ban) = "KICK")
    by (left; reflexivity).
  pose proof cluster_sockets as (? & ? & ? & ? & ? & ? & _).
  rewrite (proj2 Hk Hban) in Hrun, Hrun'.
  exists db', es, es'. split_and!; [exact Hrun|exact Hrun'|].
  apply (Hes Hban). split_and!; [apply cluster_members|assumption..].
Defined.

Lemma punishment_cleanupExpired_spec_witness :
  ∃ db' es,
    @PunishmentService.cleanupExpiredPunishments keyed june_second june_second at_noon
      [a_ban; a_mute] cluster
    = (Normal (0%nat, db'), add_trace es cluster)
    ∧ frames_to 0 es = [].
Proof.
  destruct (@punishment_cleanupExpired_spec keyed june_second june_second at_noon
              [a_ban; a_mute] cluster cluster_distinct)
    as (db' & es & players & Hrun & _ & _ & _ & _ & Hes).
  pose proof cluster_sockets as (? & ? & ? & ? & ? & ? & _).
  exists db', es. split; [exact Hrun|].
  apply Hes. intros [_ ?]. congruence.
Defined.
